(** * dash: pool, hub and metrics cache

    A shallow embedding of the three stateful services of the dashboard
    server and the properties proved about them:

    - [Pool]    : [server/ssh_service.py], class [SSHConnectionPool];
    - [Hub]     : [server/websocket_service.py], class [WebSocketService];
    - [Metrics] : [server/metrics_service.py], class [MetricsService].

    Python objects that are mutated in place and shared (the history lists
    of the metrics service) live in an explicit store; dictionaries are
    [gmap]s, sets are [gset]s, and every clock reading is an argument of
    the operation that makes it. *)

From stdpp Require Import gmap strings list fin_maps fin_sets pretty.
From Stdlib Require Import ZArith Lia.

Local Open Scope Z_scope.
Set Warnings "-clear-no-such-hyp".

(** ** Clock: [datetime] and [timedelta]

    A [datetime] is the number of microseconds since the epoch (the
    resolution of Python's [datetime]).  The difference of two of them is a
    [timedelta], which Python normalises to [(days, seconds, microseconds)]
    with [0 <= seconds < 86400] and [0 <= microseconds < 1000000]; [days]
    carries the sign.  The attribute [.seconds] is the middle component, not
    the total. *)
Module Clock.

Definition us_per_second : Z := 1000000.
Definition us_per_day : Z := 86400 * us_per_second.

(** [seconds_of s]: the datetime [s] seconds after the epoch. *)
Definition seconds_of (s : Z) : Z := s * us_per_second.

(** [(a - b).days] *)
Definition timedelta_days (delta : Z) : Z := delta `div` us_per_day.

(** [(a - b).seconds] *)
Definition timedelta_seconds (delta : Z) : Z :=
  (delta `mod` us_per_day) `div` us_per_second.

Lemma timedelta_seconds_range delta :
  0 ≤ timedelta_seconds delta < 86400.
Proof.
  unfold timedelta_seconds, us_per_day, us_per_second.
  pose proof (Z.mod_pos_bound delta (86400 * 1000000) ltac:(lia)) as Hm.
  split.
  - apply Z.div_pos; lia.
  - apply Z.div_lt_upper_bound; lia.
Qed.

(** Within the first day [.seconds] is the age in whole seconds. *)
Lemma timedelta_seconds_small delta :
  0 ≤ delta < us_per_day →
  timedelta_seconds delta = delta `div` us_per_second.
Proof.
  intros H. unfold timedelta_seconds. by rewrite Z.mod_small.
Qed.

Lemma timedelta_seconds_le delta :
  0 ≤ delta → timedelta_seconds delta * us_per_second ≤ delta.
Proof.
  intros H. unfold timedelta_seconds, us_per_day, us_per_second.
  pose proof (Z.mod_pos_bound delta (86400 * 1000000) ltac:(lia)) as Hm.
  pose proof (Z.mod_le delta (86400 * 1000000) ltac:(lia) ltac:(lia)) as Hle.
  pose proof (Z.mul_div_le (delta `mod` (86400 * 1000000)) 1000000 ltac:(lia)).
  lia.
Qed.

End Clock.

(** ** The connection pool ([SSHConnectionPool]) *)
Module Pool.

(** A connection is a [paramiko.SSHClient] object; only its identity
    matters here. *)
Definition Conn := nat.

(** The pool object together with the part of the world it acts on:
    - [connections]: [self.connections], server name to idle list of
      [(client, last_used)], the most recently returned one last;
    - [closed]: the [client.close()] calls made so far, oldest first;
    - [next_conn]: the identity the next object created by [connect_func]
      will have. *)
Record state := State {
  max_connections : Z;
  connections : gmap string (list (Conn * Z));
  closed : list Conn;
  next_conn : Conn;
}.

Definition init (max_conns : Z) : state :=
  State max_conns ∅ [] 0%nat.

Definition set_connections (st : state) (m : gmap string (list (Conn * Z))) : state :=
  State (max_connections st) m (closed st) (next_conn st).

Definition close (c : Conn) (st : state) : state :=
  State (max_connections st) (connections st) (closed st ++ [c]) (next_conn st).

(** The idle handles of one server. *)
Definition idle (st : state) (server_name : string) : list Conn :=
  (default [] (connections st !! server_name)).*1.

(** [l.pop()] on a non-empty list: the last element and the rest. *)
Definition pop {A} (l : list A) : option (A * list A) :=
  match last l with
  | Some x => Some (x, take (length l - 1)%nat l)
  | None => None
  end.

(** What the with-statement gets from [get_connection]: a connection, or
    the exception of [connect_func]. *)
Inductive entered :=
| Yielded (c : Conn)
| ConnectFailed.

(** The part of [get_connection] before [yield].  [probe_ok] says whether
    [send_ignore] succeeds on the popped connection and [connect_ok] whether
    [connect_func] returns.  A popped connection whose probe raises is
    forgotten ([connection = None]); nothing closes it. *)
Definition acquire (server_name : string) (probe_ok connect_ok : bool)
    (st : state) : entered * state :=
  let '(popped, st1) :=
    match connections st !! server_name with
    | Some l =>
        match pop l with
        | Some ((c, _), rest) =>
            (if probe_ok then Some c else None,
             set_connections st (<[server_name := rest]> (connections st)))
        | None => (None, st)
        end
    | None => (None, st)
    end in
  match popped with
  | Some c => (Yielded c, st1)
  | None =>
      if connect_ok then
        (Yielded (next_conn st1),
         State (max_connections st1) (connections st1) (closed st1)
               (S (next_conn st1)))
      else (ConnectFailed, st1)
  end.

(** How the body of the with-statement ends. *)
Inductive outcome :=
| Returned            (* the body ran to its end, or left by return *)
| Raised.             (* an exception escaped the body *)

(** The part of [get_connection] after [yield], for the connection [c]
    leased for [server_name]; [now] is [time.time()].  After a normal end
    the statements under the second [with self.lock] run and then the
    [finally] block; an exception thrown into the generator at [yield]
    goes straight to the [finally] block, where [connection] is still
    set. *)
Definition release (server_name : string) (c : Conn) (now : Z) (o : outcome)
    (st : state) : state :=
  match o with
  | Returned =>
      let m1 :=
        match connections st !! server_name with
        | Some _ => connections st
        | None => <[server_name := []]> (connections st)
        end in
      let l := default [] (m1 !! server_name) in
      if bool_decide (Z.of_nat (length l) < max_connections st) then
        set_connections st (<[server_name := l ++ [(c, now)]]> m1)
      else
        close c (set_connections st m1)
  | Raised => close c st
  end.

(** [cleanup_idle_connections]: one pass of the reaper at time
    [current_time]. *)
Definition expired (current_time max_idle_time : Z) (e : Conn * Z) : bool :=
  bool_decide (current_time - e.2 > max_idle_time).

Definition keep_active (current_time max_idle_time : Z)
    (l : list (Conn * Z)) : option (list (Conn * Z)) :=
  match filter (λ e, expired current_time max_idle_time e = false) l with
  | [] => None                                  (* del self.connections[server_name] *)
  | active_connections => Some active_connections
  end.

Definition cleanup_idle_connections (current_time max_idle_time : Z)
    (st : state) : state :=
  State (max_connections st)
        (omap (keep_active current_time max_idle_time) (connections st))
        (closed st ++
           (map_to_list (connections st) ≫= λ kv,
              (filter (λ e, expired current_time max_idle_time e = true) kv.2).*1))
        (next_conn st).

(** *** The pool with its outstanding leases

    A lease is a generator suspended at [yield]: it remembers the server
    name and the connection it handed out. *)
Record system := System {
  pool : state;
  leases : list (string * Conn);
}.

Inductive op :=
| Acquire (server_name : string) (probe_ok connect_ok : bool)
| Release (i : nat) (now : Z) (o : outcome)   (* the [i]-th lease ends *)
| Reap (current_time max_idle_time : Z).

Definition step (o : op) (s : system) : system :=
  match o with
  | Acquire server_name probe_ok connect_ok =>
      match acquire server_name probe_ok connect_ok (pool s) with
      | (Yielded c, st) => System st (leases s ++ [(server_name, c)])
      | (ConnectFailed, st) => System st (leases s)
      end
  | Release i now o =>
      match leases s !! i with
      | Some (server_name, c) =>
          System (release server_name c now o (pool s)) (delete i (leases s))
      | None => s
      end
  | Reap current_time max_idle_time =>
      System (cleanup_idle_connections current_time max_idle_time (pool s))
             (leases s)
  end.

Definition run (ops : list op) (s : system) : system :=
  foldl (λ s o, step o s) s ops.

Definition start (max_conns : Z) : system := System (init max_conns) [].

(** *** What a lease exit is said to do, and what it does *)

(** Return-or-close: [c] goes back to the idle list of [server_name] when
    that list holds fewer than [max_connections] entries, and is closed
    otherwise. *)
Definition return_or_close (server_name : string) (c : Conn) (now : Z)
    (st st' : state) : Prop :=
  let l := default [] (connections st !! server_name) in
  if bool_decide (Z.of_nat (length l) < max_connections st) then
    connections st' !! server_name = Some (l ++ [(c, now)]) ∧
    closed st' = closed st
  else
    default [] (connections st' !! server_name) = l ∧
    closed st' = closed st ++ [c].

(** Close only: the pool map is untouched and [c] is closed. *)
Definition closed_only (c : Conn) (st st' : state) : Prop :=
  connections st' = connections st ∧ closed st' = closed st ++ [c].

(** *** Invariants of the pool with its leases *)

Definition bounded (st : state) : Prop :=
  ∀ server_name l,
    connections st !! server_name = Some l →
    Z.of_nat (length l) ≤ max_connections st.

Record separated (s : system) : Prop := Separated {
  sep_nodup : ∀ srv, NoDup (idle (pool s) srv);
  sep_servers : ∀ srv1 srv2 c,
    c ∈ idle (pool s) srv1 → c ∈ idle (pool s) srv2 → srv1 = srv2;
  sep_leases : NoDup (leases s).*2;
  sep_leased : ∀ c srv, c ∈ (leases s).*2 → c ∉ idle (pool s) srv;
  sep_fresh_idle : ∀ c srv, c ∈ idle (pool s) srv → (c < next_conn (pool s))%nat;
  sep_fresh_leased : ∀ c, c ∈ (leases s).*2 → (c < next_conn (pool s))%nat;
}.

(** *** Basic facts *)

Lemma pop_spec {A} (l : list A) :
  match pop l with
  | Some (x, rest) => l = rest ++ [x]
  | None => l = []
  end.
Proof.
  unfold pop. destruct (last l) as [x|] eqn:Hl.
  - apply last_Some in Hl as [l' ->].
    rewrite length_app, Nat.add_sub. simpl. by rewrite take_app_length.
  - by apply last_None in Hl.
Qed.

Lemma idle_set_insert st m srv l srv' :
  idle (set_connections st (<[srv := l]> m)) srv' =
  if decide (srv = srv') then l.*1 else (default [] (m !! srv')).*1.
Proof.
  unfold idle, set_connections. simpl. rewrite lookup_insert.
  by destruct (decide (srv = srv')).
Qed.

Lemma idle_cleanup now max_idle st srv :
  idle (cleanup_idle_connections now max_idle st) srv =
  (filter (λ e, expired now max_idle e = false)
          (default [] (connections st !! srv))).*1.
Proof.
  unfold idle, cleanup_idle_connections. simpl. rewrite lookup_omap.
  destruct (connections st !! srv) as [l|]; simpl; [|done].
  unfold keep_active. by destruct (filter _ l).
Qed.

Lemma idle_cleanup_sub now max_idle st srv c :
  c ∈ idle (cleanup_idle_connections now max_idle st) srv → c ∈ idle st srv.
Proof.
  rewrite idle_cleanup. unfold idle.
  intros [[c' t] [-> Hin]]%list_elem_of_fmap. simpl.
  apply list_elem_of_filter in Hin as [_ Hin].
  apply list_elem_of_fmap. by exists (c', t).
Qed.

(** The effect of [acquire] on the idle lists: the list of [server_name]
    loses at most its last entry, every other list is untouched, and the
    connection handed out is either that last entry or a new object. *)
Lemma acquire_idle srv probe_ok connect_ok st :
  let r := acquire srv probe_ok connect_ok st in
  max_connections r.2 = max_connections st ∧
  closed r.2 = closed st ∧
  (∀ srv', srv' ≠ srv → idle r.2 srv' = idle st srv') ∧
  ∃ tail, idle st srv = idle r.2 srv ++ tail ∧
    match r.1 with
    | Yielded c =>
        (tail = [c] ∧ probe_ok = true ∧ next_conn r.2 = next_conn st) ∨
        (c = next_conn st ∧ next_conn r.2 = S (next_conn st))
    | ConnectFailed => next_conn r.2 = next_conn st
    end.
Proof.
  unfold acquire.
  destruct (connections st !! srv) as [l|] eqn:Hl.
  - pose proof (pop_spec l) as Hpop.
    destruct (pop l) as [[[c t] rest]|]; subst l.
    + assert (Hother : ∀ srv', srv' ≠ srv →
        idle (set_connections st (<[srv:=rest]> (connections st))) srv' = idle st srv').
      { intros srv' Hne. rewrite idle_set_insert. by destruct (decide (srv = srv')). }
      assert (Hsame : idle st srv =
        idle (set_connections st (<[srv:=rest]> (connections st))) srv ++ [c]).
      { rewrite idle_set_insert. destruct (decide (srv = srv)); [|done].
        unfold idle. rewrite Hl. simpl. by rewrite fmap_app. }
      destruct probe_ok; simpl.
      * repeat split; try done. exists [c]. split; [done|]. by left.
      * destruct connect_ok; simpl; repeat split; try done;
          exists [c]; (split; [done|]); auto.
    + simpl. destruct connect_ok; simpl; repeat split; try done;
        exists []; rewrite app_nil_r; (split; [done|]); auto.
  - simpl. destruct connect_ok; simpl; repeat split; try done;
      exists []; rewrite app_nil_r; (split; [done|]); auto.
Qed.

(** The effect of [release] on the idle lists and on the close log. *)
Lemma release_idle srv c now o st :
  let st' := release srv c now o st in
  max_connections st' = max_connections st ∧
  next_conn st' = next_conn st ∧
  (((∀ srv', idle st' srv' =
        if decide (srv = srv') then idle st srv ++ [c] else idle st srv') ∧
    closed st' = closed st) ∨
   ((∀ srv', idle st' srv' = idle st srv') ∧ closed st' = closed st ++ [c])).
Proof.
  unfold release. destruct o; [|by repeat split; right].
  set (m1 := match connections st !! srv with
             | Some _ => connections st
             | None => <[srv:=[]]> (connections st)
             end).
  assert (Hm1 : ∀ srv', (default [] (m1 !! srv')).*1 = idle st srv').
  { intros srv'. unfold m1, idle.
    destruct (connections st !! srv) eqn:Hs; [done|].
    rewrite lookup_insert. destruct (decide (srv = srv')); [|done].
    subst. by rewrite Hs. }
  case_bool_decide; simpl; repeat split.
  - left. split; [|done]. intros srv'. rewrite idle_set_insert.
    destruct (decide (srv = srv')); [|apply Hm1].
    by rewrite fmap_app, Hm1.
  - right. split; [|done]. intros srv'. apply Hm1.
Qed.

Lemma NoDup_delete_lookup {A} (l : list A) i x :
  NoDup l → l !! i = Some x → x ∉ delete i l.
Proof.
  intros Hnd Hi. rewrite delete_take_drop.
  rewrite <-(take_drop_middle l i x Hi) in Hnd.
  apply NoDup_app in Hnd as (_ & Hdisj & Hnd).
  apply NoDup_cons in Hnd as [Hnot _].
  intros [Hin|Hin]%elem_of_app; [|done].
  apply (Hdisj x Hin). left.
Qed.

Lemma separated_start max_conns : separated (start max_conns).
Proof.
  split; simpl; unfold idle; simpl; try setoid_rewrite lookup_empty; simpl.
  - intros _. constructor.
  - intros ? ? ? H. by apply elem_of_nil in H.
  - constructor.
  - intros ? ? H. by apply elem_of_nil in H.
  - intros ? ? H. by apply elem_of_nil in H.
  - intros ? H. by apply elem_of_nil in H.
Qed.

Lemma separated_step o s : separated s → separated (step o s).
Proof.
  intros [Hnd Hsrv Hl Hsep Hfi Hfl]. destruct o as [srv p k|i now o|now mi]; simpl.
  - (* Acquire *)
    pose proof (acquire_idle srv p k (pool s)) as (_ & _ & Hoth & tail & Htail & Hr).
    simpl in Hr. destruct (acquire srv p k (pool s)) as [r st']. simpl in *.
    assert (Hsub : ∀ c srv', c ∈ idle st' srv' → c ∈ idle (pool s) srv').
    { intros c srv' Hin. destruct (decide (srv' = srv)) as [->|Hne].
      - rewrite Htail. apply elem_of_app. by left.
      - by rewrite <-Hoth. }
    assert (Hnd' : ∀ srv', NoDup (idle st' srv')).
    { intros srv'. destruct (decide (srv' = srv)) as [->|Hne].
      - specialize (Hnd srv). rewrite Htail in Hnd. by apply NoDup_app in Hnd as [? _].
      - rewrite Hoth by done. apply Hnd. }
    destruct r as [c|]; simpl.
    + destruct Hr as [(-> & _ & Hnext)|[-> Hnext]].
      * (* the popped connection is reused *)
        assert (Hc : c ∈ idle (pool s) srv).
        { rewrite Htail. apply elem_of_app. right. by left. }
        split; simpl; rewrite ?fmap_app; simpl.
        -- done.
        -- eauto.
        -- apply NoDup_app. split; [done|]. split; [|apply NoDup_singleton].
           intros x Hx ->%list_elem_of_singleton. by eapply Hsep.
        -- intros x srv' [Hx| ->%list_elem_of_singleton]%elem_of_app Hin.
           ++ eapply Hsep; eauto.
           ++ destruct (decide (srv' = srv)) as [->|Hne].
              ** specialize (Hnd srv). rewrite Htail in Hnd.
                 apply NoDup_app in Hnd as (_ & Hd & _). apply (Hd c Hin). left.
              ** apply Hne. eapply Hsrv; eauto.
        -- intros x srv' Hin. rewrite Hnext. eauto.
        -- intros x [Hx| ->%list_elem_of_singleton]%elem_of_app; rewrite Hnext; eauto.
      * (* a new connection *)
        split; simpl; rewrite ?fmap_app; simpl.
        -- done.
        -- eauto.
        -- apply NoDup_app. split; [done|]. split; [|apply NoDup_singleton].
           intros x Hx ->%list_elem_of_singleton. apply Hfl in Hx. lia.
        -- intros x srv' [Hx| ->%list_elem_of_singleton]%elem_of_app Hin.
           ++ eapply Hsep; eauto.
           ++ apply Hsub, Hfi in Hin. lia.
        -- intros x srv' Hin%Hsub%Hfi. lia.
        -- intros x [Hx%Hfl| ->%list_elem_of_singleton]%elem_of_app; lia.
    + split; simpl; eauto.
      * intros x srv' Hx Hin. eapply Hsep; eauto.
      * intros x srv' Hin. rewrite Hr. eauto.
      * intros x Hx. rewrite Hr. eauto.
  - (* Release *)
    destruct (leases s !! i) as [[srv c]|] eqn:Hi; [|by split].
    assert (Hci : (leases s).*2 !! i = Some c) by (by rewrite list_lookup_fmap, Hi).
    assert (Hc : c ∈ (leases s).*2) by (by eapply list_elem_of_lookup_2).
    pose proof (NoDup_delete_lookup _ _ _ Hl Hci) as Hgone.
    pose proof (release_idle srv c now o (pool s)) as (_ & Hnext & Hcase).
    simpl in *. set (st' := release srv c now o (pool s)) in *.
    assert (Hold : ∀ x, x ∈ (delete i (leases s)).*2 → x ∈ (leases s).*2).
    { intros x. rewrite list_fmap_delete. apply list_elem_of_delete_inv. }
    assert (Hl' : NoDup (delete i (leases s)).*2).
    { rewrite list_fmap_delete. eapply sublist_NoDup; [done|apply sublist_delete]. }
    rewrite <-list_fmap_delete in Hgone.
    destruct Hcase as [[Hidle _]|[Hidle _]].
    + (* returned to the idle list *)
      assert (Hin : ∀ x srv', x ∈ idle st' srv' →
                 x ∈ idle (pool s) srv' ∨ (x = c ∧ srv' = srv)).
      { intros x srv'. rewrite Hidle. destruct (decide (srv = srv')) as [<-|]; [|auto].
        intros [?| ->%list_elem_of_singleton]%elem_of_app; auto. }
      split; simpl; fold st'.
      * intros srv'. rewrite Hidle. destruct (decide (srv = srv')); [|done].
        apply NoDup_app. split; [done|]. split; [|apply NoDup_singleton].
        intros x Hx ->%list_elem_of_singleton. by eapply Hsep.
      * intros s1 s2 x H1%Hin H2%Hin.
        destruct H1 as [H1|[-> ->]], H2 as [H2|[? ->]]; subst; eauto;
          exfalso; by eapply Hsep.
      * done.
      * intros x srv' Hx [Hi'|[-> ->]]%Hin; [|done].
        apply (Hsep x srv'); [by apply Hold|done].
      * intros x srv' [Hi'|[-> ->]]%Hin; rewrite Hnext; eauto.
      * intros x Hx%Hold. rewrite Hnext. eauto.
    + (* closed *)
      split; simpl; fold st'; try setoid_rewrite Hidle; try rewrite Hnext; eauto.
  - (* Reap *)
    set (st' := cleanup_idle_connections now mi (pool s)).
    assert (Hsub : ∀ c srv', c ∈ idle st' srv' → c ∈ idle (pool s) srv')
      by (intros c srv'; apply idle_cleanup_sub).
    split; simpl; fold st'; eauto.
    + intros srv. unfold st'. rewrite idle_cleanup.
      eapply sublist_NoDup; [apply (Hnd srv)|].
      unfold idle. apply fmap_sublist, sublist_filter.
    + intros x srv' Hx Hin%Hsub. by eapply Hsep.
Qed.

Lemma separated_run ops s : separated s → separated (run ops s).
Proof.
  revert s. induction ops as [|o ops IH]; intros s Hs; [done|].
  simpl. apply IH. by apply separated_step.
Qed.

Lemma bounded_init max_conns : bounded (init max_conns).
Proof. intros srv l. simpl. by rewrite lookup_empty. Qed.

Lemma bounded_step o s :
  0 ≤ max_connections (pool s) →
  bounded (pool s) →
  bounded (pool (step o s)) ∧
  max_connections (pool (step o s)) = max_connections (pool s).
Proof.
  intros Hmax Hb. destruct o as [srv p k|i now o|now mi]; simpl.
  - (* Acquire *)
    assert (Hgoal : bounded (acquire srv p k (pool s)).2 ∧
              max_connections (acquire srv p k (pool s)).2 = max_connections (pool s)).
    { unfold acquire.
      destruct (connections (pool s) !! srv) as [l|] eqn:Hl.
      - pose proof (pop_spec l) as Hpop.
        destruct (pop l) as [[[c t] rest]|]; subst l.
        + assert (Hb' : bounded (set_connections (pool s)
                                   (<[srv:=rest]> (connections (pool s))))).
          { intros srv' l'. simpl. rewrite lookup_insert.
            destruct (decide (srv = srv')) as [<-|]; [|apply Hb].
            intros [= <-]. apply Hb in Hl. rewrite length_app in Hl. simpl in Hl. lia. }
          destruct p; simpl; [done|]. by destruct k.
        + simpl. by destruct k.
      - simpl. by destruct k. }
    destruct (acquire srv p k (pool s)) as [[c|] st']; apply Hgoal.
  - (* Release *)
    destruct (leases s !! i) as [[srv c]|]; [|done]. simpl.
    unfold release. destruct o; [|done].
    set (m1 := match connections (pool s) !! srv with
               | Some _ => connections (pool s)
               | None => <[srv:=[]]> (connections (pool s))
               end).
    assert (Hm1 : ∀ srv' l, m1 !! srv' = Some l →
               Z.of_nat (length l) ≤ max_connections (pool s)).
    { intros srv' l. unfold m1.
      destruct (connections (pool s) !! srv) eqn:Hs; [apply Hb|].
      rewrite lookup_insert. destruct (decide (srv = srv')); [|apply Hb].
      intros [= <-]. simpl. lia. }
    case_bool_decide as Hroom; simpl; (split; [|done]).
    + intros srv' l. simpl. rewrite lookup_insert.
      destruct (decide (srv = srv')); [|apply Hm1].
      intros [= <-]. rewrite length_app. simpl. lia.
    + intros srv' l. simpl. apply Hm1.
  - (* Reap *)
    split; [|done]. intros srv l. simpl. rewrite lookup_omap.
    destruct (connections (pool s) !! srv) as [l0|] eqn:Hl0; simpl; [|done].
    unfold keep_active.
    pose proof (length_filter (λ e, expired now mi e = false) l0) as Hlen.
    apply Hb in Hl0.
    destruct (filter _ l0) eqn:Hf; [done|]. intros [= <-]. lia.
Qed.

Lemma bounded_run ops s :
  0 ≤ max_connections (pool s) →
  bounded (pool s) →
  bounded (pool (run ops s)).
Proof.
  revert s. induction ops as [|o ops IH]; intros s Hmax Hb; [done|].
  simpl. destruct (bounded_step o s Hmax Hb) as [Hb' Hm'].
  apply IH; [by rewrite Hm'|done].
Qed.

Lemma max_connections_run ops s :
  max_connections (pool (run ops s)) = max_connections (pool s).
Proof.
  revert s. induction ops as [|o ops IH]; intros s; [done|].
  simpl. rewrite IH. destruct o as [srv p k|i now o|now mi]; simpl.
  - pose proof (acquire_idle srv p k (pool s)) as [Hm _]. simpl in Hm.
    by destruct (acquire srv p k (pool s)) as [[c|] st'].
  - destruct (leases s !! i) as [[srv c]|]; [|done].
    by pose proof (release_idle srv c now o (pool s)) as [Hm _].
  - done.
Qed.

(** *** Leaving the with-statement *)

(** C1, as stated, fails on the exception path: with an empty pool and
    room for ten idle connections, the connection of a lease whose body
    raises is closed and not pushed back. *)
Lemma raised_lease_is_not_returned :
  let st := init 10 in
  let st' := release "hostA" 0%nat 5 Raised st in
  Z.of_nat (length (default [] (connections st !! "hostA"))) < max_connections st ∧
  connections st' !! "hostA" = None ∧
  closed st' = [0%nat] ∧
  ¬ return_or_close "hostA" 0%nat 5 st st'.
Proof.
  repeat split.
  unfold return_or_close. simpl. rewrite lookup_empty. simpl.
  intros [H _]. discriminate H.
Qed.

(** C1 (amended): when the body of the with-statement ends normally the
    connection is pushed back onto the idle list of its server if that list
    holds fewer than [max_connections] entries and is closed otherwise;
    when the body raises the connection is closed and the pool map is left
    as it was.  On both paths exactly one of the two happens, once: either
    the idle list of the server gains the connection as its last entry and
    nothing is closed, or the idle list keeps its entries and the close log
    gains the connection.  The idle lists of other servers are untouched. *)
Theorem release_returns_or_closes_once server_name c now o st :
  let st' := release server_name c now o st in
  match o with
  | Returned => return_or_close server_name c now st st'
  | Raised => closed_only c st st'
  end ∧
  ((idle st' server_name = idle st server_name ++ [c] ∧ closed st' = closed st) ∨
   (idle st' server_name = idle st server_name ∧ closed st' = closed st ++ [c])) ∧
  (∀ other, other ≠ server_name → idle st' other = idle st other).
Proof.
  intros st'. split; [|split].
  - destruct o; [|done].
    unfold return_or_close, st', release.
    destruct (connections st !! server_name) as [l|] eqn:Hl; simpl.
    + rewrite Hl. simpl. case_bool_decide; simpl.
      * by rewrite lookup_insert_eq.
      * by rewrite Hl.
    + rewrite lookup_insert_eq. simpl. case_bool_decide; simpl.
      * by rewrite lookup_insert_eq.
      * by rewrite lookup_insert_eq.
  - destruct (release_idle server_name c now o st) as (_ & _ & [[Hi Hc]|[Hi Hc]]).
    + left. split; [|done]. fold st' in Hi. rewrite Hi. by rewrite decide_True.
    + right. split; [|done]. apply Hi.
  - intros other Hne.
    destruct (release_idle server_name c now o st) as (_ & _ & [[Hi _]|[Hi _]]).
    + fold st' in Hi. rewrite Hi. by rewrite decide_False.
    + apply Hi.
Qed.

(** *** The idle bound and the leased connections *)

(** C5: started empty with a capacity [max_conns >= 0], after any sequence
    of acquire, release (normal or by exception) and reaper steps no idle
    list of the pool map holds more than [max_conns] entries, and the
    connection of every outstanding lease occurs in no idle list. *)
Theorem idle_bounded_and_leased_absent max_conns ops :
  0 ≤ max_conns →
  let s := run ops (start max_conns) in
  (∀ server_name l,
     connections (pool s) !! server_name = Some l →
     Z.of_nat (length l) ≤ max_conns) ∧
  (∀ server_name c,
     (server_name, c) ∈ leases s →
     ∀ other l, connections (pool s) !! other = Some l → c ∉ l.*1).
Proof.
  intros Hmax s. split.
  - intros srv l Hl.
    pose proof (bounded_run ops (start max_conns) Hmax (bounded_init max_conns)) as Hb.
    apply Hb in Hl. by rewrite max_connections_run in Hl.
  - intros srv c Hin other l Hl.
    pose proof (separated_run ops _ (separated_start max_conns)) as Hsep.
    fold s in Hsep. pose proof (sep_leased s Hsep c other) as Hno.
    unfold idle in Hno. rewrite Hl in Hno. apply Hno.
    apply list_elem_of_fmap. by exists (srv, c).
Qed.

(** C5 at work: lease, return, lease again and let the reaper pass, with
    room for two idle connections. *)
Lemma idle_bounded_and_leased_absent_witness :
  0 ≤ 2 ∧
  let s := run [Acquire "hostA" true true; Release 0 5 Returned;
                Acquire "hostA" true true; Reap 700 600] (start 2) in
  (∀ server_name l,
     connections (pool s) !! server_name = Some l →
     Z.of_nat (length l) ≤ 2) ∧
  (∀ server_name c,
     (server_name, c) ∈ leases s →
     ∀ other l, connections (pool s) !! other = Some l → c ∉ l.*1).
Proof.
  split; [lia|]. apply (idle_bounded_and_leased_absent 2); lia.
Defined.

(** *** A dead idle connection *)

(** The pool of the failing input of C6: one idle connection to [hostA],
    object [0], returned at time [100]. *)
Definition one_idle : state :=
  State 10 {["hostA" := [(0%nat, 100)]]} [] 1%nat.

(** C6, on the code: acquiring from [one_idle] when the probe of the
    popped connection raises hands out a new object and removes the dead
    one from the pool, and no [close()] has been called on it. *)
Theorem dead_connection_is_dropped_unclosed :
  let r := acquire "hostA" false true one_idle in
  r.1 = Yielded 1%nat ∧
  idle r.2 "hostA" = [] ∧
  closed r.2 = [] ∧
  0%nat ∉ closed r.2.
Proof.
  unfold acquire, one_idle. simpl. rewrite lookup_singleton_eq. simpl.
  split; [done|]. split.
  - unfold idle. simpl. by rewrite lookup_insert_eq.
  - split; [done|]. apply not_elem_of_nil.
Qed.

(** On a pool reached from the empty one, the connection handed out after
    a failed probe is a new object: it is not the popped one, nor any other
    idle or leased connection; the close log is left as it was. *)
Theorem failed_probe_hands_out_new_connection max_conns ops server_name connect_ok :
  let s := run ops (start max_conns) in
  let r := acquire server_name false connect_ok (pool s) in
  closed r.2 = closed (pool s) ∧
  match r.1 with
  | Yielded c =>
      connect_ok = true ∧ c = next_conn (pool s) ∧
      (∀ srv, c ∉ idle (pool s) srv) ∧ c ∉ (leases s).*2
  | ConnectFailed => connect_ok = false
  end.
Proof.
  intros s r.
  pose proof (separated_run ops _ (separated_start max_conns)) as Hsep.
  fold s in Hsep.
  pose proof (acquire_idle server_name false connect_ok (pool s))
    as (_ & Hc & _ & tail & _ & Hr).
  fold r in Hc, Hr. split; [done|].
  assert (Hk : match r.1 with Yielded _ => connect_ok = true
               | ConnectFailed => connect_ok = false end).
  { unfold r, acquire.
    destruct (connections (pool s) !! server_name) as [l|];
      [destruct (pop l) as [[[c t] rest]|]|]; simpl; by destruct connect_ok. }
  destruct (r.1) as [c|]; [|done].
  destruct Hr as [(_ & [=] & _)|[-> _]].
  repeat split; [done| |].
  - intros srv Hin. apply (sep_fresh_idle s Hsep) in Hin. lia.
  - intros Hin. apply (sep_fresh_leased s Hsep) in Hin. lia.
Qed.

End Pool.

(** ** Python values

    What a variable typed [Any] can hold, as far as the services look at
    it.  A float is kept as the text it was read from. *)
Module Py.

#[warnings="-register-all"]
Inductive value :=
| VNone
| VBool (b : bool)
| VInt (n : Z)
| VFloat (repr : string)
| VStr (s : string)
| VList (l : list value)
| VDict (d : list (string * value)).

(** A dictionary in insertion order. *)
Definition dict := list (string * value).

(** [d[k] = v] *)
Fixpoint dict_set (k : string) (v : value) (d : dict) : dict :=
  match d with
  | [] => [(k, v)]
  | (k', v') :: d' =>
      if decide (k = k') then (k, v) :: d' else (k', v') :: dict_set k v d'
  end.

(** Truth value of a dictionary: empty is false. *)
Definition dict_truthy (d : dict) : bool :=
  match d with
  | [] => false
  | _ :: _ => true
  end.

End Py.

(** ** The event hub ([WebSocketService]) *)
Module Hub.

(** A message on a client's queue: an event built by [broadcast_event],
    or the reply to a ping. *)
Inductive message :=
| Event (type : string) (data : Py.value) (timestamp : Z)
| Pong.

(** [WebSocketClient].  [ws] is the identity [id(ws)] of the transport
    object; [message_queue] holds the queued items oldest first, [None]
    being the shutdown signal. *)
Record WebSocketClient := Client {
  id : string;
  ws : N;
  subscriptions : gset string;
  last_ping : Z;
  message_queue : list (option message);
}.

Record hub := Hub {
  clients : gmap string WebSocketClient;
  event_handlers : gmap string (gset string);
  ping_interval : Z;
}.

Definition init (ping_interval : Z) : hub := Hub ∅ ∅ ping_interval.

Definition set_clients (h : hub) (m : gmap string WebSocketClient) : hub :=
  Hub m (event_handlers h) (ping_interval h).

(** [queue.put(item)] *)
Definition put (item : option message) (c : WebSocketClient) : WebSocketClient :=
  Client (id c) (ws c) (subscriptions c) (last_ping c) (message_queue c ++ [item]).

(** [register_client]: the id is [str(id(ws))]; an entry already stored
    under that id is replaced. *)
Definition register_client (ws : N) (now : Z) (h : hub) : string * hub :=
  let client_id := pretty ws in
  let client := Client client_id ws ∅ now [] in
  (client_id, set_clients h (<[client_id := client]> (clients h))).

(** [_remove_client]: the loop over [client.subscriptions] discards the id
    from the subscriber set of each of them, then the registry entry is
    deleted. *)
Definition discard_from (client_id : string) (event_type : string)
    (handlers : gmap string (gset string)) : gmap string (gset string) :=
  match handlers !! event_type with
  | Some s => <[event_type := s ∖ {[client_id]}]> handlers
  | None => handlers
  end.

Definition _remove_client (client_id : string) (h : hub) : hub :=
  match clients h !! client_id with
  | Some client =>
      Hub (delete client_id (clients h))
          (set_fold (discard_from client_id) (event_handlers h) (subscriptions client))
          (ping_interval h)
  | None => h
  end.

(** [unregister_client]: the shutdown signal is put on the queue of the
    client, then the client is removed. *)
Definition unregister_client (client_id : string) (h : hub) : hub :=
  match clients h !! client_id with
  | Some client =>
      _remove_client client_id
        (set_clients h (<[client_id := put None client]> (clients h)))
  | None => h
  end.

Definition subscribe (client_id event_type : string) (h : hub) : hub :=
  match clients h !! client_id with
  | Some c =>
      let c' := Client (id c) (ws c) ({[event_type]} ∪ subscriptions c)
                       (last_ping c) (message_queue c) in
      let handlers :=
        match event_handlers h !! event_type with
        | Some _ => event_handlers h
        | None => <[event_type := ∅]> (event_handlers h)
        end in
      Hub (<[client_id := c']> (clients h))
          (<[event_type := {[client_id]} ∪ default ∅ (handlers !! event_type)]> handlers)
          (ping_interval h)
  | None => h
  end.

Definition unsubscribe (client_id event_type : string) (h : hub) : hub :=
  match clients h !! client_id with
  | Some c =>
      let c' := Client (id c) (ws c) (subscriptions c ∖ {[event_type]})
                       (last_ping c) (message_queue c) in
      Hub (<[client_id := c']> (clients h))
          (discard_from client_id event_type (event_handlers h))
          (ping_interval h)
  | None => h
  end.

(** [send_to_client]: queue a message for one client. *)
Definition send_to_client (client_id : string) (m : message) (h : hub) : hub :=
  match clients h !! client_id with
  | Some c => set_clients h (<[client_id := put (Some m) c]> (clients h))
  | None => h
  end.

(** [broadcast_event]: the loop over the subscriber set of [event_type]. *)
Definition broadcast_event (event_type : string) (data : Py.value) (now : Z)
    (h : hub) : hub :=
  let m := Event event_type data now in
  match event_handlers h !! event_type with
  | Some s => foldl (λ h client_id, send_to_client client_id m h) h (elements s)
  | None => h
  end.

(** [_send_to_client]: one write to the transport of the client; [ok]
    says whether [json.dumps] and [ws.send] went through.  A failed write
    removes the client. *)
Definition _send_to_client (client_id : string) (ok : bool) (h : hub) : hub :=
  if ok then h else _remove_client client_id h.

(** The loop of [message_worker] over the items [q] it takes from the
    queue of its client, in the order [get()] hands them out.  The result
    lists the messages passed to [ws.send], each with the outcome of the
    write, and the hub afterwards.  [outcomes] gives the outcome of the
    successive writes (a write beyond the list succeeds).  The loop ends
    at the shutdown signal; at the end of [q] it waits in [get()]. *)
Fixpoint message_worker (outcomes : list bool) (client_id : string)
    (q : list (option message)) (h : hub) : list (message * bool) * hub :=
  match q with
  | [] => ([], h)
  | None :: _ => ([], h)
  | Some m :: q' =>
      let ok := default true (head outcomes) in
      let r := message_worker (tail outcomes) client_id q'
                              (_send_to_client client_id ok h) in
      ((m, ok) :: r.1, r.2)
  end.

(** The messages in front of the first shutdown signal. *)
Fixpoint before_shutdown (q : list (option message)) : list message :=
  match q with
  | Some m :: q' => m :: before_shutdown q'
  | _ => []
  end.

(** [_check_client_health]: the test on one client, and the sweep over a
    snapshot of the registered ids. *)
Definition timed_out (now : Z) (ping_interval : Z) (c : WebSocketClient) : bool :=
  bool_decide (Clock.timedelta_seconds (now - last_ping c) > ping_interval * 2).

Definition check_one (now : Z) (h : hub) (client_id : string) : hub :=
  match clients h !! client_id with
  | Some client =>
      if timed_out now (ping_interval h) client then _remove_client client_id h
      else h
  | None => h
  end.

Definition _check_client_health (now : Z) (h : hub) : hub :=
  foldl (check_one now) h (map_to_list (clients h)).*1.

(** *** Sequences of operations

    Each operation here runs to its end before the next one starts.  For
    the methods that take [_client_lock] that is what the lock gives; the
    removal after a failed write is run by the worker with no lock held, and
    what happens when another method runs in the middle of it is the matter
    of the module [Locks] below. *)

Inductive op :=
| Register (ws : N) (now : Z)
| Unregister (client_id : string)
| Subscribe (client_id event_type : string)
| Unsubscribe (client_id event_type : string)
| Broadcast (event_type : string) (data : Py.value) (now : Z)
| SendTo (client_id : string) (m : message)
| WriteFailed (client_id : string)      (* a worker's write raised *)
| CheckHealth (now : Z).

Definition step (o : op) (h : hub) : hub :=
  match o with
  | Register ws now => (register_client ws now h).2
  | Unregister client_id => unregister_client client_id h
  | Subscribe client_id event_type => subscribe client_id event_type h
  | Unsubscribe client_id event_type => unsubscribe client_id event_type h
  | Broadcast event_type data now => broadcast_event event_type data now h
  | SendTo client_id m => send_to_client client_id m h
  | WriteFailed client_id => _send_to_client client_id false h
  | CheckHealth now => _check_client_health now h
  end.

Definition run (ops : list op) (h : hub) : hub :=
  foldl (λ h o, step o h) h ops.

(** A registration is fresh when no client is stored under the id of the
    transport object. *)
Definition fresh (o : op) (h : hub) : Prop :=
  match o with
  | Register ws _ => clients h !! pretty ws = None
  | _ => True
  end.

Fixpoint all_fresh (ops : list op) (h : hub) : Prop :=
  match ops with
  | [] => True
  | o :: ops' => fresh o h ∧ all_fresh ops' (step o h)
  end.

(** The registry and the reverse index agree. *)
Definition consistent (h : hub) : Prop :=
  ∀ client_id event_type,
    (∃ s, event_handlers h !! event_type = Some s ∧ client_id ∈ s) ↔
    (∃ c, clients h !! client_id = Some c ∧ event_type ∈ subscriptions c).


Definition queue_of (h : hub) (client_id : string) : option (list (option message)) :=
  message_queue <$> clients h !! client_id.

(** *** Membership in the two structures *)

Definition listed (h : hub) (client_id event_type : string) : Prop :=
  ∃ s, event_handlers h !! event_type = Some s ∧ client_id ∈ s.

Definition holds (h : hub) (client_id event_type : string) : Prop :=
  ∃ c, clients h !! client_id = Some c ∧ event_type ∈ subscriptions c.

#[local] Instance listed_dec h client_id event_type :
  Decision (listed h client_id event_type).
Proof.
  unfold listed. destruct (event_handlers h !! event_type) as [s|].
  - destruct (decide (client_id ∈ s)) as [Hin|Hout].
    + left. by exists s.
    + right. by intros (? & [= <-] & ?).
  - right. by intros (? & [=] & _).
Defined.

Lemma consistent_alt h :
  consistent h ↔ ∀ client_id event_type,
    listed h client_id event_type ↔ holds h client_id event_type.
Proof. done. Qed.

Lemma discard_from_lookup cid E hs E' :
  discard_from cid E hs !! E' =
  if decide (E = E') then (λ s, s ∖ {[cid]}) <$> hs !! E' else hs !! E'.
Proof.
  unfold discard_from. destruct (decide (E = E')) as [<-|Hne].
  - destruct (hs !! E) eqn:HE; [|by rewrite HE].
    by rewrite lookup_insert_eq.
  - destruct (hs !! E); [|done]. by rewrite lookup_insert_ne.
Qed.

Lemma discard_fold_lookup cid (X : gset string) hs E' :
  set_fold (discard_from cid) hs X !! E' =
  if decide (E' ∈ X) then (λ s, s ∖ {[cid]}) <$> hs !! E' else hs !! E'.
Proof.
  revert E'.
  refine (set_fold_ind_L (λ r (Y : gset string), ∀ E',
    r !! E' = if decide (E' ∈ Y) then (λ s, s ∖ {[cid]}) <$> hs !! E' else hs !! E')
    (discard_from cid) hs _ _ X).
  - intros E'. rewrite decide_False; [done|set_solver].
  - intros E Y r HE IH E'. rewrite discard_from_lookup, IH.
    destruct (decide (E = E')) as [<-|Hne].
    + rewrite decide_False by done. rewrite decide_True by set_solver. done.
    + destruct (decide (E' ∈ Y)).
      * rewrite decide_True by set_solver. done.
      * rewrite decide_False by set_solver. done.
Qed.

Lemma remove_client_clients cid h :
  clients (_remove_client cid h) = delete cid (clients h).
Proof.
  unfold _remove_client. destruct (clients h !! cid) eqn:Hc; [done|].
  by rewrite delete_id.
Qed.

Lemma remove_client_ping_interval cid h :
  ping_interval (_remove_client cid h) = ping_interval h.
Proof. unfold _remove_client. by destruct (clients h !! cid). Qed.

Lemma remove_client_listed cid h cid' E' :
  listed (_remove_client cid h) cid' E' ↔
  listed h cid' E' ∧ ¬ (cid' = cid ∧ holds h cid E').
Proof.
  unfold listed, holds, _remove_client.
  destruct (clients h !! cid) as [c|] eqn:Hc; simpl.
  - rewrite discard_fold_lookup. destruct (decide (E' ∈ subscriptions c)) as [Hin|Hout].
    + destruct (event_handlers h !! E') as [s|]; simpl.
      * split.
        -- intros (s' & [= <-] & Hs'). split; [exists s; set_solver|].
           intros [-> _]. set_solver.
        -- intros [(s' & [= <-] & Hs') Hno]. exists (s ∖ {[cid]}). split; [done|].
           apply elem_of_difference. split; [done|].
           intros ->%elem_of_singleton. apply Hno. split; [done|]. by exists c.
      * split; [by intros (? & [=] & _)|by intros [(? & [=] & _) _]].
    + split; [|by intros [? _]]. intros H. split; [done|].
      intros [_ (c' & [= <-] & Hin)]. done.
  - split; [|by intros [? _]]. intros H. split; [done|].
    by intros [_ (c' & [=] & _)].
Qed.

Lemma remove_client_holds cid h cid' E' :
  holds (_remove_client cid h) cid' E' ↔ holds h cid' E' ∧ cid' ≠ cid.
Proof.
  unfold holds. rewrite remove_client_clients. split.
  - intros (c & Hc & HE). apply lookup_delete_Some in Hc as [Hne Hc]. eauto.
  - intros [(c & Hc & HE) Hne]. exists c. split; [|done].
    by rewrite lookup_delete_ne.
Qed.

Lemma consistent_remove_client cid h :
  consistent h → consistent (_remove_client cid h).
Proof.
  rewrite !consistent_alt. intros Hc cid' E'.
  rewrite remove_client_listed, remove_client_holds, Hc.
  split.
  - intros [H Hno]. split; [done|]. intros ->. by apply Hno.
  - intros [H Hne]. split; [done|]. by intros [? _].
Qed.

Lemma consistent_set_queue h cid c c' :
  clients h !! cid = Some c →
  subscriptions c' = subscriptions c →
  consistent h →
  consistent (set_clients h (<[cid := c']> (clients h))).
Proof.
  intros Hcid Hsub Hc cid' E'. simpl. rewrite (Hc cid' E').
  destruct (decide (cid = cid')) as [<-|Hne].
  - rewrite lookup_insert_eq, Hcid. split.
    + intros (? & [= <-] & ?). exists c'. by rewrite Hsub.
    + intros (? & [= <-] & ?). exists c. by rewrite <-Hsub.
  - by rewrite lookup_insert_ne.
Qed.

Lemma consistent_init pi : consistent (init pi).
Proof.
  intros cid E. simpl. rewrite !lookup_empty.
  split; by intros (? & [=] & _).
Qed.

Lemma consistent_register ws now h :
  clients h !! pretty ws = None →
  consistent h → consistent (register_client ws now h).2.
Proof.
  intros Hfresh Hc cid E. simpl. rewrite (Hc cid E).
  destruct (decide (pretty ws = cid)) as [<-|Hne].
  - rewrite lookup_insert_eq, Hfresh. split.
    + by intros (? & [=] & _).
    + intros (? & [= <-] & Hin). simpl in Hin. set_solver.
  - by rewrite lookup_insert_ne.
Qed.

Lemma consistent_subscribe cid E h :
  consistent h → consistent (subscribe cid E h).
Proof.
  intros Hc cid' E'. unfold subscribe.
  destruct (clients h !! cid) as [c|] eqn:Hcid; [|apply Hc]. simpl.
  assert (Hd : default ∅ (match event_handlers h !! E with
                          | Some _ => event_handlers h
                          | None => <[E:=∅]> (event_handlers h)
                          end !! E) = default ∅ (event_handlers h !! E)).
  { destruct (event_handlers h !! E) eqn:HE; [by rewrite HE|].
    by rewrite lookup_insert_eq. }
  rewrite Hd.
  assert (Hl : ∀ E'', E'' ≠ E →
     match event_handlers h !! E with
     | Some _ => event_handlers h
     | None => <[E:=∅]> (event_handlers h)
     end !! E'' = event_handlers h !! E'').
  { intros E'' Hne. destruct (event_handlers h !! E); [done|].
    by rewrite lookup_insert_ne. }
  specialize (Hc cid' E'). unfold listed, holds in *.
  destruct (decide (E = E')) as [<-|HneE].
  - rewrite lookup_insert_eq.
    destruct (decide (cid = cid')) as [<-|Hnec].
    + rewrite lookup_insert_eq. split.
      * intros _. eexists. split; [done|]. simpl. set_solver.
      * intros _. eexists. split; [done|]. set_solver.
    + rewrite lookup_insert_ne by done. rewrite <-Hc. split.
      * intros (s & [= <-] & Hin).
        destruct (event_handlers h !! E) as [s|]; simpl in *; [|set_solver].
        exists s. split; [done|]. set_solver.
      * intros (s & Hs & Hin). eexists. split; [done|]. rewrite Hs. simpl.
        set_solver.
  - rewrite lookup_insert_ne by done. rewrite Hl by done.
    destruct (decide (cid = cid')) as [<-|Hnec].
    + rewrite lookup_insert_eq. rewrite Hc, Hcid. split.
      * intros (? & [= <-] & Hin). eexists. split; [done|]. simpl. set_solver.
      * intros (? & [= <-] & Hin). simpl in Hin. exists c. split; [done|]. set_solver.
    + by rewrite lookup_insert_ne.
Qed.

Lemma consistent_unsubscribe cid E h :
  consistent h → consistent (unsubscribe cid E h).
Proof.
  intros Hc cid' E'. unfold unsubscribe.
  destruct (clients h !! cid) as [c|] eqn:Hcid; [|apply Hc]. simpl.
  rewrite discard_from_lookup. specialize (Hc cid' E').
  destruct (decide (E = E')) as [<-|HneE].
  - destruct (decide (cid = cid')) as [<-|Hnec].
    + rewrite lookup_insert_eq. split.
      * intros (s & Hs & Hin). destruct (event_handlers h !! E); simplify_eq/=.
        set_solver.
      * intros (? & [= <-] & Hin). simpl in Hin. set_solver.
    + rewrite lookup_insert_ne by done. rewrite <-Hc. split.
      * intros (s & Hs & Hin). destruct (event_handlers h !! E) as [s0|]; simplify_eq/=.
        exists s0. split; [done|]. set_solver.
      * intros (s & Hs & Hin). rewrite Hs. simpl. eexists. split; [done|]. set_solver.
  - destruct (decide (cid = cid')) as [<-|Hnec].
    + rewrite lookup_insert_eq. rewrite Hc, Hcid. split.
      * intros (? & [= <-] & Hin). eexists. split; [done|]. simpl. set_solver.
      * intros (? & [= <-] & Hin). simpl in Hin. exists c. split; [done|]. set_solver.
    + by rewrite lookup_insert_ne.
Qed.

(** *** Queueing and broadcasting *)

Lemma send_to_client_lookup cid m h cid' :
  clients (send_to_client cid m h) !! cid' =
  if decide (cid = cid') then put (Some m) <$> clients h !! cid'
  else clients h !! cid'.
Proof.
  unfold send_to_client. destruct (decide (cid = cid')) as [<-|Hne].
  - destruct (clients h !! cid) eqn:Hc; simpl; [|by rewrite Hc].
    by rewrite lookup_insert_eq.
  - destruct (clients h !! cid); simpl; [|done]. by rewrite lookup_insert_ne.
Qed.

Lemma send_to_client_frame cid m h :
  event_handlers (send_to_client cid m h) = event_handlers h ∧
  ping_interval (send_to_client cid m h) = ping_interval h.
Proof. unfold send_to_client. by destruct (clients h !! cid). Qed.

Lemma send_all_spec m l h :
  NoDup l →
  let h' := foldl (λ h cid, send_to_client cid m h) h l in
  event_handlers h' = event_handlers h ∧
  ping_interval h' = ping_interval h ∧
  ∀ cid, clients h' !! cid =
         if decide (cid ∈ l) then put (Some m) <$> clients h !! cid
         else clients h !! cid.
Proof.
  intros Hnd. revert h. induction Hnd as [|a l Ha Hnd IH]; intros h; simpl.
  - done.
  - destruct (IH (send_to_client a m h)) as (He & Hp & Hc).
    destruct (send_to_client_frame a m h) as [He' Hp'].
    split; [congruence|]. split; [congruence|].
    intros cid. rewrite Hc, send_to_client_lookup.
    destruct (decide (a = cid)) as [<-|Hne].
    + rewrite decide_False by done. rewrite decide_True by left. done.
    + destruct (decide (cid ∈ l)).
      * rewrite decide_True by (by right). done.
      * rewrite decide_False; [done|].
        intros [->|?]%elem_of_cons; done.
Qed.

Lemma broadcast_event_spec E data now h :
  let h' := broadcast_event E data now h in
  event_handlers h' = event_handlers h ∧
  ping_interval h' = ping_interval h ∧
  ∀ cid, clients h' !! cid =
         if decide (listed h cid E)
         then put (Some (Event E data now)) <$> clients h !! cid
         else clients h !! cid.
Proof.
  unfold broadcast_event.
  destruct (event_handlers h !! E) as [s|] eqn:Hs.
  - destruct (send_all_spec (Event E data now) (elements s) h (NoDup_elements s))
      as (He & Hp & Hc).
    split; [done|]. split; [done|]. intros cid. rewrite Hc.
    destruct (decide (cid ∈ elements s)) as [Hin|Hout].
    + rewrite decide_True; [done|]. exists s. split; [done|]. by apply elem_of_elements.
    + rewrite decide_False; [done|]. intros (s' & Hs' & Hin).
      rewrite Hs in Hs'. injection Hs' as <-.
      by apply Hout, elem_of_elements.
  - split; [done|]. split; [done|]. intros cid. rewrite decide_False; [done|].
    intros (s' & Hs' & _). by rewrite Hs in Hs'.
Qed.

Lemma holds_put_frame h h' :
  (∀ cid, ∃ f, (∀ c, subscriptions (f c) = subscriptions c) ∧
               clients h' !! cid = f <$> clients h !! cid) →
  ∀ cid E, holds h' cid E ↔ holds h cid E.
Proof.
  intros Hf cid E. unfold holds. destruct (Hf cid) as (f & Hsub & ->).
  destruct (clients h !! cid) as [c|]; simpl.
  - split; intros (? & [= <-] & Hin); eexists; (split; [done|]);
      [by rewrite <-Hsub|by rewrite Hsub].
  - split; by intros (? & [=] & _).
Qed.

Lemma consistent_send_to_client cid m h :
  consistent h → consistent (send_to_client cid m h).
Proof.
  intros Hc cid' E'. destruct (send_to_client_frame cid m h) as [He _].
  rewrite He, (Hc cid' E'). symmetry.
  apply (holds_put_frame h). intros cid0. rewrite send_to_client_lookup.
  destruct (decide (cid = cid0)).
  - by exists (put (Some m)).
  - exists (λ c, c). split; [done|]. by rewrite option_fmap_id.
Qed.

Lemma consistent_broadcast_event E data now h :
  consistent h → consistent (broadcast_event E data now h).
Proof.
  intros Hc cid' E'.
  destruct (broadcast_event_spec E data now h) as (He & _ & Hcl).
  rewrite He, (Hc cid' E'). symmetry.
  apply (holds_put_frame h). intros cid0. rewrite Hcl.
  destruct (decide (listed h cid0 E)).
  - by exists (put (Some (Event E data now))).
  - exists (λ c, c). split; [done|]. by rewrite option_fmap_id.
Qed.

(** *** The liveness sweep *)

Lemma check_one_spec now h a :
  ping_interval (check_one now h a) = ping_interval h ∧
  ∀ cid, clients (check_one now h a) !! cid =
    if decide (cid = a)
    then c ← clients h !! cid;
         if timed_out now (ping_interval h) c then None else Some c
    else clients h !! cid.
Proof.
  unfold check_one. destruct (clients h !! a) as [c|] eqn:Ha.
  - destruct (timed_out now (ping_interval h) c) eqn:Ht.
    + split; [apply remove_client_ping_interval|]. intros cid.
      rewrite remove_client_clients. destruct (decide (cid = a)) as [->|Hne].
      * rewrite lookup_delete_eq, Ha. simpl. by rewrite Ht.
      * by rewrite lookup_delete_ne.
    + split; [done|]. intros cid. destruct (decide (cid = a)) as [->|]; [|done].
      rewrite Ha. simpl. by rewrite Ht.
  - split; [done|]. intros cid. destruct (decide (cid = a)) as [->|]; [|done].
    by rewrite Ha.
Qed.

Lemma check_fold_spec now l h :
  NoDup l →
  ping_interval (foldl (check_one now) h l) = ping_interval h ∧
  ∀ cid, clients (foldl (check_one now) h l) !! cid =
    if decide (cid ∈ l)
    then c ← clients h !! cid;
         if timed_out now (ping_interval h) c then None else Some c
    else clients h !! cid.
Proof.
  intros Hnd. revert h. induction Hnd as [|a l Ha Hnd IH]; intros h; simpl.
  - done.
  - destruct (IH (check_one now h a)) as [Hp Hc].
    destruct (check_one_spec now h a) as [Hp' Hc'].
    split; [congruence|]. intros cid. rewrite Hc, Hp', Hc'.
    destruct (decide (cid = a)) as [->|Hne].
    + rewrite decide_False by done. rewrite decide_True by left. done.
    + destruct (decide (cid ∈ l)).
      * rewrite decide_True by (by right). done.
      * rewrite decide_False; [done|]. intros [->|?]%elem_of_cons; done.
Qed.

(** After the sweep the registry holds the clients that passed the test
    of the code, unchanged. *)
Lemma check_client_health_clients now h cid :
  clients (_check_client_health now h) !! cid =
  c ← clients h !! cid;
  if timed_out now (ping_interval h) c then None else Some c.
Proof.
  unfold _check_client_health.
  destruct (check_fold_spec now (map_to_list (clients h)).*1 h
              (NoDup_fst_map_to_list _)) as [_ Hc].
  rewrite Hc. destruct (decide (cid ∈ (map_to_list (clients h)).*1)) as [|Hout]; [done|].
  destruct (clients h !! cid) as [c|] eqn:Hcid; [|done].
  exfalso. apply Hout. apply list_elem_of_fmap. exists (cid, c).
  split; [done|]. by apply elem_of_map_to_list.
Qed.

Lemma consistent_check_one now h a :
  consistent h → consistent (check_one now h a).
Proof.
  intros Hc. unfold check_one. destruct (clients h !! a) as [c|]; [|done].
  destruct (timed_out now (ping_interval h) c); [|done].
  by apply consistent_remove_client.
Qed.

Lemma consistent_check_client_health now h :
  consistent h → consistent (_check_client_health now h).
Proof.
  unfold _check_client_health. generalize ((map_to_list (clients h)).*1).
  intros l. revert h. induction l as [|a l IH]; intros h Hc; [done|].
  simpl. by apply IH, consistent_check_one.
Qed.

(** *** Every operation keeps the two structures in agreement *)

Lemma consistent_step o h :
  fresh o h → consistent h → consistent (step o h).
Proof.
  destruct o as [ws now|cid|cid E|cid E|E data now|cid m|cid|now]; simpl;
    intros Hf Hc.
  - by apply consistent_register.
  - unfold unregister_client. destruct (clients h !! cid) as [c|] eqn:Hcid; [|done].
    apply consistent_remove_client. by eapply consistent_set_queue.
  - by apply consistent_subscribe.
  - by apply consistent_unsubscribe.
  - by apply consistent_broadcast_event.
  - by apply consistent_send_to_client.
  - by apply consistent_remove_client.
  - by apply consistent_check_client_health.
Qed.

Lemma consistent_run ops h :
  all_fresh ops h → consistent h → consistent (run ops h).
Proof.
  revert h. induction ops as [|o ops IH]; intros h Hf Hc; [done|].
  destruct Hf as [Hf Hfs]. simpl. apply IH; [done|]. by apply consistent_step.
Qed.

Lemma subscribe_absent cid E h :
  clients h !! cid = None → subscribe cid E h = h.
Proof. intros H. unfold subscribe. by rewrite H. Qed.

Lemma unsubscribe_absent cid E h :
  clients h !! cid = None → unsubscribe cid E h = h.
Proof. intros H. unfold unsubscribe. by rewrite H. Qed.

(** Registering a transport object again while its client is stored
    replaces the client by one with no subscriptions, and the reverse index
    still lists the id. *)
Lemma reregistration_breaks_agreement :
  let h := run [Register 7 0; Subscribe "7" "cpu"; Register 7 1] (init 30) in
  (∃ s, event_handlers h !! "cpu" = Some s ∧ "7" ∈ s) ∧
  (∃ c, clients h !! "7" = Some c ∧ subscriptions c = ∅) ∧
  ¬ consistent h.
Proof.
  intros h.
  assert (Hc : clients h !! "7" = Some (Client "7" 7 ∅ 1 [])) by (by vm_compute).
  assert (Hs : event_handlers h !! "cpu" = Some {["7"]}) by (by vm_compute).
  assert (Hl : ∃ s, event_handlers h !! "cpu" = Some s ∧ "7" ∈ s).
  { exists {["7"]}. split; [done|set_solver]. }
  split; [done|]. split; [by eexists|].
  intros Hcons. apply (Hcons "7" "cpu") in Hl as (c & Hc' & Hin).
  rewrite Hc in Hc'. injection Hc' as <-. simpl in Hin. set_solver.
Qed.

(** Operations that run one after the other: started empty, after every
    sequence of operations (registration, unregistration, subscribe,
    unsubscribe, broadcast, queueing, removal after a failed write, liveness
    sweep), none of which starts before the one in front of it has ended,
    and in which no transport object is registered while a client is stored
    under its id, a client id
    is in the subscriber set of an event type exactly when the client is in
    the registry and the event type is in its own subscription set; and for
    an id that is not in the registry, [subscribe] and [unsubscribe] leave
    the hub as it is. *)
Theorem index_agrees_with_registry pi ops :
  all_fresh ops (init pi) →
  let h := run ops (init pi) in
  consistent h ∧
  ∀ client_id event_type,
    clients h !! client_id = None →
    subscribe client_id event_type h = h ∧
    unsubscribe client_id event_type h = h.
Proof.
  intros Hf h. split.
  - apply consistent_run; [done|apply consistent_init].
  - intros cid E Hnone. split.
    + by apply subscribe_absent.
    + by apply unsubscribe_absent.
Qed.

Lemma index_agrees_with_registry_witness :
  let ops := [Register 1 0; Subscribe "1" "cpu"; Register 2 5;
              Subscribe "2" "cpu"; Subscribe "2" "disk"; Unsubscribe "1" "cpu";
              Broadcast "cpu" Py.VNone 6; WriteFailed "1"; Register 1 7;
              Unregister "2"; CheckHealth 9] in
  all_fresh ops (init 30) ∧ consistent (run ops (init 30)).
Proof.
  intros ops.
  assert (Hf : all_fresh ops (init 30)) by (repeat split; by vm_compute).
  split; [done|]. apply (index_agrees_with_registry 30 ops Hf).
Defined.

(** *** Subscribe and unsubscribe as set operations *)

(** C10, as stated, fails for a client that is already subscribed:
    subscribing again changes nothing, and the unsubscribe that follows
    removes the subscription that was there before the pair. *)
Lemma subscribe_unsubscribe_loses_subscription :
  let h := run [Register 7 0; Subscribe "7" "cpu"] (init 30) in
  let h' := unsubscribe "7" "cpu" (subscribe "7" "cpu" h) in
  (subscriptions <$> clients h !! "7") = Some {["cpu"]} ∧
  (subscriptions <$> clients h' !! "7") = Some ∅ ∧
  (subscriptions <$> clients h' !! "7") ≠ (subscriptions <$> clients h !! "7").
Proof.
  intros h h'.
  assert (H1 : subscriptions <$> clients h !! "7" = Some {["cpu"]}) by (by vm_compute).
  assert (H2 : subscriptions <$> clients h' !! "7" = Some ∅) by (by vm_compute).
  split; [done|]. split; [done|]. rewrite H1, H2. intros H.
  assert (Heq : (∅ : gset string) = {["cpu"]}) by (by apply (inj Some)).
  assert (Hin : "cpu" ∈ (∅ : gset string)) by (rewrite Heq; set_solver).
  set_solver.
Qed.

Lemma subscribe_twice cid E h :
  subscribe cid E (subscribe cid E h) = subscribe cid E h.
Proof.
  unfold subscribe at 2 3.
  destruct (clients h !! cid) as [c|] eqn:Hc; [|by rewrite subscribe_absent].
  unfold subscribe. simpl. rewrite !lookup_insert_eq. simpl.
  f_equal.
  - rewrite insert_insert_eq. f_equal. f_equal. set_solver.
  - rewrite insert_insert_eq. f_equal. set_solver.
Qed.

Lemma unsubscribe_twice cid E h :
  unsubscribe cid E (unsubscribe cid E h) = unsubscribe cid E h.
Proof.
  unfold unsubscribe at 2 3.
  destruct (clients h !! cid) as [c|] eqn:Hc; [|by rewrite unsubscribe_absent].
  unfold unsubscribe. simpl. rewrite !lookup_insert_eq. simpl.
  f_equal.
  - rewrite insert_insert_eq. f_equal. f_equal. set_solver.
  - unfold discard_from. destruct (event_handlers h !! E) as [s|] eqn:Hs.
    + rewrite lookup_insert_eq, insert_insert_eq. f_equal. set_solver.
    + by rewrite Hs.
Qed.

(** C10 (amended): for a registered client, subscribing twice leaves the
    hub as subscribing once does, and so does unsubscribing twice; and when
    the client is not subscribed to the event type beforehand (the event type
    is not in its subscription set and its id is not in the subscriber set),
    subscribe followed by unsubscribe gives back the registry as it was, the
    same members of the subscriber set of that event type, and the other
    entries of the index untouched. *)
Theorem subscribe_unsubscribe_algebra h client_id event_type c :
  clients h !! client_id = Some c →
  subscribe client_id event_type (subscribe client_id event_type h) =
    subscribe client_id event_type h ∧
  unsubscribe client_id event_type (unsubscribe client_id event_type h) =
    unsubscribe client_id event_type h ∧
  (event_type ∉ subscriptions c →
   ¬ listed h client_id event_type →
   let h' := unsubscribe client_id event_type (subscribe client_id event_type h) in
   clients h' = clients h ∧
   (∀ x, x ∈ default ∅ (event_handlers h' !! event_type) ↔
         x ∈ default ∅ (event_handlers h !! event_type)) ∧
   (∀ other, other ≠ event_type →
             event_handlers h' !! other = event_handlers h !! other)).
Proof.
  intros Hc. split; [apply subscribe_twice|]. split; [apply unsubscribe_twice|].
  intros Hnot Hnl h'. unfold h', unsubscribe, subscribe. rewrite Hc. simpl.
  rewrite lookup_insert_eq. simpl. split; [|split].
  - rewrite insert_insert_eq. apply insert_id. rewrite Hc. f_equal.
    destruct c as [i w s l q]. simpl in *. f_equal. set_solver.
  - intros x. rewrite discard_from_lookup, decide_True by done.
    rewrite lookup_insert_eq. simpl.
    destruct (event_handlers h !! event_type) as [s|] eqn:Hs; simpl.
    + rewrite Hs. simpl. assert (client_id ∉ s).
      { intros Hin. apply Hnl. by exists s. }
      set_solver.
    + rewrite lookup_insert_eq. simpl. set_solver.
  - intros other Hne. rewrite discard_from_lookup, decide_False by done.
    rewrite lookup_insert_ne by done.
    destruct (event_handlers h !! event_type); [done|].
    by rewrite lookup_insert_ne.
Qed.

Lemma subscribe_unsubscribe_algebra_witness :
  let h := (register_client 7 0 (init 30)).2 in
  let h' := unsubscribe "7" "cpu" (subscribe "7" "cpu" h) in
  clients h !! "7" = Some (Client "7" 7 ∅ 0 []) ∧
  subscribe "7" "cpu" (subscribe "7" "cpu" h) = subscribe "7" "cpu" h ∧
  clients h' = clients h.
Proof.
  intros h h'.
  assert (Hc : clients h !! "7" = Some (Client "7" 7 ∅ 0 [])) by (by vm_compute).
  destruct (subscribe_unsubscribe_algebra h "7" "cpu" _ Hc) as (H1 & _ & H3).
  split; [done|]. split; [done|].
  apply H3.
  - simpl. set_solver.
  - intros (s & Hs & _). by vm_compute in Hs.
Defined.

(** *** Delivery *)

(** The worker passes to [ws.send] the queued messages in front of the
    shutdown signal, in queue order, whatever the writes do. *)
Lemma message_worker_sends outcomes cid q h :
  (message_worker outcomes cid q h).1.*1 = before_shutdown q.
Proof.
  revert outcomes h. induction q as [|[m|] q IH]; intros outcomes h; simpl; [done| |done].
  by rewrite IH.
Qed.


(** Draining a queue in two sittings is draining it in one. *)
Lemma message_worker_app outcomes cid q q' h :
  None ∉ q →
  let r := message_worker outcomes cid q h in
  let r' := message_worker (drop (length q) outcomes) cid q' r.2 in
  message_worker outcomes cid (q ++ q') h = (r.1 ++ r'.1, r'.2).
Proof.
  revert outcomes h. induction q as [|[m|] q IH]; intros outcomes h Hq; simpl.
  - rewrite drop_0. by destruct (message_worker outcomes cid q' h).
  - rewrite IH by (intros Hin; apply Hq; by right). simpl.
    destruct outcomes as [|b outcomes]; simpl; rewrite ?drop_nil; done.
  - exfalso. apply Hq. left.
Qed.



(** *** The liveness sweep on the clock *)

(** The registry of the failing inputs of C7: one client, registered (and
    last heard of) at time 0. *)
Definition one_client_with (ping_interval : Z) : hub :=
  (register_client 7 (Clock.seconds_of 0) (init ping_interval)).2.

Definition one_client : hub := one_client_with 30.

(** C7, on the code.  The test reads the [.seconds] field of the elapsed
    time, which never reaches 86400.  With [ping_interval = 43200] (twelve
    hours) a client that has been silent for a day and a second, or for ten
    days, is left in the registry.  With the default [ping_interval = 30] a
    sweep one day and ten seconds after the last ping leaves the client in
    the registry ([.seconds] is 10), and so does a sweep half a second after
    the 60 seconds have passed. *)
Theorem stale_client_survives_sweep :
  (let h := one_client_with 43200 in
   let late := Clock.seconds_of 86401 in
   let later := Clock.seconds_of 864000 in
   late - Clock.seconds_of 0 > Clock.seconds_of (2 * ping_interval h) ∧
   is_Some (clients (_check_client_health late h) !! "7") ∧
   is_Some (clients (_check_client_health later h) !! "7")) ∧
  (let late := Clock.seconds_of 86410 in
   let just_over := Clock.seconds_of 60 + 500000 in
   late - Clock.seconds_of 0 > Clock.seconds_of (2 * ping_interval one_client) ∧
   Clock.timedelta_seconds (late - Clock.seconds_of 0) = 10 ∧
   is_Some (clients (_check_client_health late one_client) !! "7") ∧
   just_over - Clock.seconds_of 0 > Clock.seconds_of (2 * ping_interval one_client) ∧
   is_Some (clients (_check_client_health just_over one_client) !! "7")).
Proof.
  repeat split; try (by vm_compute); eexists; by vm_compute.
Qed.

(** With a ping interval of twelve hours or more the sweep removes no
    client, whenever it runs. *)
Theorem long_interval_never_sweeps now h client_id c :
  43200 ≤ ping_interval h →
  clients h !! client_id = Some c →
  clients (_check_client_health now h) !! client_id = Some c.
Proof.
  intros Hpi Hc. rewrite check_client_health_clients, Hc. simpl.
  unfold timed_out. rewrite bool_decide_false; [done|].
  pose proof (Clock.timedelta_seconds_range (now - last_ping c)). lia.
Qed.

Lemma long_interval_never_sweeps_witness :
  clients (_check_client_health (Clock.seconds_of 864000) (one_client_with 43200))
    !! "7" = Some (Client "7" 7 ∅ 0 []).
Proof.
  apply (long_interval_never_sweeps _ (one_client_with 43200) "7");
    by vm_compute.
Defined.

(** The subscriber sets after the test on one client, and after the
    sweep: an id leaves the subscriber sets of the event types that the
    client removed under it had in its own subscription set, and no
    other. *)
Lemma check_one_listed now h a x E :
  listed (check_one now h a) x E ↔
  listed h x E ∧
  ¬ (x = a ∧ ∃ c, clients h !! a = Some c ∧
                  timed_out now (ping_interval h) c = true ∧ E ∈ subscriptions c).
Proof.
  unfold check_one. destruct (clients h !! a) as [c|] eqn:Hc.
  - destruct (timed_out now (ping_interval h) c) eqn:Ht.
    + rewrite remove_client_listed. split.
      * intros [Hl Hn]. split; [done|]. intros [-> (c' & [= <-] & _ & HE)].
        apply Hn. split; [done|]. by exists c.
      * intros [Hl Hn]. split; [done|]. intros [-> (c' & Hc' & HE)].
        rewrite Hc in Hc'. injection Hc' as <-.
        apply Hn. split; [done|]. by exists c.
    + split; [|by intros [? _]]. intros Hl. split; [done|].
      intros [_ (c' & [= <-] & Ht' & _)]. congruence.
  - split; [|by intros [? _]]. intros Hl. split; [done|].
    by intros [_ (c' & ? & _)].
Qed.

Lemma check_fold_listed now l : ∀ h, NoDup l → ∀ x E,
  listed (foldl (check_one now) h l) x E ↔
  listed h x E ∧
  ¬ (x ∈ l ∧ ∃ c, clients h !! x = Some c ∧
                  timed_out now (ping_interval h) c = true ∧ E ∈ subscriptions c).
Proof.
  induction l as [|a l IH]; intros h Hnd x E; simpl.
  - split; [|by intros [? _]]. intros Hl. split; [done|].
    by intros [?%elem_of_nil _].
  - apply NoDup_cons in Hnd as [Ha Hnd].
    destruct (check_one_spec now h a) as [Hpi Hcl].
    etrans; [by apply IH|]. rewrite Hpi.
    split.
    + intros [[Hl Hna]%check_one_listed Hnl]. split; [done|].
      intros [Hin (c & Hc & Ht & HE)].
      apply elem_of_cons in Hin as [->|Hin].
      * apply Hna. split; [done|]. by exists c.
      * apply Hnl. split; [done|]. exists c.
        rewrite Hcl, decide_False by (by intros ->). done.
    + intros [Hl Hn]. split.
      * apply check_one_listed. split; [done|].
        intros [-> (c & Hc & Ht & HE)]. apply Hn. split; [by left|by exists c].
      * intros [Hin (c & Hc & Ht & HE)]. apply Hn. split; [by right|].
        exists c. rewrite Hcl, decide_False in Hc by (by intros ->). done.
Qed.

Lemma check_client_health_listed now h x E :
  listed (_check_client_health now h) x E ↔
  listed h x E ∧
  ¬ ∃ c, clients h !! x = Some c ∧
         timed_out now (ping_interval h) c = true ∧ E ∈ subscriptions c.
Proof.
  unfold _check_client_health.
  rewrite check_fold_listed by apply NoDup_fst_map_to_list.
  split; intros [Hl Hn]; (split; [done|]).
  - intros (c & Hc & Ht & HE). apply Hn. split; [|by exists c].
    apply list_elem_of_fmap. exists (x, c). split; [done|].
    by apply elem_of_map_to_list.
  - intros [_ H]. by apply Hn.
Qed.

(** What the sweep does to a registered client.  When the [.seconds]
    field of [now - last_ping] exceeds [2 * ping_interval] the client is
    removed from the registry, and its id from the subscriber sets of the
    event types in its own subscription set, and from no other: from every
    subscriber set, then, when the registry and the index agree.  Otherwise
    its record and the subscriber sets that list it stay as they were.  The
    sweep keeps the agreement of the two structures. *)
Theorem sweep_removes_by_seconds_field now h client_id c :
  clients h !! client_id = Some c →
  let h' := _check_client_health now h in
  (consistent h → consistent h') ∧
  if bool_decide (Clock.timedelta_seconds (now - last_ping c) > ping_interval h * 2)
  then clients h' !! client_id = None ∧
       (∀ event_type, listed h' client_id event_type ↔
                      listed h client_id event_type ∧ event_type ∉ subscriptions c) ∧
       (consistent h → ∀ event_type, ¬ listed h' client_id event_type)
  else clients h' !! client_id = Some c ∧
       ∀ event_type, listed h' client_id event_type ↔ listed h client_id event_type.
Proof.
  intros Hc h'. split; [apply consistent_check_client_health|].
  pose proof (check_client_health_clients now h client_id) as Hl.
  fold h' in Hl. rewrite Hc in Hl. simpl in Hl.
  assert (Hlisted : ∀ E, listed h' client_id E ↔
    listed h client_id E ∧
    ¬ (timed_out now (ping_interval h) c = true ∧ E ∈ subscriptions c)).
  { intros E. unfold h'. rewrite check_client_health_listed. split.
    - intros [H1 Hn]. split; [done|]. intros [Ht HE]. apply Hn. by exists c.
    - intros [H1 Hn]. split; [done|]. intros (c' & Hc' & Ht & HE).
      rewrite Hc in Hc'. injection Hc' as <-. by apply Hn. }
  unfold timed_out in Hl, Hlisted.
  destruct (bool_decide _).
  - split; [done|]. split.
    + intros E. rewrite Hlisted. split.
      * intros [H1 Hn]. split; [done|]. intros HE. by apply Hn.
      * intros [H1 Hn]. split; [done|]. by intros [_ HE].
    + intros Hcons E Hin.
      apply (consistent_check_client_health now h Hcons client_id E) in Hin
        as (c' & Hc' & _).
      fold h' in Hc'. by rewrite Hl in Hc'.
  - split; [done|]. intros E. rewrite Hlisted. split; [by intros [? _]|].
    intros H1. split; [done|]. by intros [? _].
Qed.

Lemma sweep_removes_by_seconds_field_witness :
  let h := subscribe "7" "cpu" one_client in
  let h' := _check_client_health (Clock.seconds_of 61) h in
  clients h' !! "7" = None ∧ ∀ event_type, ¬ listed h' "7" event_type.
Proof.
  intros h h'.
  assert (Hc : clients h !! "7" = Some (Client "7" 7 {["cpu"]} 0 [])) by (by vm_compute).
  assert (Hcons : consistent h).
  { apply consistent_subscribe, consistent_register; [done|apply consistent_init]. }
  exact (let H := proj2 (sweep_removes_by_seconds_field (Clock.seconds_of 61) h "7" _ Hc)
         in conj (proj1 H) (proj2 (proj2 H) Hcons)).
Defined.

(** Within the first day after the last ping the [.seconds] field is the
    elapsed time in whole seconds: a client is removed once a full second
    more than [2 * ping_interval] has passed, and is kept while no more than
    [2 * ping_interval] seconds have passed. *)
Theorem sweep_within_a_day now h client_id c :
  clients h !! client_id = Some c →
  0 ≤ now - last_ping c < Clock.us_per_day →
  let h' := _check_client_health now h in
  (Clock.seconds_of (ping_interval h * 2 + 1) ≤ now - last_ping c →
   clients h' !! client_id = None) ∧
  (now - last_ping c ≤ Clock.seconds_of (ping_interval h * 2) →
   clients h' !! client_id = Some c).
Proof.
  intros Hc Hday h'. pose proof (check_client_health_clients now h client_id) as Hl.
  fold h' in Hl. rewrite Hc in Hl. simpl in Hl. unfold timed_out in Hl.
  rewrite Clock.timedelta_seconds_small in Hl by done.
  unfold Clock.seconds_of, Clock.us_per_second in *.
  split; intros Hage.
  - rewrite bool_decide_true in Hl; [done|].
    assert (ping_interval h * 2 + 1 ≤ (now - last_ping c) `div` 1000000)
      by (apply Z.div_le_lower_bound; lia).
    lia.
  - rewrite bool_decide_false in Hl; [done|].
    assert ((now - last_ping c) `div` 1000000 ≤ ping_interval h * 2)
      by (apply Z.div_le_upper_bound; lia).
    lia.
Qed.

Lemma sweep_within_a_day_witness :
  clients (_check_client_health (Clock.seconds_of 60) one_client) !! "7" =
  Some (Client "7" 7 ∅ 0 []).
Proof.
  assert (Hc : clients one_client !! "7" = Some (Client "7" 7 ∅ 0 []))
    by (by vm_compute).
  apply (sweep_within_a_day (Clock.seconds_of 60) one_client "7" _ Hc);
    by vm_compute.
Defined.

End Hub.

(** ** The metrics cache and history ([MetricsService]) *)
Module Metrics.

Import Py.

(** [MetricCache] *)
Record MetricCache := Cache {
  data : dict;
  timestamp : Z;          (* datetime *)
  ttl : Z;                (* seconds *)
}.

(** An entry of a history list: [{'timestamp': ..., 'data': ...}].  The
    timestamp is written with [isoformat] and read back with
    [fromisoformat]; it is kept here as the datetime itself. *)
Record entry := Entry {
  e_timestamp : Z;
  e_data : dict;
}.

(** A history list is a Python list object: it has an identity, is
    appended to in place, and is what [get_metrics_history] may hand out. *)
Definition ref := nat.

(** What [execute_command] returns. *)
Record result := Result {
  exit_code : Z;
  output : string;
  error : string;
}.

(** The service object and the part of the world it acts on:
    - [_metric_history] maps a key to its list object, [lists] holds the
      contents of the list objects, [next_list] is the identity of the next
      list created;
    - [executed] is the log of the remote commands issued, oldest first. *)
Record service := Service {
  cache_ttl : Z;
  _cache : gmap string MetricCache;
  _metric_history : gmap string ref;
  lists : gmap ref (list entry);
  next_list : ref;
  _history_max_size : Z;
  executed : list (string * string);
}.

(** [__init__] *)
Definition init (cache_ttl : Z) : service :=
  Service cache_ttl ∅ ∅ ∅ 0%nat 1000 [].

Definition set_cache (s : service) (c : gmap string MetricCache) : service :=
  Service (cache_ttl s) c (_metric_history s) (lists s) (next_list s)
          (_history_max_size s) (executed s).

Definition set_executed (s : service) (log : list (string * string)) : service :=
  Service (cache_ttl s) (_cache s) (_metric_history s) (lists s) (next_list s)
          (_history_max_size s) log.

(** The test of the code on the age of a cache entry. *)
Definition is_fresh (now : Z) (e : MetricCache) : bool :=
  bool_decide (Clock.timedelta_seconds (now - timestamp e) ≤ ttl e).

(** [_cleanup_cache] *)
Definition _cleanup_cache (now : Z) (s : service) : service :=
  set_cache s (filter (λ kv, is_fresh now kv.2 = true) (_cache s)).

(** [_get_cache_key]; [param_str] is [json.dumps(params, sort_keys=True)],
    which is ["{}"] when there are no parameters. *)
Definition _get_cache_key (metric_type server_name param_str : string) : string :=
  metric_type +:+ ":" +:+ server_name +:+ ":" +:+ param_str.

(** [_get_from_cache] *)
Definition _get_from_cache (now : Z) (cache_key : string) (s : service)
    : option dict * service :=
  match _cache s !! cache_key with
  | Some cache_entry =>
      if is_fresh now cache_entry then (Some (data cache_entry), s)
      else (None, set_cache s (delete cache_key (_cache s)))
  | None => (None, s)
  end.

(** [_store_in_cache]; [ttl or self.cache_ttl] takes the default for a
    missing or zero [ttl]. *)
Definition _store_in_cache (now : Z) (cache_key : string) (d : dict)
    (ttl : option Z) (s : service) : service :=
  let ttl' := match ttl with
              | Some t => if bool_decide (t = 0) then cache_ttl s else t
              | None => cache_ttl s
              end in
  set_cache s (<[cache_key := Cache d now ttl']> (_cache s)).

(** [l[start:]] *)
Definition slice_from {A} (start : Z) (l : list A) : list A :=
  let n := Z.of_nat (length l) in
  let start' := if bool_decide (start < 0) then Z.max (start + n) 0
                else Z.min start n in
  drop (Z.to_nat start') l.

(** The contents of a list object. *)
Definition contents (s : service) (r : ref) : list entry :=
  default [] (lists s !! r).

(** The history stored under a key. *)
Definition series (s : service) (key : string) : list entry :=
  match _metric_history s !! key with
  | Some r => contents s r
  | None => []
  end.

Definition history_key (metric_type server_name : string) : string :=
  metric_type +:+ ":" +:+ server_name.

(** Three things the code does to list objects: build a new one, store a
    list under a key, and append to a list in place. *)
Definition alloc_list (l : list entry) (s : service) : ref * service :=
  (next_list s,
   Service (cache_ttl s) (_cache s) (_metric_history s)
           (<[next_list s := l]> (lists s)) (S (next_list s))
           (_history_max_size s) (executed s)).

Definition bind (key : string) (r : ref) (s : service) : service :=
  Service (cache_ttl s) (_cache s) (<[key := r]> (_metric_history s))
          (lists s) (next_list s) (_history_max_size s) (executed s).

Definition append (r : ref) (e : entry) (s : service) : service :=
  Service (cache_ttl s) (_cache s) (_metric_history s)
          (<[r := contents s r ++ [e]]> (lists s)) (next_list s)
          (_history_max_size s) (executed s).

(** [self._metric_history[key] = l] for a list [l] just built. *)
Definition store_new (key : string) (l : list entry) (s : service) : ref * service :=
  let '(r, s1) := alloc_list l s in (r, bind key r s1).

(** [self._metric_history[key]] on the defaultdict: a new key gets a new
    empty list, which is stored. *)
Definition defaultdict_get (key : string) (s : service) : ref * service :=
  match _metric_history s !! key with
  | Some r => (r, s)
  | None => store_new key [] s
  end.

(** [self._metric_history.get(key, [])]: the stored list, or a new empty
    one that is not stored. *)
Definition dict_get_default (key : string) (s : service) : ref * service :=
  match _metric_history s !! key with
  | Some r => (r, s)
  | None => alloc_list [] s
  end.

(** [_store_in_history]: [append] changes the list object in place; the
    trim builds a new list by slicing and stores it under the key. *)
Definition _store_in_history (now : Z) (metric_type server_name : string)
    (d : dict) (s : service) : service :=
  let key := history_key metric_type server_name in
  let e := Entry now d in
  let '(r, s1) := defaultdict_get key s in
  let s2 := append r e s1 in
  if bool_decide (Z.of_nat (length (series s2 key)) > _history_max_size s2) then
    (store_new key (slice_from (- _history_max_size s2) (series s2 key)) s2).2
  else s2.

(** The test of [get_metrics_history] on one entry: an entry is skipped
    when a start is given and it is earlier, or an end is given and it is
    later. *)
Definition in_range (start_time end_time : option Z) (e : entry) : bool :=
  negb (match start_time with
        | Some t => bool_decide (e_timestamp e < t)
        | None => false
        end) &&
  negb (match end_time with
        | Some t => bool_decide (e_timestamp e > t)
        | None => false
        end).

(** [get_metrics_history]: the result is the list object returned.  With
    a bound given a new list is filled and returned; with none the list
    found is returned itself. *)
Definition get_metrics_history (metric_type server_name : string)
    (start_time end_time : option Z) (s : service) : ref * service :=
  let key := history_key metric_type server_name in
  let '(history, s1) := dict_get_default key s in
  match start_time, end_time with
  | None, None => (history, s1)
  | _, _ =>
      alloc_list (filter (λ e, in_range start_time end_time e = true)
                         (contents s1 history)) s1
  end.

(** [clear_cache] *)
Definition clear_cache (s : service) : service := set_cache s ∅.

(** *** [get_system_metrics] *)

Definition dq : string := String (Ascii.ascii_of_nat 34) EmptyString.

Definition commands : list (string * string) :=
  [("cpu", "top -bn1 | grep 'Cpu(s)' | awk '{print $2 + $4}'");
   ("memory", "free -m | awk 'NR==2{printf " +:+ dq +:+ "%.2f" +:+ dq
              +:+ ", $3*100/$2}'");
   ("disk", "df -h / | awk 'NR==2{print $5}' | sed 's/%//g'");
   ("load", "uptime | awk -F'[a-z]:' '{ print $2}'")].

Section Collect.

(** The builtins [str.strip] and [float] ([None]: [ValueError]), and the
    remote side: [ssh server_name command] is what [execute_command]
    returns ([None]: it raises). *)
Variable strip : string → string.
Variable float : string → option value.
Variable ssh : string → string → option result.

(** The loop over [commands.items()]: the metrics collected and the
    commands issued; [None] when [execute_command] raises. *)
Fixpoint collect (server_name : string) (cmds : list (string * string))
    (metrics : dict) (log : list (string * string))
    : option dict * list (string * string) :=
  match cmds with
  | [] => (Some metrics, log)
  | (metric, command) :: rest =>
      let log' := log ++ [(server_name, command)] in
      match ssh server_name command with
      | None => (None, log')
      | Some r =>
          let metrics' :=
            if bool_decide (exit_code r = 0) then
              let text := strip (output r) in
              dict_set metric (default (VStr text) (float text)) metrics
            else metrics in
          collect server_name rest metrics' log'
      end
  end.

(** [get_system_metrics]; the three clock readings are those of
    [_get_from_cache], [_store_in_cache] and [_store_in_history].  The
    result is [None] when an exception leaves the function. *)
Definition get_system_metrics (t_lookup t_cache t_history : Z)
    (server_name : string) (s : service) : option dict * service :=
  let cache_key := _get_cache_key "system" server_name "{}" in
  let '(cached_data, s1) := _get_from_cache t_lookup cache_key s in
  if match cached_data with Some d => dict_truthy d | None => false end then
    (cached_data, s1)
  else
    match collect server_name commands [] (executed s1) with
    | (Some metrics, log) =>
        let s2 := set_executed s1 log in
        let s3 := _store_in_cache t_cache cache_key metrics None s2 in
        let s4 := _store_in_history t_history "system" server_name metrics s3 in
        (Some metrics, s4)
    | (None, log) => (None, set_executed s1 log)
    end.

End Collect.

(** *** Sequences of history operations *)

Inductive hist_op :=
| Store (now : Z) (metric_type server_name : string) (d : dict)
| Query (metric_type server_name : string) (start_time end_time : option Z).

Definition hist_step (o : hist_op) (s : service) : service :=
  match o with
  | Store now metric_type server_name d =>
      _store_in_history now metric_type server_name d s
  | Query metric_type server_name start_time end_time =>
      (get_metrics_history metric_type server_name start_time end_time s).2
  end.

Definition hist_run (ops : list hist_op) (s : service) : service :=
  foldl (λ s o, hist_step o s) s ops.

(** The entries stored under [key] by a sequence of operations, oldest
    first. *)
Definition stored (key : string) (ops : list hist_op) : list entry :=
  ops ≫= λ o,
    match o with
    | Store now metric_type server_name d =>
        if decide (history_key metric_type server_name = key)
        then [Entry now d] else []
    | Query _ _ _ _ => []
    end.

(** *** The store of list objects *)

(** Every stored list is an existing object, and no list is stored under
    two keys. *)
Record wf (s : service) : Prop := Wf {
  wf_bound : ∀ k r, _metric_history s !! k = Some r → (r < next_list s)%nat;
  wf_inj : ∀ k1 k2 r,
    _metric_history s !! k1 = Some r → _metric_history s !! k2 = Some r → k1 = k2;
}.

(** [r] is a list object that is stored under no key. *)
Definition detached (s : service) (r : ref) : Prop :=
  (r < next_list s)%nat ∧ ∀ k, _metric_history s !! k ≠ Some r.

(** [s'] comes after [s]: objects are only added, the cap is the same and
    the detached lists of [s] are detached and unchanged in [s']. *)
Record after (s s' : service) : Prop := After {
  after_next : (next_list s ≤ next_list s')%nat;
  after_max : _history_max_size s' = _history_max_size s;
  after_detached : ∀ r, detached s r → detached s' r ∧ lists s' !! r = lists s !! r;
}.

Lemma after_refl s : after s s.
Proof. by split. Qed.

Lemma after_trans s1 s2 s3 : after s1 s2 → after s2 s3 → after s1 s3.
Proof.
  intros [Hn1 Hm1 Hd1] [Hn2 Hm2 Hd2]. split.
  - lia.
  - congruence.
  - intros r Hr. destruct (Hd1 r Hr) as [Hr2 Hl2].
    destruct (Hd2 r Hr2) as [Hr3 Hl3]. split; [done|congruence].
Qed.

Lemma wf_init ttl0 : wf (init ttl0).
Proof. split; simpl; intros *; by rewrite lookup_empty. Qed.

Lemma alloc_list_spec l s :
  wf s →
  let r := (alloc_list l s).1 in
  let s' := (alloc_list l s).2 in
  wf s' ∧ after s s' ∧ r = next_list s ∧ detached s' r ∧
  contents s' r = l ∧
  _metric_history s' = _metric_history s ∧
  (∀ key, series s' key = series s key).
Proof.
  intros [Hb Hi]. simpl. split; [|split; [|split; [|split; [|split; [|split]]]]].
  - split; simpl; [|done]. intros k r Hk. apply Hb in Hk. lia.
  - split; simpl; [lia|done|]. intros r [Hlt Hun]. split.
    + split; simpl; [lia|done].
    + rewrite lookup_insert_ne; [done|lia].
  - done.
  - split; simpl; [lia|]. intros k Hk. apply Hb in Hk. lia.
  - unfold contents. simpl. by rewrite lookup_insert_eq.
  - done.
  - intros key. unfold series, contents. simpl.
    destruct (_metric_history s !! key) as [r|] eqn:Hk; [|done].
    apply Hb in Hk. rewrite lookup_insert_ne; [done|lia].
Qed.

(** Building a list and storing it under a key. *)
Lemma store_new_spec key l s :
  wf s →
  let r := (store_new key l s).1 in
  let s' := (store_new key l s).2 in
  wf s' ∧ after s s' ∧
  _metric_history s' !! key = Some r ∧
  (∀ key', series s' key' = if decide (key = key') then l else series s key').
Proof.
  intros [Hb Hi]. simpl. split; [|split; [|split]].
  - split; simpl.
    + intros k r. rewrite lookup_insert. destruct (decide (key = k)).
      * intros [= <-]. lia.
      * intros Hk%Hb. lia.
    + intros k1 k2 r. rewrite !lookup_insert.
      destruct (decide (key = k1)) as [<-|], (decide (key = k2)) as [<-|]; try done.
      * intros [= <-] Hk%Hb. lia.
      * intros Hk%Hb [= <-]. lia.
      * apply Hi.
  - split; simpl; [lia|done|]. intros r [Hlt Hun]. split.
    + split; simpl; [lia|]. intros k. rewrite lookup_insert.
      destruct (decide (key = k)); [|apply Hun]. intros [= <-]. lia.
    + rewrite lookup_insert_ne; [done|lia].
  - by rewrite lookup_insert_eq.
  - intros key'. unfold series, contents. simpl. rewrite lookup_insert.
    destruct (decide (key = key')); [by rewrite lookup_insert_eq|].
    destruct (_metric_history s !! key') as [r|] eqn:Hk; [|done].
    apply Hb in Hk. rewrite lookup_insert_ne; [done|lia].
Qed.

Lemma append_spec key r e s :
  wf s → _metric_history s !! key = Some r →
  let s' := append r e s in
  wf s' ∧ after s s' ∧
  _metric_history s' = _metric_history s ∧
  (∀ key', series s' key' =
           if decide (key = key') then series s key' ++ [e] else series s key').
Proof.
  intros [Hb Hi] Hkey. simpl. split; [|split; [|split]].
  - by split.
  - split; simpl; [lia|done|]. intros r0 [Hlt Hun]. split; [done|].
    rewrite lookup_insert_ne; [done|]. intros ->. by apply (Hun key).
  - done.
  - intros key'. unfold series, contents. simpl.
    destruct (decide (key = key')) as [<-|Hne].
    + rewrite Hkey. by rewrite lookup_insert_eq.
    + destruct (_metric_history s !! key') as [r'|] eqn:Hk; [|done].
      rewrite lookup_insert_ne; [done|]. intros ->. apply Hne. by eapply Hi.
Qed.

Arguments alloc_list : simpl never.
Arguments store_new : simpl never.
Arguments append : simpl never.

Lemma defaultdict_get_spec key s :
  wf s →
  let r := (defaultdict_get key s).1 in
  let s' := (defaultdict_get key s).2 in
  wf s' ∧ after s s' ∧
  _metric_history s' !! key = Some r ∧
  (∀ key', series s' key' = series s key').
Proof.
  intros Hwf. unfold defaultdict_get.
  destruct (_metric_history s !! key) as [r|] eqn:Hk; simpl.
  - split; [done|]. split; [apply after_refl|]. done.
  - destruct (store_new_spec key [] s Hwf) as (Hwf' & Haf & Hl & Hs).
    split; [done|]. split; [done|]. split; [done|].
    intros key'. rewrite Hs. destruct (decide (key = key')) as [<-|]; [|done].
    unfold series. by rewrite Hk.
Qed.

Lemma dict_get_default_spec key s :
  wf s →
  let r := (dict_get_default key s).1 in
  let s' := (dict_get_default key s).2 in
  wf s' ∧ after s s' ∧
  _metric_history s' = _metric_history s ∧
  contents s' r = series s key ∧
  (∀ key', series s' key' = series s key') ∧
  (_metric_history s !! key = Some r ∨ detached s' r).
Proof.
  intros Hwf. unfold dict_get_default.
  destruct (_metric_history s !! key) as [r|] eqn:Hk; simpl.
  - split; [done|]. split; [apply after_refl|]. split; [done|].
    split; [|split; [done|by left]]. unfold series. by rewrite Hk.
  - destruct (alloc_list_spec [] s Hwf) as (Hwf' & Haf & _ & Hd & Hc & Hh & Hs).
    split; [done|]. split; [done|]. split; [done|].
    split; [|split; [done|by right]]. unfold series. by rewrite Hk.
Qed.

(** The trim of [_store_in_history] on the contents of a list. *)
Definition trim {A} (max_size : Z) (l : list A) : list A :=
  if bool_decide (Z.of_nat (length l) > max_size) then slice_from (- max_size) l
  else l.

Lemma store_in_history_spec now metric_type server_name d s :
  wf s →
  let key := history_key metric_type server_name in
  let s' := _store_in_history now metric_type server_name d s in
  wf s' ∧ after s s' ∧
  (∀ key', series s' key' =
           if decide (key = key')
           then trim (_history_max_size s) (series s key' ++ [Entry now d])
           else series s key').
Proof.
  intros Hwf key s'. unfold s', _store_in_history. fold key.
  destruct (defaultdict_get_spec key s Hwf) as (Hwf1 & Haf1 & Hk1 & Hs1).
  destruct (defaultdict_get key s) as [r s1]. cbn [fst snd] in *.
  destruct (append_spec key r (Entry now d) s1 Hwf1 Hk1) as (Hwf2 & Haf2 & Hh2 & Hs2).
  set (s2 := append r (Entry now d) s1) in *.
  assert (Hmax : _history_max_size s2 = _history_max_size s).
  { by rewrite (after_max _ _ Haf2), (after_max _ _ Haf1). }
  assert (Hkey : series s2 key = series s key ++ [Entry now d]).
  { rewrite Hs2, decide_True by done. by rewrite Hs1. }
  rewrite Hkey, Hmax.
  case_bool_decide as Hlen.
  - destruct (store_new_spec key
      (slice_from (- _history_max_size s) (series s key ++ [Entry now d])) s2 Hwf2)
      as (Hwf3 & Haf3 & _ & Hs3).
    split; [done|]. split; [eauto using after_trans|].
    intros key'. rewrite Hs3. destruct (decide (key = key')) as [<-|Hne].
    + unfold trim. by rewrite bool_decide_true.
    + rewrite Hs2, decide_False by done. apply Hs1.
  - split; [done|]. split; [eauto using after_trans|].
    intros key'. rewrite Hs2. destruct (decide (key = key')) as [<-|Hne].
    + unfold trim. rewrite bool_decide_false by done. by rewrite Hs1.
    + apply Hs1.
Qed.

Lemma filter_in_range_none (l : list entry) :
  filter (λ e, in_range None None e = true) l = l.
Proof. induction l as [|e l IH]; [done|]. rewrite filter_cons_True by done. by rewrite IH. Qed.

Lemma get_metrics_history_spec metric_type server_name start_time end_time s :
  wf s →
  let key := history_key metric_type server_name in
  let r := (get_metrics_history metric_type server_name start_time end_time s).1 in
  let s' := (get_metrics_history metric_type server_name start_time end_time s).2 in
  wf s' ∧ after s s' ∧
  (∀ key', series s' key' = series s key') ∧
  contents s' r =
    filter (λ e, in_range start_time end_time e = true) (series s key) ∧
  match start_time, end_time with
  | None, None => _metric_history s !! key = Some r ∨ detached s' r
  | _, _ => detached s' r
  end.
Proof.
  intros Hwf key. unfold get_metrics_history. fold key.
  destruct (dict_get_default_spec key s Hwf) as (Hwf1 & Haf1 & Hh1 & Hc1 & Hs1 & Hr1).
  destruct (dict_get_default key s) as [history s1]. cbn [fst snd] in *.
  assert (Hbounded : ∀ st en,
    let l := filter (λ e, in_range st en e = true) (contents s1 history) in
    wf (alloc_list l s1).2 ∧ after s (alloc_list l s1).2 ∧
    (∀ key', series (alloc_list l s1).2 key' = series s key') ∧
    contents (alloc_list l s1).2 (alloc_list l s1).1 =
      filter (λ e, in_range st en e = true) (series s key) ∧
    detached (alloc_list l s1).2 (alloc_list l s1).1).
  { intros st en l.
    destruct (alloc_list_spec l s1 Hwf1) as (Hwf2 & Haf2 & _ & Hd2 & Hc2 & _ & Hs2).
    split; [done|]. split; [eauto using after_trans|].
    split; [intros key'; by rewrite Hs2|]. split; [|done].
    rewrite Hc2. unfold l. by rewrite Hc1. }
  destruct start_time as [st|], end_time as [en|]; try apply Hbounded.
  simpl. split; [done|]. split; [done|]. split; [done|].
  split; [|done]. by rewrite filter_in_range_none.
Qed.

Lemma hist_step_spec o s : wf s → wf (hist_step o s) ∧ after s (hist_step o s).
Proof.
  intros Hwf. destruct o as [now mt srv d|mt srv st en]; simpl.
  - destruct (store_in_history_spec now mt srv d s Hwf) as (? & ? & _). done.
  - destruct (get_metrics_history_spec mt srv st en s Hwf) as (? & ? & _). done.
Qed.

Lemma hist_run_spec ops s : wf s → wf (hist_run ops s) ∧ after s (hist_run ops s).
Proof.
  revert s. induction ops as [|o ops IH]; intros s Hwf; simpl.
  - split; [done|apply after_refl].
  - destruct (hist_step_spec o s Hwf) as [Hwf1 Haf1].
    destruct (IH _ Hwf1) as [Hwf2 Haf2]. split; [done|]. by eapply after_trans.
Qed.

Lemma hist_run_snoc ops o s : hist_run (ops ++ [o]) s = hist_step o (hist_run ops s).
Proof. unfold hist_run. by rewrite foldl_app. Qed.

(** [_store_in_history] leaves the cache, its default ttl and the command
    log alone. *)
Lemma store_in_history_frame now metric_type server_name d s :
  let s' := _store_in_history now metric_type server_name d s in
  cache_ttl s' = cache_ttl s ∧ _cache s' = _cache s ∧ executed s' = executed s.
Proof.
  unfold _store_in_history, defaultdict_get, store_new, alloc_list, bind, append.
  destruct (_metric_history s !! history_key metric_type server_name);
    simpl; by case_bool_decide.
Qed.

(** *** The cap on a history *)

Lemma slice_from_last {A} (m : Z) (l : list A) :
  0 < m → m ≤ Z.of_nat (length l) →
  slice_from (- m) l = drop (length l - Z.to_nat m) l.
Proof.
  intros Hm Hl. unfold slice_from. rewrite bool_decide_true by lia.
  f_equal. lia.
Qed.

(** Appending to the last [m] entries and trimming gives the last [m]
    entries of the longer sequence. *)
Lemma trim_keeps_last {A} (m : Z) (all : list A) (e : A) :
  0 < m →
  trim m (drop (length all - Z.to_nat m) all ++ [e]) =
  drop (length (all ++ [e]) - Z.to_nat m) (all ++ [e]).
Proof.
  intros Hm. unfold trim. rewrite !length_app, length_drop. simpl.
  destruct (decide (length all < Z.to_nat m)%nat) as [Hshort|Hlong].
  - rewrite bool_decide_false by lia.
    replace (length all - Z.to_nat m)%nat with 0%nat by lia.
    replace (length all + 1 - Z.to_nat m)%nat with 0%nat by lia.
    done.
  - rewrite bool_decide_true by lia.
    rewrite slice_from_last by (rewrite ?length_app, ?length_drop; simpl; lia).
    rewrite length_app, length_drop. simpl.
    rewrite drop_app_le by (rewrite length_drop; lia).
    rewrite drop_drop.
    rewrite (drop_app_le all) by lia.
    f_equal. f_equal. lia.
Qed.

Lemma stored_snoc key ops o :
  stored key (ops ++ [o]) = stored key ops ++ stored key [o].
Proof. unfold stored. by rewrite bind_app. Qed.

(** C8: started empty, after any sequence of history appends (and
    queries) the history stored under a key holds at most 1000 entries, and
    they are the most recent ones appended under that key, in the order
    they were appended: the oldest ones are the ones dropped. *)
Theorem history_keeps_most_recent ttl0 ops key :
  let s := hist_run ops (init ttl0) in
  let all := stored key ops in
  _history_max_size s = 1000 ∧
  Z.of_nat (length (series s key)) ≤ _history_max_size s ∧
  series s key = drop (length all - 1000) all.
Proof.
  simpl.
  assert (Hmax : ∀ ops, _history_max_size (hist_run ops (init ttl0)) = 1000).
  { intros ops'. destruct (hist_run_spec ops' (init ttl0) (wf_init ttl0)) as [_ Haf].
    by rewrite (after_max _ _ Haf). }
  assert (Hseries : series (hist_run ops (init ttl0)) key =
                    drop (length (stored key ops) - 1000) (stored key ops)).
  { induction ops as [|o ops IH] using rev_ind.
    - reflexivity.
    - rewrite hist_run_snoc, stored_snoc.
      destruct (hist_run_spec ops (init ttl0) (wf_init ttl0)) as [Hwf _].
      destruct o as [now mt srv d|mt srv st en]; simpl.
      + destruct (store_in_history_spec now mt srv d _ Hwf) as (_ & _ & Hs).
        rewrite Hs, Hmax. destruct (decide (history_key mt srv = key)) as [Heq|Hne].
        * rewrite IH. apply (trim_keeps_last 1000). lia.
        * by rewrite app_nil_r.
      + destruct (get_metrics_history_spec mt srv st en _ Hwf) as (_ & _ & Hs & _).
        rewrite Hs, app_nil_r. apply IH. }
  split; [apply Hmax|]. split; [|done].
  rewrite Hmax, Hseries, length_drop. lia.
Qed.

(** *** Querying a history *)

Lemma in_range_spec start_time end_time e :
  in_range start_time end_time e = true ↔
  (∀ t, start_time = Some t → t ≤ e_timestamp e) ∧
  (∀ t, end_time = Some t → e_timestamp e ≤ t).
Proof.
  unfold in_range. rewrite andb_true_iff, !negb_true_iff.
  destruct start_time as [t1|], end_time as [t2|];
    rewrite ?bool_decide_eq_false; split.
  all: try (intros [H1 H2]; split; intros t [= <-]; lia).
  all: try (intros [H1 H2]; split; intros t; done).
  all: try (intros [H1 H2]; split;
            try done; try (specialize (H1 _ eq_refl)); try (specialize (H2 _ eq_refl)); lia).
Qed.

(** An append through the key reaches the list object stored under it,
    whether or not the history is trimmed afterwards. *)
Lemma store_in_history_alias now metric_type server_name d s r :
  wf s →
  _metric_history s !! history_key metric_type server_name = Some r →
  contents (_store_in_history now metric_type server_name d s) r =
  contents s r ++ [Entry now d].
Proof.
  intros [Hb Hi] Hk. unfold _store_in_history, defaultdict_get. rewrite Hk.
  set (s2 := append r (Entry now d) s).
  assert (H2 : contents s2 r = contents s r ++ [Entry now d]).
  { unfold contents at 1. unfold s2, append. simpl. by rewrite lookup_insert_eq. }
  case_bool_decide; [|done].
  unfold store_new, alloc_list, bind, contents. simpl.
  rewrite lookup_insert_ne by (apply Hb in Hk; lia).
  by rewrite lookup_insert_eq.
Qed.

(** C9, as stated, fails when no bound is given: the list returned is
    the stored list itself, and an entry appended afterwards shows in
    it. *)
Lemma unfiltered_history_is_live :
  let e1 := Entry 10 [("cpu", VFloat "10")] in
  let e2 := Entry 20 [("cpu", VFloat "12")] in
  let s1 := _store_in_history 10 "system" "hostA" (e_data e1) (init 60) in
  let r := (get_metrics_history "system" "hostA" None None s1).1 in
  let s2 := (get_metrics_history "system" "hostA" None None s1).2 in
  let s3 := _store_in_history 20 "system" "hostA" (e_data e2) s2 in
  contents s2 r = [e1] ∧ contents s3 r = [e1; e2] ∧
  ¬ (∀ e, e ∈ contents s3 r → e ∈ contents s2 r).
Proof.
  intros e1 e2 s1 r s2 s3.
  assert (H2 : contents s2 r = [e1]) by (by vm_compute).
  assert (H3 : contents s3 r = [e1; e2]) by (by vm_compute).
  split; [done|]. split; [done|]. rewrite H2, H3. intros H.
  specialize (H e2 ltac:(set_solver)).
  apply list_elem_of_singleton in H. discriminate H.
Qed.

(** C9 (amended): on a service reached from the empty one,
    [get_metrics_history] returns a list whose entries are those of the
    stored history whose timestamp is not before the start and not after
    the end, where given, in the stored order.  When a bound is given the
    list is a new object, which no later append or query changes.  When no
    bound is given and a history is stored under the key, the result is the
    stored list object itself, and the next append under that key adds its
    entry to it.  When no bound is given and no history is stored under the
    key, the result is a new empty list: [.get(key, [])] stores nothing, the
    key is still without a history afterwards, and the list stays empty
    whatever is appended or asked later. *)
Theorem history_query_filters_by_bounds
    ttl0 ops metric_type server_name start_time end_time :
  let s := hist_run ops (init ttl0) in
  let key := history_key metric_type server_name in
  let r := (get_metrics_history metric_type server_name start_time end_time s).1 in
  let s' := (get_metrics_history metric_type server_name start_time end_time s).2 in
  contents s' r = filter (λ e, in_range start_time end_time e = true) (series s key) ∧
  (∀ e, e ∈ contents s' r ↔
        e ∈ series s key ∧
        (∀ t, start_time = Some t → t ≤ e_timestamp e) ∧
        (∀ t, end_time = Some t → e_timestamp e ≤ t)) ∧
  match start_time, end_time with
  | None, None =>
      match _metric_history s !! key with
      | Some r0 =>
          r = r0 ∧
          ∀ now d, contents (_store_in_history now metric_type server_name d s') r =
                   contents s' r ++ [Entry now d]
      | None =>
          contents s' r = [] ∧
          _metric_history s' !! key = None ∧
          ∀ later, contents (hist_run later s') r = []
      end
  | _, _ => ∀ later, contents (hist_run later s') r = contents s' r
  end.
Proof.
  intros s key r s'.
  destruct (hist_run_spec ops (init ttl0) (wf_init ttl0)) as [Hwf _]. fold s in Hwf.
  destruct (get_metrics_history_spec metric_type server_name start_time end_time s Hwf)
    as (Hwf' & Haf & Hser & Hc & Hcase).
  fold key r s' in Hwf', Haf, Hser, Hc, Hcase.
  split; [done|]. split.
  - intros e. rewrite Hc, list_elem_of_filter, in_range_spec. tauto.
  - assert (Hsnap : detached s' r → ∀ later, contents (hist_run later s') r = contents s' r).
    { intros Hd later. destruct (hist_run_spec later s' Hwf') as [_ Haf'].
      destruct (after_detached _ _ Haf' r Hd) as [_ Hl]. unfold contents. by rewrite Hl. }
    destruct start_time as [st|], end_time as [en|]; try (by apply Hsnap).
    destruct (_metric_history s !! key) as [r0|] eqn:Hk.
    + assert (Hr : r = r0 ∧ s' = s).
      { unfold r, s', get_metrics_history, dict_get_default. fold key. by rewrite Hk. }
      destruct Hr as [-> Hs']. split; [done|]. intros now d.
      rewrite Hs'. by apply store_in_history_alias.
    + assert (He : contents s' r = []).
      { rewrite Hc. unfold series. by rewrite Hk. }
      split; [done|]. split.
      * unfold s', get_metrics_history, dict_get_default. fold key. by rewrite Hk.
      * intros later. destruct Hcase as [Hs|Hd]; [done|].
        by rewrite Hsnap.
Qed.

(** *** The cache on the clock *)

Lemma is_fresh_within_ttl now e :
  0 ≤ now - timestamp e ≤ Clock.seconds_of (ttl e) →
  is_fresh now e = true.
Proof.
  intros [H0 Hle]. unfold is_fresh. apply bool_decide_eq_true.
  pose proof (Clock.timedelta_seconds_le _ H0) as Hs.
  unfold Clock.seconds_of, Clock.us_per_second in *. lia.
Qed.

Lemma is_fresh_within_a_day now e :
  0 ≤ now - timestamp e < Clock.us_per_day →
  is_fresh now e = bool_decide ((now - timestamp e) `div` Clock.us_per_second ≤ ttl e).
Proof. intros H. unfold is_fresh. by rewrite Clock.timedelta_seconds_small. Qed.

Section Lookup.

Variable strip : string → string.
Variable float : string → option value.
Variable ssh : string → string → option result.

(** The commands issued by the loop: the log grows by the commands tried,
    in order, the first of them always. *)
Lemma collect_log server_name cmds metrics log :
  ∃ tried, (collect strip float ssh server_name cmds metrics log).2 = log ++ tried ∧
           (length tried ≤ length cmds)%nat ∧
           (cmds ≠ [] → tried ≠ []).
Proof.
  revert metrics log. induction cmds as [|[metric command] rest IH];
    intros metrics log; simpl.
  - exists []. by rewrite app_nil_r.
  - destruct (ssh server_name command) as [r|].
    + destruct (IH (if bool_decide (exit_code r = 0)
                    then dict_set metric
                           (default (VStr (strip (output r))) (float (strip (output r))))
                           metrics
                    else metrics)
                   (log ++ [(server_name, command)])) as (tried & -> & Hlen & _).
      exists ((server_name, command) :: tried). rewrite <-app_assoc. simpl.
      split; [done|]. split; [lia|done].
    + exists [(server_name, command)]. simpl. split; [done|]. split; [lia|done].
Qed.

(** A usable cache entry is returned as it is: no command is issued, and
    nothing is stored. *)
Lemma get_system_metrics_hit t_lookup t_cache t_history server_name s e :
  _cache s !! _get_cache_key "system" server_name "{}" = Some e →
  is_fresh t_lookup e = true →
  dict_truthy (data e) = true →
  get_system_metrics strip float ssh t_lookup t_cache t_history server_name s =
  (Some (data e), s).
Proof.
  intros Hk Hf Ht. unfold get_system_metrics, _get_from_cache.
  rewrite Hk, Hf. by rewrite Ht.
Qed.

(** Without a usable entry the commands are issued. *)
Lemma get_system_metrics_miss t_lookup t_cache t_history server_name s :
  match _cache s !! _get_cache_key "system" server_name "{}" with
  | Some e => is_fresh t_lookup e = false ∨ dict_truthy (data e) = false
  | None => True
  end →
  ∃ tried, tried ≠ [] ∧
    executed (get_system_metrics strip float ssh t_lookup t_cache t_history
                server_name s).2 = executed s ++ tried.
Proof.
  intros Hmiss. unfold get_system_metrics, _get_from_cache.
  set (key := _get_cache_key "system" server_name "{}") in *.
  assert (Hgo : ∀ s1, executed s1 = executed s →
    ∃ tried, tried ≠ [] ∧
      executed (match collect strip float ssh server_name commands [] (executed s1) with
                | (Some metrics, log) =>
                    (Some metrics,
                     _store_in_history t_history "system" server_name metrics
                       (_store_in_cache t_cache key metrics None (set_executed s1 log)))
                | (None, log) => (None, set_executed s1 log)
                end).2 = executed s ++ tried).
  { intros s1 Hs1.
    destruct (collect_log server_name commands [] (executed s1)) as (tried & Hl & _ & Hne).
    exists tried. split; [by apply Hne|].
    destruct (collect strip float ssh server_name commands [] (executed s1))
      as [[metrics|] log]; simpl in *; subst log; rewrite <-Hs1; [|done].
    destruct (store_in_history_frame t_history "system" server_name metrics
      (_store_in_cache t_cache key metrics None
         (set_executed s1 (executed s1 ++ tried)))) as (_ & _ & ->). done. }
  destruct (_cache s !! key) as [e|] eqn:Hk.
  - destruct (is_fresh t_lookup e) eqn:Hf.
    + destruct Hmiss as [?|Ht]; [done|]. rewrite Ht. by apply Hgo.
    + by apply Hgo.
  - by apply Hgo.
Qed.

End Lookup.

(** *** The cache at concrete times *)

(** A remote side on which every command succeeds and prints [10], and
    one on which every command ends with exit code 1. *)
Definition ssh_up (server_name command : string) : option result :=
  Some (Result 0 "10" "").

Definition ssh_failing (server_name command : string) : option result :=
  Some (Result 1 "" "no such host").

Definition strip_id (s : string) : string := s.
Definition float_any (s : string) : option value := Some (VFloat s).

(** [get_system_metrics] for [hostA], all three clock readings at [t]
    seconds. *)
Definition system_metrics_at (ssh : string → string → option result) (t : Z)
    (s : service) : option dict * service :=
  get_system_metrics strip_id float_any ssh
    (Clock.seconds_of t) (Clock.seconds_of t) (Clock.seconds_of t) "hostA" s.

(** C2, on the code.  With [cache_ttl = 90000] an entry produced at time
    0 is still returned 90001 seconds later and no command is issued: the
    age is read from the [.seconds] field, which is 3601 then.  With the
    default [cache_ttl = 60] the entry is still returned 60.5 seconds after
    it was produced. *)
Theorem entry_older_than_ttl_is_served :
  (let r1 := system_metrics_at ssh_up 0 (init 90000) in
   let r2 := system_metrics_at ssh_up 90001 r1.2 in
   length (executed r1.2) = 4%nat ∧
   Clock.seconds_of 90001 - Clock.seconds_of 0 > Clock.seconds_of (cache_ttl r1.2) ∧
   Clock.timedelta_seconds (Clock.seconds_of 90001 - Clock.seconds_of 0) = 3601 ∧
   r2.1 = r1.1 ∧ executed r2.2 = executed r1.2) ∧
  (let r1 := system_metrics_at ssh_up 0 (init 60) in
   let now := Clock.seconds_of 60 + 500000 in
   let r2 := get_system_metrics strip_id float_any ssh_up now now now "hostA" r1.2 in
   now - Clock.seconds_of 0 > Clock.seconds_of (cache_ttl r1.2) ∧
   r2.1 = r1.1 ∧ executed r2.2 = executed r1.2).
Proof. repeat split; by vm_compute. Qed.

(** An empty result is cached but never served: when every command fails
    the cached dictionary is empty, which [if cached_data:] takes for a
    miss, and the commands are issued again 30 seconds later. *)
Lemma empty_result_is_fetched_again :
  let r1 := system_metrics_at ssh_failing 0 (init 60) in
  let r2 := system_metrics_at ssh_failing 30 r1.2 in
  r1.1 = Some [] ∧
  (data <$> _cache r1.2 !! _get_cache_key "system" "hostA" "{}") = Some [] ∧
  length (executed r1.2) = 4%nat ∧ length (executed r2.2) = 8%nat.
Proof. repeat split; by vm_compute. Qed.

(** The example of the specification, with [cache_ttl = 60]: the call at
    0 s issues the commands and caches the result, the call at 30 s
    returns the cached result without issuing a command, and the call at
    61 s issues the commands again. *)
Lemma cache_example_ttl_60 :
  let r0 := system_metrics_at ssh_up 0 (init 60) in
  let r30 := system_metrics_at ssh_up 30 r0.2 in
  let r61 := system_metrics_at ssh_up 61 r30.2 in
  length (executed (init 60)) = 0%nat ∧
  length (executed r0.2) = 4%nat ∧
  r30.1 = r0.1 ∧ r30.2 = r0.2 ∧
  length (executed r61.2) = 8%nat.
Proof.
  intros r0 r30 r61.
  assert (H30 : r30 = (r0.1, r0.2)).
  { unfold r30, system_metrics_at.
    assert (Hk : _cache r0.2 !! _get_cache_key "system" "hostA" "{}" =
                 Some (Cache [("cpu", VFloat "10"); ("memory", VFloat "10");
                              ("disk", VFloat "10"); ("load", VFloat "10")] 0 60))
      by (by vm_compute).
    rewrite (get_system_metrics_hit _ _ _ _ _ _ _ _ _ Hk); [|by vm_compute|done].
    f_equal; by vm_compute. }
  rewrite H30. simpl. repeat split; by vm_compute.
Qed.

Section Served.

Variable strip : string → string.
Variable float : string → option value.
Variable ssh : string → string → option result.

(** What holds of the cache on the clock: a non-empty entry whose age is
    between 0 and its ttl is returned without a command being issued and
    without a change of state; an entry whose age is at least a full second
    more than its ttl, and less than a day, is dropped and the commands are
    issued. *)
Theorem cache_serves_within_ttl t_lookup t_cache t_history server_name s e :
  _cache s !! _get_cache_key "system" server_name "{}" = Some e →
  let r := get_system_metrics strip float ssh t_lookup t_cache t_history
             server_name s in
  (0 ≤ t_lookup - timestamp e ≤ Clock.seconds_of (ttl e) →
   dict_truthy (data e) = true →
   r = (Some (data e), s)) ∧
  (Clock.seconds_of (ttl e + 1) ≤ t_lookup - timestamp e < Clock.us_per_day →
   0 ≤ ttl e →
   ∃ tried, tried ≠ [] ∧ executed r.2 = executed s ++ tried).
Proof.
  intros Hk r. split.
  - intros Hage Ht. apply get_system_metrics_hit; [done| |done].
    by apply is_fresh_within_ttl.
  - intros Hage Httl. apply get_system_metrics_miss. rewrite Hk. left.
    rewrite is_fresh_within_a_day.
    + apply bool_decide_eq_false.
      unfold Clock.seconds_of, Clock.us_per_second in *.
      assert (ttl e + 1 ≤ (t_lookup - timestamp e) `div` 1000000)
        by (apply Z.div_le_lower_bound; lia).
      lia.
    + unfold Clock.seconds_of, Clock.us_per_second in *. lia.
Qed.

(** An entry with a ttl of 86399 seconds or more is never taken for
    expired, whenever it is looked at: the lookup returns its value and
    leaves it in place, and the sweep keeps it.  [get_system_metrics] returns
    it without issuing a command when its value is not empty; an empty value
    is taken for a miss and the commands are issued. *)
Theorem long_ttl_never_expires t_lookup t_cache t_history server_name s e :
  _cache s !! _get_cache_key "system" server_name "{}" = Some e →
  86399 ≤ ttl e →
  let r := get_system_metrics strip float ssh t_lookup t_cache t_history
             server_name s in
  _get_from_cache t_lookup (_get_cache_key "system" server_name "{}") s =
    (Some (data e), s) ∧
  _cache (_cleanup_cache t_lookup s) !! _get_cache_key "system" server_name "{}" =
    Some e ∧
  (dict_truthy (data e) = true → r = (Some (data e), s)) ∧
  (dict_truthy (data e) = false →
   ∃ tried, tried ≠ [] ∧ executed r.2 = executed s ++ tried).
Proof.
  intros Hk Httl r.
  assert (Hf : is_fresh t_lookup e = true).
  { unfold is_fresh. apply bool_decide_eq_true.
    pose proof (Clock.timedelta_seconds_range (t_lookup - timestamp e)). lia. }
  split_and!.
  - unfold _get_from_cache. by rewrite Hk, Hf.
  - unfold _cleanup_cache. simpl. by apply map_lookup_filter_Some.
  - intros Ht. by apply get_system_metrics_hit.
  - intros Ht. apply get_system_metrics_miss. rewrite Hk. by right.
Qed.

End Served.

Lemma long_ttl_never_expires_witness :
  let r0 := system_metrics_at ssh_up 0 (init 90000) in
  system_metrics_at ssh_up 864000 r0.2 = (r0.1, r0.2).
Proof.
  intros r0.
  assert (Hk : _cache r0.2 !! _get_cache_key "system" "hostA" "{}" =
               Some (Cache [("cpu", VFloat "10"); ("memory", VFloat "10");
                            ("disk", VFloat "10"); ("load", VFloat "10")] 0 90000))
    by (by vm_compute).
  unfold system_metrics_at.
  destruct (long_ttl_never_expires strip_id float_any ssh_up
              (Clock.seconds_of 864000) (Clock.seconds_of 864000)
              (Clock.seconds_of 864000) "hostA" r0.2 _ Hk ltac:(by vm_compute))
    as (_ & _ & Hhit & _).
  rewrite Hhit by done.
  f_equal; by vm_compute.
Defined.

Lemma cache_serves_within_ttl_witness :
  let r0 := system_metrics_at ssh_up 0 (init 60) in
  system_metrics_at ssh_up 30 r0.2 = (r0.1, r0.2).
Proof.
  intros r0.
  assert (Hk : _cache r0.2 !! _get_cache_key "system" "hostA" "{}" =
               Some (Cache [("cpu", VFloat "10"); ("memory", VFloat "10");
                            ("disk", VFloat "10"); ("load", VFloat "10")] 0 60))
    by (by vm_compute).
  destruct (cache_serves_within_ttl strip_id float_any ssh_up
              (Clock.seconds_of 30) (Clock.seconds_of 30) (Clock.seconds_of 30)
              "hostA" r0.2 _ Hk) as [Hhit _].
  unfold system_metrics_at. rewrite Hhit; [|by vm_compute|done].
  f_equal; by vm_compute.
Defined.

(** *** A cache refresh is one append to the history *)

(** The part of the service that the history operations read and write. *)
Definition history_state (s : service)
    : gmap string ref * gmap ref (list entry) * ref * Z :=
  (_metric_history s, lists s, next_list s, _history_max_size s).

Lemma store_in_history_local now metric_type server_name d s s0 :
  history_state s = history_state s0 →
  history_state (_store_in_history now metric_type server_name d s) =
  history_state (_store_in_history now metric_type server_name d s0).
Proof.
  destruct s as [t c h l n m x], s0 as [t0 c0 h0 l0 n0 m0 x0].
  unfold history_state. simpl. intros [= -> -> -> ->].
  unfold _store_in_history, defaultdict_get, store_new, alloc_list, bind, append,
    series, contents. simpl.
  destruct (h0 !! history_key metric_type server_name); simpl;
    case_bool_decide; done.
Qed.

(** What [get_system_metrics] does to the histories.  When the lookup
    gives a non-empty value, that value is returned and the service is as it
    was.  Otherwise the commands are issued: when one of them raises, the
    call ends with the exception and the histories are as they were; when
    they all return, the metrics collected are returned and the histories
    are what one call of [_store_in_history] with these metrics, for the key
    of the server, makes of them. *)
Lemma refresh_is_one_append strip float ssh t_lookup t_cache t_history server_name s :
  let r := get_system_metrics strip float ssh t_lookup t_cache t_history
             server_name s in
  let cached :=
    (_get_from_cache t_lookup (_get_cache_key "system" server_name "{}") s).1 in
  if match cached with Some d => dict_truthy d | None => false end
  then r = (cached, s)
  else match (collect strip float ssh server_name commands [] (executed s)).1 with
       | Some metrics =>
           r.1 = Some metrics ∧
           history_state r.2 =
             history_state (_store_in_history t_history "system" server_name metrics s)
       | None => r.1 = None ∧ history_state r.2 = history_state s
       end.
Proof.
  cbv zeta. unfold get_system_metrics.
  destruct (_get_from_cache t_lookup (_get_cache_key "system" server_name "{}") s)
    as [cached s1] eqn:Hg.
  cbn [fst].
  assert (Hs1 : history_state s1 = history_state s ∧ executed s1 = executed s ∧
                (match cached with Some d => dict_truthy d | None => false end = true →
                 s1 = s)).
  { unfold _get_from_cache in Hg.
    destruct (_cache s !! _get_cache_key "system" server_name "{}") as [e|];
      [destruct (is_fresh t_lookup e)|]; by injection Hg as <- <-. }
  destruct Hs1 as (Hh & He & Hhit).
  destruct (match cached with Some d => dict_truthy d | None => false end).
  - by rewrite Hhit.
  - rewrite He.
    destruct (collect strip float ssh server_name commands [] (executed s))
      as [[metrics|] log]; cbn [fst snd]; [|done].
    split; [done|]. apply store_in_history_local. by rewrite <-Hh.
Qed.

End Metrics.

(** ** More on the connection pool: the reaper, reuse, and the close log *)
Module PoolFacts.

Import Pool.

(** The connections one pass of the reaper closes. *)
Definition reaped (current_time max_idle_time : Z) (st : state) : list Conn :=
  map_to_list (connections st) ≫= λ kv,
    (filter (λ e, expired current_time max_idle_time e = true) kv.2).*1.

Lemma expired_spec now mi (e : Conn * Z) : expired now mi e = true ↔ now - e.2 > mi.
Proof. unfold expired. apply bool_decide_eq_true. Qed.

Lemma not_expired_spec now mi (e : Conn * Z) : expired now mi e = false ↔ now - e.2 ≤ mi.
Proof. unfold expired. rewrite bool_decide_eq_false. lia. Qed.

Lemma elem_of_reaped now mi st c :
  c ∈ reaped now mi st ↔
  ∃ srv l t, connections st !! srv = Some l ∧ (c, t) ∈ l ∧ now - t > mi.
Proof.
  unfold reaped. rewrite list_elem_of_bind. split.
  - intros ([srv l] & Hc & Hin). simpl in Hc.
    apply elem_of_map_to_list in Hin.
    apply list_elem_of_fmap in Hc as ([c' t] & -> & Hf).
    apply list_elem_of_filter in Hf as [Hexp Hl]. apply expired_spec in Hexp.
    by exists srv, l, t.
  - intros (srv & l & t & Hs & Hin & Hexp). exists (srv, l). split.
    + simpl. apply list_elem_of_fmap. exists (c, t). split; [done|].
      apply list_elem_of_filter. split; [by apply expired_spec|done].
    + by apply elem_of_map_to_list.
Qed.

Lemma NoDup_fst_functional {A B} (l : list (A * B)) x y1 y2 :
  NoDup l.*1 → (x, y1) ∈ l → (x, y2) ∈ l → y1 = y2.
Proof.
  induction l as [|[a b] l IH]; simpl; intros Hnd H1 H2.
  - by apply elem_of_nil in H1.
  - apply NoDup_cons in Hnd as [Ha Hnd].
    apply elem_of_cons in H1 as [H1|H1]; apply elem_of_cons in H2 as [H2|H2].
    + congruence.
    + injection H1 as -> ->. exfalso. apply Ha.
      apply list_elem_of_fmap. by exists (a, y2).
    + injection H2 as -> ->. exfalso. apply Ha.
      apply list_elem_of_fmap. by exists (a, y1).
    + by apply IH.
Qed.

(** One pass of the reaper, server by server: what stays are the entries
    that are not older than [max_idle_time], in their order and with their
    timestamps; no server is left with an empty list; and the close log
    grows by the connections that were older, and by those only. *)
Theorem reaper_keeps_the_recent now mi st server_name :
  let st' := cleanup_idle_connections now mi st in
  let before := default [] (connections st !! server_name) in
  let after := default [] (connections st' !! server_name) in
  (∀ c t, (c, t) ∈ after ↔ (c, t) ∈ before ∧ now - t ≤ mi) ∧
  after `sublist_of` before ∧
  connections st' !! server_name ≠ Some [] ∧
  closed st' = closed st ++ reaped now mi st ∧
  (∀ c, c ∈ reaped now mi st ↔
        ∃ srv l t, connections st !! srv = Some l ∧ (c, t) ∈ l ∧ now - t > mi).
Proof.
  intros st' before after.
  assert (Hafter : after = filter (λ e, expired now mi e = false) before).
  { unfold after, before, st', cleanup_idle_connections. simpl. rewrite lookup_omap.
    destruct (connections st !! server_name) as [l|]; simpl; [|done].
    unfold keep_active. by destruct (filter _ l). }
  split; [|split; [|split; [|split]]].
  - intros c t. rewrite Hafter, list_elem_of_filter, not_expired_spec. simpl. tauto.
  - rewrite Hafter. apply sublist_filter.
  - unfold st', cleanup_idle_connections. simpl. rewrite lookup_omap.
    destruct (connections st !! server_name) as [l|]; simpl; [|done].
    unfold keep_active. by destruct (filter _ l).
  - done.
  - apply elem_of_reaped.
Qed.

(** *** No connection is closed twice *)

(** The close log has no repetition, and what is in it is neither idle
    nor leased, and is an object that exists. *)
Record settled (s : system) : Prop := Settled {
  closed_nodup : NoDup (closed (pool s));
  closed_not_idle : ∀ c srv, c ∈ closed (pool s) → c ∉ idle (pool s) srv;
  closed_not_leased : ∀ c, c ∈ closed (pool s) → c ∉ (leases s).*2;
  closed_exists : ∀ c, c ∈ closed (pool s) → (c < next_conn (pool s))%nat;
}.

Lemma settled_start max_conns : settled (start max_conns).
Proof.
  split; simpl; [constructor|..]; intros *; intros H; by apply elem_of_nil in H.
Qed.

Lemma reaped_idle now mi st c :
  c ∈ reaped now mi st → ∃ srv, c ∈ idle st srv.
Proof.
  intros (srv & l & t & Hs & Hin & _)%elem_of_reaped. exists srv.
  unfold idle. rewrite Hs. simpl. apply list_elem_of_fmap. by exists (c, t).
Qed.

Lemma reaped_nodup now mi s : separated s → NoDup (reaped now mi (pool s)).
Proof.
  intros Hsep. unfold reaped. apply NoDup_bind.
  - intros [k1 l1] [k2 l2] c H1%elem_of_map_to_list H2%elem_of_map_to_list Hc1 Hc2.
    simpl in *.
    assert (Hk : k1 = k2).
    { apply (sep_servers s Hsep k1 k2 c); unfold idle.
      - rewrite H1. simpl. eapply elem_of_sublist; [exact Hc1|].
        apply fmap_sublist, sublist_filter.
      - rewrite H2. simpl. eapply elem_of_sublist; [exact Hc2|].
        apply fmap_sublist, sublist_filter. }
    subst k2. rewrite H1 in H2. by injection H2 as <-.
  - intros [k l] Hk%elem_of_map_to_list. simpl.
    eapply sublist_NoDup; [|apply fmap_sublist, sublist_filter].
    pose proof (sep_nodup s Hsep k) as Hnd. unfold idle in Hnd. by rewrite Hk in Hnd.
  - apply NoDup_map_to_list.
Qed.

Lemma settled_step o s : separated s → settled s → settled (step o s).
Proof.
  intros Hsep [Hnd Hci Hcl Hce].
  pose proof (separated_step o s Hsep) as Hsep'.
  destruct o as [srv p k|i now o|now mi]; simpl in *.
  - (* Acquire *)
    pose proof (acquire_idle srv p k (pool s)) as (_ & Hclosed & Hoth & tail & Htail & Hr).
    simpl in Hr. destruct (acquire srv p k (pool s)) as [r st']. simpl in *.
    assert (Hsub : ∀ c srv', c ∈ idle st' srv' → c ∈ idle (pool s) srv').
    { intros c srv' Hin. destruct (decide (srv' = srv)) as [->|Hne].
      - rewrite Htail. apply elem_of_app. by left.
      - by rewrite <-Hoth. }
    destruct r as [c|]; simpl.
    + assert (Hc : c ∉ closed (pool s)).
      { destruct Hr as [(-> & _ & _)|[-> _]].
        - intros Hin. apply (Hci c srv Hin). rewrite Htail.
          apply elem_of_app. right. left.
        - intros Hin%Hce. lia. }
      assert (Hnext : (next_conn (pool s) ≤ next_conn st')%nat)
        by (destruct Hr as [(_ & _ & ->)|[_ ->]]; lia).
      split; simpl; rewrite ?Hclosed, ?fmap_app; simpl.
      * done.
      * intros x srv' Hx Hin%Hsub. by eapply Hci.
      * intros x Hx [Hin| ->%list_elem_of_singleton]%elem_of_app; [by eapply Hcl|done].
      * intros x Hx%Hce. lia.
    + split; simpl; rewrite ?Hclosed.
      * done.
      * intros x srv' Hx Hin%Hsub. by eapply Hci.
      * done.
      * intros x Hx%Hce. lia.
  - (* Release *)
    destruct (leases s !! i) as [[srv c]|] eqn:Hi; [|by split].
    assert (Hlook : (leases s).*2 !! i = Some c) by (by rewrite list_lookup_fmap, Hi).
    assert (Hc : c ∈ (leases s).*2) by (by eapply list_elem_of_lookup_2).
    pose proof (NoDup_delete_lookup _ _ _ (sep_leases s Hsep) Hlook) as Hgone.
    rewrite <-list_fmap_delete in Hgone.
    assert (Hold : ∀ x, x ∈ (delete i (leases s)).*2 → x ∈ (leases s).*2).
    { intros x. rewrite list_fmap_delete. apply list_elem_of_delete_inv. }
    pose proof (release_idle srv c now o (pool s)) as (_ & Hnext & Hcase).
    simpl in *. set (st' := release srv c now o (pool s)) in *.
    destruct Hcase as [[Hidle Hclosed]|[Hidle Hclosed]];
      split; simpl; fold st'; rewrite Hclosed, ?Hnext.
    + done.
    + intros x srv' Hx. rewrite Hidle. destruct (decide (srv = srv')); [|by apply Hci].
      intros [Hin| ->%list_elem_of_singleton]%elem_of_app; [by eapply Hci|].
      by eapply Hcl.
    + intros x Hx Hin%Hold. by eapply Hcl.
    + done.
    + apply NoDup_app. split; [done|]. split; [|apply NoDup_singleton].
      intros x Hx ->%list_elem_of_singleton. by eapply Hcl.
    + intros x srv' [Hx| ->%list_elem_of_singleton]%elem_of_app; rewrite Hidle.
      * by apply Hci.
      * by apply (sep_leased s Hsep).
    + intros x [Hx| ->%list_elem_of_singleton]%elem_of_app; [|done].
      intros Hin%Hold. by eapply Hcl.
    + intros x [Hx| ->%list_elem_of_singleton]%elem_of_app; [by apply Hce|].
      by apply (sep_fresh_leased s Hsep).
  - (* Reap *)
    fold (reaped now mi (pool s)).
    split; simpl; fold (reaped now mi (pool s)).
    + apply NoDup_app. split; [done|]. split; [|by apply reaped_nodup].
      intros x Hx [srv Hin]%reaped_idle. by eapply Hci.
    + intros x srv' [Hx|Hx]%elem_of_app Hin.
      * apply idle_cleanup_sub in Hin. by eapply Hci.
      * apply elem_of_reaped in Hx as (srv & l & t & Hs & Hl & Hexp).
        rewrite idle_cleanup in Hin.
        apply list_elem_of_fmap in Hin as ([c' t'] & -> & Hf). simpl in *.
        apply list_elem_of_filter in Hf as [Hkeep Hl'].
        apply not_expired_spec in Hkeep. simpl in Hkeep.
        assert (Hsrv : srv = srv').
        { apply (sep_servers s Hsep srv srv' c'); unfold idle.
          - rewrite Hs. simpl. apply list_elem_of_fmap. by exists (c', t).
          - apply list_elem_of_fmap. by exists (c', t'). }
        subst srv'. rewrite Hs in Hl'. simpl in Hl'.
        pose proof (sep_nodup s Hsep srv) as Hn. unfold idle in Hn. rewrite Hs in Hn.
        simpl in Hn. pose proof (NoDup_fst_functional _ _ _ _ Hn Hl Hl'). lia.
    + intros x [Hx|[srv Hx]%reaped_idle]%elem_of_app Hin; [by eapply Hcl|].
      by eapply (sep_leased s Hsep).
    + intros x [Hx|[srv Hx]%reaped_idle]%elem_of_app; [by apply Hce|].
      by eapply (sep_fresh_idle s Hsep).
Qed.

Lemma settled_run ops s : separated s → settled s → settled (run ops s).
Proof.
  revert s. induction ops as [|o ops IH]; intros s Hsep Hs; [done|].
  simpl. apply IH; [by apply separated_step|by apply settled_step].
Qed.

(** Started empty, after any sequence of acquire, release and reaper
    steps no connection has been closed twice, and a connection that has
    been closed is in no idle list and is held by no lease: it is never
    handed out again. *)
Theorem closed_connections_are_gone max_conns ops :
  let s := run ops (start max_conns) in
  NoDup (closed (pool s)) ∧
  ∀ c, c ∈ closed (pool s) →
       (∀ server_name l, connections (pool s) !! server_name = Some l → c ∉ l.*1) ∧
       (∀ server_name, (server_name, c) ∉ leases s).
Proof.
  intros s.
  pose proof (settled_run ops _ (separated_start max_conns) (settled_start max_conns))
    as [Hnd Hci Hcl _].
  fold s in Hnd, Hci, Hcl. split; [done|]. intros c Hc. split.
  - intros srv l Hl. specialize (Hci c srv Hc). unfold idle in Hci. by rewrite Hl in Hci.
  - intros srv Hin. apply (Hcl c Hc). apply list_elem_of_fmap. by exists (srv, c).
Qed.

Lemma pop_snoc {A} (l : list A) x : pop (l ++ [x]) = Some (x, l).
Proof.
  pose proof (pop_spec (l ++ [x])) as H.
  destruct (pop (l ++ [x])) as [[y rest]|].
  - apply app_inj_tail in H as [-> ->]. done.
  - by destruct l.
Qed.

(** A connection that was returned to the pool is the one the next
    acquire for that server hands out, when its probe succeeds: no new
    connection is made, nothing is closed, and the idle list is back to what
    it was before the return. *)
Theorem returned_connection_is_reused server_name c now connect_ok st :
  Z.of_nat (length (default [] (connections st !! server_name))) < max_connections st →
  let st1 := release server_name c now Returned st in
  let r := acquire server_name true connect_ok st1 in
  r.1 = Yielded c ∧
  default [] (connections r.2 !! server_name) =
    default [] (connections st !! server_name) ∧
  closed r.2 = closed st ∧
  next_conn r.2 = next_conn st.
Proof.
  intros Hroom st1 r.
  assert (H1 : connections st1 !! server_name =
               Some (default [] (connections st !! server_name) ++ [(c, now)]) ∧
               closed st1 = closed st ∧ next_conn st1 = next_conn st).
  { unfold st1, release.
    destruct (connections st !! server_name) as [l|] eqn:Hl; simpl in *.
    - rewrite Hl. simpl. rewrite bool_decide_true by done. simpl.
      by rewrite lookup_insert_eq.
    - rewrite lookup_insert_eq. simpl. rewrite bool_decide_true by done. simpl.
      by rewrite lookup_insert_eq. }
  destruct H1 as (Hl1 & Hc1 & Hn1).
  unfold r, acquire. rewrite Hl1, pop_snoc. simpl.
  rewrite lookup_insert_eq. simpl. done.
Qed.

Lemma returned_connection_is_reused_witness :
  let st1 := release "hostA" 3%nat 50 Returned (init 10) in
  (acquire "hostA" true false st1).1 = Yielded 3%nat.
Proof.
  apply (returned_connection_is_reused "hostA" 3%nat 50 false (init 10)).
  simpl. rewrite lookup_empty. simpl. lia.
Defined.

(** A second pass of the reaper at the same time changes nothing: it
    closes no connection and leaves the pool map as the first pass left
    it. *)
Theorem reaper_twice_is_once now mi st :
  let st1 := cleanup_idle_connections now mi st in
  let st2 := cleanup_idle_connections now mi st1 in
  connections st2 = connections st1 ∧ closed st2 = closed st1.
Proof.
  intros st1 st2.
  assert (Hkept : ∀ srv l, connections st1 !! srv = Some l →
            filter (λ e, expired now mi e = false) l = l ∧ l ≠ []).
  { intros srv l. unfold st1, cleanup_idle_connections. simpl. rewrite lookup_omap.
    destruct (connections st !! srv) as [l0|]; simpl; [|done].
    unfold keep_active.
    destruct (filter (λ e, expired now mi e = false) l0) as [|e l'] eqn:Hf; [done|].
    intros [= <-]. split; [|done]. rewrite <-Hf.
    apply list_filter_filter_l. done. }
  split.
  - apply map_eq. intros srv.
    change (connections st2) with (omap (keep_active now mi) (connections st1)).
    rewrite lookup_omap.
    destruct (connections st1 !! srv) as [l|] eqn:Hl; simpl; [|done].
    destruct (Hkept srv l Hl) as [Hf Hne]. unfold keep_active. rewrite Hf.
    by destruct l.
  - change (closed st2) with (closed st1 ++ reaped now mi st1).
    assert (Hnil : reaped now mi st1 = []).
    { apply elem_of_nil_inv. intros c (srv & l & t & Hl & Hin & Hexp)%elem_of_reaped.
      destruct (Hkept srv l Hl) as [Hf _]. rewrite <-Hf in Hin.
      apply list_elem_of_filter in Hin as [Hkeep _].
      apply not_expired_spec in Hkeep. simpl in Hkeep. lia. }
    rewrite Hnil. by rewrite app_nil_r.
Qed.

End PoolFacts.

(** ** The configured servers ([ConfigManager] in [server/utils/config.py]) *)
Module Config.

Import Py.

(** [d[k]] and [k in d] on a dictionary. *)
Fixpoint dict_lookup (k : string) (d : dict) : option value :=
  match d with
  | [] => None
  | (k', v) :: d' => if decide (k = k') then Some v else dict_lookup k d'
  end.

(** [v == s] for a value and a [str]. *)
Definition is_str (s : string) (v : value) : bool :=
  match v with
  | VStr s' => bool_decide (s' = s)
  | _ => false
  end.

(** [isinstance(v, int)]; [bool] is a subclass of [int]. *)
Definition is_int (v : value) : bool :=
  match v with
  | VInt _ | VBool _ => true
  | _ => false
  end.

(** What can leave a method of the manager as an exception. *)
Inductive error :=
| MissingServerFields (fields : list string)
| MissingSSHFields (fields : list string)
| PortNotInteger
| NoCredentials
| NoDockerHost
| MissingTLSFields (fields : list string)
| KeyError (key : string)
| SaveFailed.

(** [[field for field in fields if field not in server]] *)
Definition missing (fields : list string) (server : dict) : list string :=
  filter (λ f, dict_lookup f server = None) fields.

Section Validation.

(** The truth value of a float, read off its text. *)
Variable float_truthy : string → bool.

Definition truthy (v : value) : bool :=
  match v with
  | VNone => false
  | VBool b => b
  | VInt n => negb (bool_decide (n = 0))
  | VFloat repr => float_truthy repr
  | VStr s => negb (bool_decide (s = ""))
  | VList l => negb (bool_decide (l = []))
  | VDict d => negb (bool_decide (d = []))
  end.

(** The truth value of [server.get(k)]. *)
Definition get_truthy (k : string) (server : dict) : bool :=
  match dict_lookup k server with
  | Some v => truthy v
  | None => false
  end.

Definition type_is (t : string) (server : dict) : bool :=
  match dict_lookup "type" server with
  | Some v => is_str t v
  | None => false
  end.

(** [_validate_server_config]: the exception raised, or the dictionary as
    the method leaves it (a [docker_socket] server gets its default
    [socket_path] written into it). *)
Definition _validate_server_config (server : dict) : error + dict :=
  match missing ["name"; "type"] server with
  | _ :: _ as missing_fields => inl (MissingServerFields missing_fields)
  | [] =>
      if type_is "ssh" server then
        match missing ["host"; "port"; "username"] server with
        | _ :: _ as missing_ssh_fields => inl (MissingSSHFields missing_ssh_fields)
        | [] =>
            if negb (from_option is_int false (dict_lookup "port" server)) then
              inl PortNotInteger
            else if negb (get_truthy "password" server || get_truthy "key_path" server) then
              inl NoCredentials
            else inr server
        end
      else if type_is "docker_socket" server then
        match dict_lookup "socket_path" server with
        | None => inr (dict_set "socket_path" (VStr "/var/run/docker.sock") server)
        | Some _ => inr server
        end
      else if type_is "docker_remote" server then
        match dict_lookup "docker_host" server with
        | None => inl NoDockerHost
        | Some _ =>
            if get_truthy "use_tls" server then
              match missing ["cert_path"; "key_path"; "ca_path"] server with
              | _ :: _ as missing_tls_fields => inl (MissingTLSFields missing_tls_fields)
              | [] => inr server
              end
            else inr server
        end
      else inr server
  end.

(** [get_server]: the first server whose name is [name]; the generator
    stops there, and raises [KeyError] at a server without a name that
    comes before. *)
Fixpoint get_server (servers : list dict) (name : string) : error + option dict :=
  match servers with
  | [] => inr None
  | server :: rest =>
      match dict_lookup "name" server with
      | None => inl (KeyError "name")
      | Some v => if is_str name v then inr (Some server) else get_server rest name
      end
  end.

(** [add_server]; [save_ok] says whether [save_servers] succeeds.  The
    result is the exception or [None], and the list of servers the manager
    holds afterwards. *)
Definition add_server (server_config : dict) (save_ok : bool)
    (servers : list dict) : (error + unit) * list dict :=
  match _validate_server_config server_config with
  | inl e => (inl e, servers)
  | inr server_config' =>
      let servers' := servers ++ [server_config'] in
      if save_ok then (inr (), servers') else (inl SaveFailed, servers')
  end.

(** [[s for s in self._servers if s['name'] != name]] *)
Fixpoint without (name : string) (servers : list dict) : error + list dict :=
  match servers with
  | [] => inr []
  | s :: rest =>
      match dict_lookup "name" s with
      | None => inl (KeyError "name")
      | Some v =>
          match without name rest with
          | inl e => inl e
          | inr rest' => inr (if is_str name v then rest' else s :: rest')
          end
      end
  end.

(** [remove_server] *)
Definition remove_server (name : string) (save_ok : bool)
    (servers : list dict) : (error + bool) * list dict :=
  match without name servers with
  | inl e => (inl e, servers)
  | inr servers' =>
      if bool_decide (length servers' < length servers)%nat then
        if save_ok then (inr true, servers') else (inl SaveFailed, servers')
      else (inr false, servers')
  end.

(** [SSHService._create_connection]: the keys of the server it reads
    before it connects. *)
Definition connection_fields (server : dict) : list string :=
  if get_truthy "key_path" server
  then ["key_path"; "host"; "port"; "username"]
  else ["host"; "port"; "username"; "password"].

(** Every server has a name. *)
Definition named (servers : list dict) : Prop :=
  Forall (λ s, is_Some (dict_lookup "name" s)) servers.

End Validation.

Section Facts.

Variable float_truthy : string → bool.

Lemma dict_lookup_set k k' v d :
  dict_lookup k (dict_set k' v d) =
  if decide (k = k') then Some v else dict_lookup k d.
Proof.
  induction d as [|[k0 v0] d IH]; simpl.
  - by destruct (decide (k = k')).
  - destruct (decide (k' = k0)) as [->|Hne]; simpl.
    + destruct (decide (k = k0)); done.
    + rewrite IH. destruct (decide (k = k0)) as [->|]; [|done].
      rewrite decide_False by done. done.
Qed.

Lemma missing_nil fields server :
  missing fields server = [] ↔ Forall (λ f, is_Some (dict_lookup f server)) fields.
Proof.
  unfold missing. induction fields as [|f fields IH]; [by split; constructor|].
  rewrite filter_cons. destruct (decide (dict_lookup f server = None)) as [Hn|Hs].
  - split; [done|]. intros [[v Hv] _]%Forall_cons. congruence.
  - rewrite IH, Forall_cons. split; [|by intros [_ ?]].
    intros H. split; [|done]. by apply not_eq_None_Some.
Qed.

Lemma get_truthy_present k server :
  get_truthy float_truthy k server = true → is_Some (dict_lookup k server).
Proof. unfold get_truthy. destruct (dict_lookup k server); [by eexists|done]. Qed.

Lemma validate_accepts server server' :
  _validate_server_config float_truthy server = inr server' →
  is_Some (dict_lookup "name" server') ∧
  dict_lookup "name" server' = dict_lookup "name" server ∧
  dict_lookup "type" server' = dict_lookup "type" server ∧
  is_Some (dict_lookup "type" server') ∧
  (type_is "ssh" server = true →
     server' = server ∧
     from_option is_int false (dict_lookup "port" server') = true ∧
     Forall (λ f, is_Some (dict_lookup f server'))
            (connection_fields float_truthy server')) ∧
  (type_is "docker_socket" server = true →
     is_Some (dict_lookup "socket_path" server') ∧
     (is_Some (dict_lookup "socket_path" server) → server' = server)) ∧
  (type_is "docker_remote" server = true →
     server' = server ∧
     is_Some (dict_lookup "docker_host" server') ∧
     (get_truthy float_truthy "use_tls" server' = true →
      Forall (λ f, is_Some (dict_lookup f server'))
             ["cert_path"; "key_path"; "ca_path"])).
Proof.
  unfold _validate_server_config.
  destruct (missing ["name"; "type"] server) as [|? ?] eqn:Hbase; [|done].
  apply missing_nil in Hbase.
  apply Forall_cons in Hbase as [Hname [Htype _]%Forall_cons].
  assert (Hexcl : ∀ t1 t2, t1 ≠ t2 → type_is t1 server = true → type_is t2 server = true → False).
  { intros t1 t2 Hne. unfold type_is. destruct (dict_lookup "type" server) as [[]|]; simpl;
      try done. intros ->%bool_decide_eq_true ?%bool_decide_eq_true. done. }
  destruct (type_is "ssh" server) eqn:Hssh.
  { destruct (missing ["host"; "port"; "username"] server) as [|? ?] eqn:Hm; [|done].
    apply missing_nil in Hm.
    apply Forall_cons in Hm as [Hhost [Hport [Huser _]%Forall_cons]%Forall_cons].
    destruct (from_option is_int false (dict_lookup "port" server)) eqn:Hint; simpl; [|done].
    destruct (get_truthy float_truthy "password" server) eqn:Hpw,
             (get_truthy float_truthy "key_path" server) eqn:Hkey; simpl; [| | |done].
    all: intros [= <-]; split_and!; try done.
    all: try (intros H; exfalso; (eapply Hexcl; [|exact Hssh|exact H]; done)).
    all: intros _; split_and!; try done.
    all: unfold connection_fields; rewrite Hkey; repeat constructor; try done.
    all: by apply get_truthy_present. }
  destruct (type_is "docker_socket" server) eqn:Hsock.
  { destruct (dict_lookup "socket_path" server) as [p|] eqn:Hp; intros [= <-].
    - split_and!; try done;
        try (intros H; exfalso; (eapply Hexcl; [|exact Hsock|exact H]; done)).
      all: intros _; split; [by eexists|done].
    - rewrite !dict_lookup_set. simpl. split_and!; try done;
        try (intros H; exfalso; (eapply Hexcl; [|exact Hsock|exact H]; done)).
      all: intros _; split; [by eexists|]; by intros [? [=]]. }
  destruct (type_is "docker_remote" server) eqn:Hrem.
  { destruct (dict_lookup "docker_host" server) as [h|] eqn:Hh; [|done].
    destruct (get_truthy float_truthy "use_tls" server) eqn:Htls.
    - destruct (missing ["cert_path"; "key_path"; "ca_path"] server) as [|? ?] eqn:Hm; [|done].
      apply missing_nil in Hm. intros [= <-]. split_and!; try done.
      all: intros _; split_and!; [done|by eexists|done].
    - intros [= <-]. split_and!; try done.
      all: intros _; split_and!; [done|by eexists|congruence]. }
  intros [= <-]. split_and!; done.
Qed.

(** What a server that passes [_validate_server_config] is sure to have:
    a name and a type, which the method does not change; for type [ssh],
    an integer port and every key that [_create_connection] reads; for type
    [docker_socket], a socket path (the default if none was given); for type
    [docker_remote], a docker host, and the three TLS paths when [use_tls]
    is set. *)
Theorem validated_server_is_complete server server' :
  _validate_server_config float_truthy server = inr server' →
  is_Some (dict_lookup "name" server') ∧
  dict_lookup "name" server' = dict_lookup "name" server ∧
  dict_lookup "type" server' = dict_lookup "type" server ∧
  is_Some (dict_lookup "type" server') ∧
  (type_is "ssh" server = true →
     server' = server ∧
     from_option is_int false (dict_lookup "port" server') = true ∧
     Forall (λ f, is_Some (dict_lookup f server'))
            (connection_fields float_truthy server')) ∧
  (type_is "docker_socket" server = true →
     is_Some (dict_lookup "socket_path" server') ∧
     (is_Some (dict_lookup "socket_path" server) → server' = server)) ∧
  (type_is "docker_remote" server = true →
     server' = server ∧
     is_Some (dict_lookup "docker_host" server') ∧
     (get_truthy float_truthy "use_tls" server' = true →
      Forall (λ f, is_Some (dict_lookup f server'))
             ["cert_path"; "key_path"; "ca_path"])).
Proof. intros Hv. by apply validate_accepts. Qed.

End Facts.

(** Three servers to try things on. *)
Definition any_float (repr : string) : bool := true.

Definition ssh_server : dict :=
  [("name", VStr "hostA"); ("type", VStr "ssh"); ("host", VStr "10.0.0.1");
   ("port", VInt 22); ("username", VStr "root"); ("password", VStr "secret")].

Definition socket_server : dict :=
  [("name", VStr "local"); ("type", VStr "docker_socket")].

Lemma validated_server_is_complete_witness :
  _validate_server_config any_float socket_server =
    inr (socket_server ++ [("socket_path", VStr "/var/run/docker.sock")]) ∧
  is_Some (dict_lookup "socket_path"
             (socket_server ++ [("socket_path", VStr "/var/run/docker.sock")])).
Proof.
  assert (Hv : _validate_server_config any_float socket_server =
               inr (socket_server ++ [("socket_path", VStr "/var/run/docker.sock")]))
    by reflexivity.
  split; [done|].
  destruct (validated_server_is_complete any_float _ _ Hv) as (_ & _ & _ & _ & _ & H & _).
  by destruct (H eq_refl).
Defined.

(** *** Looking up, adding and removing servers *)

(** The name of the server is [name]. *)
Definition has_name (name : string) (server : dict) : bool :=
  from_option (is_str name) false (dict_lookup "name" server).

Lemma has_name_unique n n' server :
  has_name n server = true → has_name n' server = true → n = n'.
Proof.
  unfold has_name. destruct (dict_lookup "name" server) as [[]|]; simpl; try done.
  intros <-%bool_decide_eq_true <-%bool_decide_eq_true. done.
Qed.

Lemma get_server_named servers name :
  named servers →
  get_server servers name = inr (head (filter (λ s, has_name name s = true) servers)).
Proof.
  induction 1 as [|s servers [v Hv] Hn IH]; simpl; [done|].
  assert (Hs : has_name name s = is_str name v) by (unfold has_name; by rewrite Hv).
  rewrite Hv. destruct (is_str name v).
  - by rewrite filter_cons_True.
  - rewrite filter_cons_False by (by rewrite Hs). apply IH.
Qed.

Lemma without_named name servers :
  named servers →
  without name servers = inr (filter (λ s, has_name name s ≠ true) servers).
Proof.
  induction 1 as [|s servers [v Hv] Hn IH]; simpl; [done|].
  assert (Hs : has_name name s = is_str name v) by (unfold has_name; by rewrite Hv).
  rewrite Hv, IH. destruct (is_str name v).
  - by rewrite filter_cons_False by (rewrite Hs; by intros []).
  - by rewrite filter_cons_True by (by rewrite Hs).
Qed.

Lemma named_filter (P : dict → Prop) `{!∀ s, Decision (P s)} servers :
  named servers → named (filter P servers).
Proof. unfold named. rewrite !Forall_forall. intros Hall s [_ Hs]%list_elem_of_filter. auto. Qed.

Section Servers.

Variable float_truthy : string → bool.

(** Every server is one that [_validate_server_config] accepts and leaves
    as it is. *)
Definition all_valid (servers : list dict) : Prop :=
  Forall (λ s, _validate_server_config float_truthy s = inr s) servers.

Lemma validate_twice server server' :
  _validate_server_config float_truthy server = inr server' →
  _validate_server_config float_truthy server' = inr server'.
Proof.
  intros Hv.
  destruct (validate_accepts float_truthy server server' Hv)
    as (_ & Hname & Htype & _ & _ & Hsock & _).
  destruct (type_is "docker_socket" server) eqn:Hs.
  - destruct (Hsock eq_refl) as [[p Hp] _].
    revert Hv. unfold _validate_server_config.
    assert (Hm : missing ["name"; "type"] server' = missing ["name"; "type"] server).
    { unfold missing. rewrite !filter_cons, !filter_nil, Hname, Htype. done. }
    rewrite Hm. destruct (missing ["name"; "type"] server); [|done].
    assert (Ht : ∀ t, type_is t server' = type_is t server)
      by (intros t; unfold type_is; by rewrite Htype).
    rewrite !Ht, Hs.
    destruct (type_is "ssh" server) eqn:Hssh.
    { exfalso. revert Hssh Hs. unfold type_is.
      destruct (dict_lookup "type" server) as [[]|]; simpl; try done.
      intros ->%bool_decide_eq_true ?%bool_decide_eq_true. done. }
    by rewrite Hp.
  - assert (server' = server) as ->; [|done].
    revert Hv. unfold _validate_server_config. rewrite Hs.
    destruct (missing ["name"; "type"] server); [|done].
    destruct (type_is "ssh" server).
    { destruct (missing ["host"; "port"; "username"] server); [|done].
      destruct (negb _); [done|]. destruct (negb _); [done|]. by intros [= <-]. }
    destruct (type_is "docker_remote" server); [|by intros [= <-]].
    destruct (dict_lookup "docker_host" server); [|done].
    destruct (get_truthy float_truthy "use_tls" server); [|by intros [= <-]].
    destruct (missing ["cert_path"; "key_path"; "ca_path"] server); [|done].
    by intros [= <-].
Qed.

Lemma all_valid_named servers : all_valid servers → named servers.
Proof.
  unfold all_valid, named. intros Hv. eapply Forall_impl; [exact Hv|].
  intros s Hs. simpl in Hs.
  by destruct (validate_accepts float_truthy s s Hs) as (? & _).
Qed.

Inductive op :=
| Add (server_config : dict) (save_ok : bool)
| Remove (name : string) (save_ok : bool).

Definition step (o : op) (servers : list dict) : list dict :=
  match o with
  | Add server_config save_ok => (add_server float_truthy server_config save_ok servers).2
  | Remove name save_ok => (remove_server name save_ok servers).2
  end.

Definition run (ops : list op) (servers : list dict) : list dict :=
  foldl (λ servers o, step o servers) servers ops.

Lemma all_valid_step o servers : all_valid servers → all_valid (step o servers).
Proof.
  intros Hv. destruct o as [cfg ok|name ok]; simpl.
  - unfold add_server.
    destruct (_validate_server_config float_truthy cfg) as [e|cfg'] eqn:Hc; [done|].
    assert (all_valid (servers ++ [cfg'])).
    { apply Forall_app. split; [done|]. constructor; [|constructor].
      by eapply validate_twice. }
    by destruct ok.
  - unfold remove_server. rewrite without_named by (by apply all_valid_named).
    assert (all_valid (filter (λ s, has_name name s ≠ true) servers)).
    { unfold all_valid in *. rewrite !Forall_forall in *.
      intros s [_ Hs]%list_elem_of_filter. auto. }
    case_bool_decide; [by destruct ok|done].
Qed.

Lemma all_valid_run ops servers : all_valid servers → all_valid (run ops servers).
Proof.
  revert servers. induction ops as [|o ops IH]; intros servers Hv; [done|].
  simpl. by apply IH, all_valid_step.
Qed.

(** Started with no server, after any sequence of [add_server] and
    [remove_server] calls, failed ones included, every server held passes
    validation as it is; so [get_server] raises for no name, and the server
    it finds has the name asked for, and, if of type [ssh], every key that
    [_create_connection] reads. *)
Theorem held_servers_are_valid ops name :
  let servers := run ops [] in
  Forall (λ s, _validate_server_config float_truthy s = inr s) servers ∧
  ∃ found, get_server servers name = inr found ∧
    ∀ server, found = Some server →
      server ∈ servers ∧
      dict_lookup "name" server = Some (VStr name) ∧
      (type_is "ssh" server = true →
       Forall (λ f, is_Some (dict_lookup f server))
              (connection_fields float_truthy server)).
Proof.
  intros servers.
  assert (Hv : all_valid servers) by (apply all_valid_run; constructor).
  split; [done|].
  rewrite get_server_named by (by apply all_valid_named).
  eexists. split; [done|]. intros server Hhead.
  apply head_Some_elem_of in Hhead as Hin.
  apply list_elem_of_filter in Hin as [Hname Hin].
  split; [done|]. split.
  - revert Hname. unfold has_name.
    destruct (dict_lookup "name" server) as [[]|]; simpl; try done.
    by intros ->%bool_decide_eq_true.
  - intros Hssh. unfold all_valid in Hv. rewrite Forall_forall in Hv.
    destruct (validate_accepts float_truthy server server (Hv _ Hin))
      as (_ & _ & _ & _ & H & _).
    by destruct (H Hssh) as (_ & _ & ?).
Qed.

(** A server that passes validation and has a [str] name is found under
    that name right after [add_server], whether or not saving succeeded;
    what is found is the server just added only if no server with that name
    was held before: otherwise it is the old one, and the new one is held
    behind it. *)
Theorem added_server_is_found servers server_config server_config' name save_ok :
  named servers →
  _validate_server_config float_truthy server_config = inr server_config' →
  dict_lookup "name" server_config = Some (VStr name) →
  let r := add_server float_truthy server_config save_ok servers in
  r.2 = servers ++ [server_config'] ∧
  r.1 = (if save_ok then inr () else inl SaveFailed) ∧
  get_server r.2 name =
    inr (Some (match get_server servers name with
               | inr (Some old) => old
               | _ => server_config'
               end)).
Proof.
  intros Hn Hv Hname r.
  assert (Hr : r.2 = servers ++ [server_config'] ∧
               r.1 = (if save_ok then inr () else inl SaveFailed)).
  { unfold r, add_server. rewrite Hv. by destruct save_ok. }
  destruct Hr as [Hr2 Hr1]. split; [done|]. split; [done|].
  destruct (validate_accepts float_truthy _ _ Hv) as (Hsome & Hsame & _).
  assert (Hnew : has_name name server_config' = true).
  { unfold has_name. rewrite Hsame, Hname. simpl. by apply bool_decide_eq_true. }
  rewrite Hr2. rewrite !get_server_named.
  - rewrite filter_app, filter_cons, filter_nil, decide_True by done.
    by destruct (filter (λ s, has_name name s = true) servers).
  - done.
  - apply Forall_app. split; [done|]. by repeat constructor.
Qed.

(** After [remove_server] no server with that name is held, whether or
    not saving succeeded, and every other name finds what it found before.
    The method returns [False], and leaves the list as it was, exactly when
    no server had the name. *)
Theorem removed_server_is_gone servers name save_ok :
  named servers →
  let r := remove_server name save_ok servers in
  get_server r.2 name = inr None ∧
  (∀ other, other ≠ name → get_server r.2 other = get_server servers other) ∧
  (r.1 = inr false ↔ get_server servers name = inr None) ∧
  (r.1 = inr false → r.2 = servers) ∧
  (r.1 = inr true ↔ save_ok = true ∧ get_server servers name ≠ inr None).
Proof.
  intros Hn r.
  set (rest := filter (λ s, has_name name s ≠ true) servers).
  assert (Hrest : named rest) by (by apply named_filter).
  assert (Hgone : filter (λ s, has_name name s = true) rest = []).
  { apply elem_of_nil_inv. intros s [Hs [Hs' _]%list_elem_of_filter]%list_elem_of_filter.
    done. }
  assert (Hother : ∀ other, other ≠ name →
    filter (λ s, has_name other s = true) rest =
    filter (λ s, has_name other s = true) servers).
  { intros other Hne. unfold rest. rewrite list_filter_filter.
    apply list_filter_iff. intros s. split; [by intros [? _]|].
    intros Hs. split; [done|]. intros Hs'. apply Hne. by eapply has_name_unique. }
  assert (Hlen : (length rest < length servers)%nat ↔
                 filter (λ s, has_name name s = true) servers ≠ []).
  { unfold rest. clear. induction servers as [|s servers IH]; simpl; [split; [lia|done]|].
    rewrite !filter_cons. destruct (has_name name s) eqn:Hs.
    - rewrite decide_False by (by intros []). rewrite decide_True by done.
      pose proof (length_filter (λ s, has_name name s ≠ true) servers). split; [done|lia].
    - rewrite decide_True by done. rewrite decide_False by done. simpl. rewrite <-IH. lia. }
  assert (Hr2 : r.2 = rest).
  { unfold r, remove_server. rewrite without_named by done. fold rest.
    case_bool_decide; [by destruct save_ok|done]. }
  assert (Hfound : get_server servers name = inr None ↔
                   filter (λ s, has_name name s = true) servers = []).
  { rewrite get_server_named by done.
    destruct (filter (λ s, has_name name s = true) servers); simpl; split; done. }
  assert (Hsame : filter (λ s, has_name name s = true) servers = [] → rest = servers).
  { intros Hnil. unfold rest. clear -Hnil.
    induction servers as [|s servers IH]; [done|].
    rewrite filter_cons in Hnil. rewrite filter_cons.
    destruct (decide (has_name name s = true)) as [|Hs]; [done|].
    rewrite decide_True by done. f_equal. by apply IH. }
  assert (Hr1 : r.1 = if bool_decide (length rest < length servers)%nat
                      then (if save_ok then inr true else inl SaveFailed)
                      else inr false).
  { unfold r, remove_server. rewrite without_named by done. fold rest.
    case_bool_decide; [by destruct save_ok|done]. }
  rewrite Hr2, Hr1, Hfound. split_and!.
  - rewrite get_server_named by done. by rewrite Hgone.
  - intros other Hne. rewrite !get_server_named by done. by rewrite Hother.
  - case_bool_decide as Hl.
    + apply Hlen in Hl. split; [by destruct save_ok|done].
    + split; [|done]. intros _.
      destruct (filter (λ s, has_name name s = true) servers) eqn:Hf; [done|].
      exfalso. by apply Hl, Hlen.
  - case_bool_decide as Hl; [by destruct save_ok|].
    intros _. apply Hsame.
    destruct (filter (λ s, has_name name s = true) servers) eqn:Hf; [done|].
    exfalso. by apply Hl, Hlen.
  - case_bool_decide as Hl.
    + apply Hlen in Hl. destruct save_ok; split; try done. by intros [? _].
    + split; [done|]. intros [_ Hne]. exfalso. apply Hl, Hlen. done.
Qed.

End Servers.

Lemma added_server_is_found_witness :
  get_server (add_server any_float ssh_server false [socket_server]).2 "hostA" =
  inr (Some ssh_server).
Proof.
  assert (Hn : named [socket_server]) by (repeat constructor; by eexists).
  by destruct (added_server_is_found any_float [socket_server] ssh_server ssh_server
                 "hostA" false Hn eq_refl eq_refl) as (_ & _ & ?).
Defined.

Lemma removed_server_is_gone_witness :
  get_server (remove_server "hostA" true [socket_server; ssh_server]).2 "hostA" =
  inr None.
Proof.
  assert (Hn : named [socket_server; ssh_server]) by (repeat constructor; by eexists).
  by destruct (removed_server_is_gone [socket_server; ssh_server] "hostA" true Hn)
    as (? & _).
Defined.

End Config.

(** ** Running a command ([SSHService.connect] and [execute_command]) *)
Module Executor.

Import Py Pool.

(** How a call of [execute_command] ends: with the dictionary built from
    the exit status and the two streams, or with an exception. *)
Inductive ended :=
| Done (r : Metrics.result)
| ServerNotFound           (* [ValueError] of [connect] *)
| ConfigKeyError           (* [KeyError] of [get_server] *)
| ConnectionFailed         (* [connect_func] raised *)
| ExecutionFailed.         (* [exec_command] or the reads raised *)

(** What one call meets: whether the probe of a pooled connection
    succeeds, whether the network lets [client.connect] through, what the
    command gives ([None]: it raises), and the clock when the lease ends. *)
Record call := Call {
  server_name : string;
  probe_ok : bool;
  net_ok : bool;
  command_result : option Metrics.result;
  now : Z;
}.

Section Run.

Variable float_truthy : string → bool.
Variable servers : list dict.

(** [_create_connection] as the [connect_func] of the pool: it raises
    when a key it reads is missing or when the network fails. *)
Definition _create_connection (server : dict) (net_ok : bool) : bool :=
  forallb (λ f, bool_decide (is_Some (Config.dict_lookup f server)))
          (Config.connection_fields float_truthy server) && net_ok.

(** [execute_command]: [connect] looks the server up and raises when
    there is none; the with-statement enters the lease, the command runs,
    and the lease ends normally or by the exception of the command. *)
Definition execute_command (c : call) (st : state) : ended * state :=
  match Config.get_server servers (server_name c) with
  | inl _ => (ConfigKeyError, st)
  | inr None => (ServerNotFound, st)
  | inr (Some server) =>
      match acquire (server_name c) (probe_ok c)
                    (_create_connection server (net_ok c)) st with
      | (ConnectFailed, st1) => (ConnectionFailed, st1)
      | (Yielded client, st1) =>
          match command_result c with
          | Some r => (Done r, release (server_name c) client (now c) Returned st1)
          | None => (ExecutionFailed, release (server_name c) client (now c) Raised st1)
          end
      end
  end.

Definition execute_all (calls : list call) (st : state) : state :=
  foldl (λ st c, (execute_command c st).2) st calls.

(** A call that meets no failure: the server is configured with the keys
    [_create_connection] reads, the probe and the network are fine, and the
    command returns. *)
Definition healthy (c : call) : Prop :=
  probe_ok c = true ∧ net_ok c = true ∧ is_Some (command_result c) ∧
  ∃ server, Config.get_server servers (server_name c) = inr (Some server) ∧
            _create_connection server true = true.

End Run.

Section Facts.

Variable float_truthy : string → bool.
Variable servers : list dict.

(** [acquire] takes the last idle connection of the server out of the
    list whenever there is one, whatever the probe says. *)
Lemma acquire_length srv p k st :
  length (default [] (connections (acquire srv p k st).2 !! srv)) =
  (length (default [] (connections st !! srv)) - 1)%nat ∧
  ∀ other, other ≠ srv →
    connections (acquire srv p k st).2 !! other = connections st !! other.
Proof.
  unfold acquire. destruct (connections st !! srv) as [l|] eqn:Hl; simpl.
  - pose proof (pop_spec l) as Hpop. destruct (pop l) as [[[c t] rest]|]; subst l.
    + assert (Hgoal :
        length (default [] (<[srv:=rest]> (connections st) !! srv)) =
          (length (rest ++ [(c, t)]) - 1)%nat ∧
        ∀ other, other ≠ srv →
          <[srv:=rest]> (connections st) !! other = connections st !! other).
      { rewrite lookup_insert_eq, length_app. simpl. split; [lia|].
        intros other Hne. by rewrite lookup_insert_ne. }
      destruct p; simpl; [exact Hgoal|]. destruct k; simpl; exact Hgoal.
    + destruct k; simpl; by rewrite Hl.
  - destruct k; simpl; by rewrite Hl.
Qed.

Lemma release_length srv c now o st :
  (length (default [] (connections (release srv c now o st) !! srv)) ≤
    S (length (default [] (connections st !! srv))))%nat ∧
  ∀ other l, other ≠ srv →
    connections (release srv c now o st) !! other = Some l →
    connections st !! other = Some l.
Proof.
  unfold release. destruct o; [|split; [simpl; lia|done]].
  destruct (connections st !! srv) as [l|] eqn:Hl; simpl.
  - rewrite Hl. simpl. case_bool_decide; simpl.
    + rewrite lookup_insert_eq. simpl. rewrite length_app. simpl. split; [lia|].
      intros other l' Hne. by rewrite lookup_insert_ne.
    + rewrite Hl. simpl. split; [lia|done].
  - rewrite lookup_insert_eq. simpl. case_bool_decide; simpl.
    + rewrite lookup_insert_eq. simpl. split; [lia|].
      intros other l' Hne. by rewrite !lookup_insert_ne.
    + rewrite lookup_insert_eq. simpl. split; [lia|].
      intros other l' Hne. by rewrite lookup_insert_ne.
Qed.

Definition at_most_one (st : state) : Prop :=
  ∀ srv l, connections st !! srv = Some l → (length l ≤ 1)%nat.

Lemma at_most_one_step c st :
  at_most_one st → at_most_one (execute_command float_truthy servers c st).2.
Proof.
  intros Hone. unfold execute_command.
  destruct (Config.get_server servers (server_name c)) as [e|[server|]]; [done| |done].
  set (k := _create_connection float_truthy server (net_ok c)).
  destruct (acquire_length (server_name c) (probe_ok c) k st) as [Hlen Hoth].
  assert (Hst1 : at_most_one (acquire (server_name c) (probe_ok c) k st).2).
  { intros srv l Hl. destruct (decide (srv = server_name c)) as [->|Hne].
    - rewrite Hl in Hlen. simpl in Hlen.
      destruct (connections st !! server_name c) as [l0|] eqn:Hl0; simpl in Hlen; [|lia].
      apply Hone in Hl0. lia.
    - rewrite Hoth in Hl by done. by eapply Hone. }
  assert (Hzero : length (default [] (connections
             (acquire (server_name c) (probe_ok c) k st).2 !! server_name c)) = 0%nat).
  { rewrite Hlen. destruct (connections st !! server_name c) as [l|] eqn:Hl; [|done].
    apply Hone in Hl. simpl. lia. }
  destruct (acquire (server_name c) (probe_ok c) k st) as [[client|] st1]; [|done].
  cbn [fst snd] in *.
  assert (Hrel : ∀ o, at_most_one (release (server_name c) client (now c) o st1)).
  { intros o srv l Hl. destruct (release_length (server_name c) client (now c) o st1)
      as [Hl1 Hl2].
    destruct (decide (srv = server_name c)) as [->|Hne].
    - rewrite Hl in Hl1. simpl in Hl1. lia.
    - eapply Hst1, Hl2; done. }
  destruct (command_result c); cbn [snd]; apply Hrel.
Qed.

(** Commands run one after the other never leave more than one idle
    connection per server in the pool, however they end and whatever the
    capacity of the pool. *)
Theorem sequential_commands_keep_one_idle max_conns calls srv :
  let st := execute_all float_truthy servers calls (init max_conns) in
  (length (default [] (connections st !! srv)) ≤ 1)%nat.
Proof.
  assert (H : ∀ st, at_most_one st →
                at_most_one (execute_all float_truthy servers calls st)).
  { induction calls as [|c calls IH]; intros st Hst; [done|].
    simpl. by apply IH, at_most_one_step. }
  intros st.
  assert (Hst : at_most_one st).
  { apply H. intros srv' l. simpl. by rewrite lookup_empty. }
  destruct (connections st !! srv) as [l|] eqn:Hl; simpl; [|lia].
  by apply (Hst srv).
Qed.

(** The pool after healthy commands only: nothing closed, one idle
    connection for each server in the map, and as many connections made as
    there are servers in the map. *)
Record shared (st : state) : Prop := Shared {
  shared_closed : closed st = [];
  shared_one : ∀ srv l, connections st !! srv = Some l → length l = 1%nat;
  shared_made : next_conn st = size (connections st);
}.

Lemma shared_step c st :
  1 ≤ max_connections st →
  healthy float_truthy servers c →
  shared st →
  let r := execute_command float_truthy servers c st in
  shared r.2 ∧
  max_connections r.2 = max_connections st ∧
  dom (connections r.2) = {[server_name c]} ∪ dom (connections st) ∧
  ∃ res, r.1 = Done res.
Proof.
  intros Hmax (Hp & Hn & [res Hres] & server & Hsrv & Hconn) [Hc Hone Hmade].
  unfold execute_command. rewrite Hsrv, Hp, Hn, Hconn, Hres.
  unfold acquire. destruct (connections st !! server_name c) as [l|] eqn:Hl.
  - pose proof (Hone _ _ Hl) as Hlen.
    destruct l as [|[c0 t0] [|? ?]]; simpl in Hlen; try lia.
    simpl. unfold release. simpl. repeat (rewrite lookup_insert_eq; simpl).
    rewrite bool_decide_true by lia. simpl. rewrite insert_insert_eq.
    split; [|split; [done|split; [|by eexists]]].
    + split; simpl.
      * done.
      * intros srv l. rewrite lookup_insert.
        destruct (decide (server_name c = srv)); [by intros [= <-]|apply Hone].
      * rewrite Hmade. symmetry. by eapply map_size_insert_Some.
    + rewrite dom_insert_L. done.
  - simpl. unfold release. simpl. rewrite Hl. repeat (rewrite lookup_insert_eq; simpl).
    rewrite bool_decide_true by lia. simpl. rewrite insert_insert_eq.
    split; [|split; [done|split; [|by eexists]]].
    + split; simpl.
      * done.
      * intros srv l. rewrite lookup_insert.
        destruct (decide (server_name c = srv)); [by intros [= <-]|apply Hone].
      * rewrite Hmade. symmetry. by apply map_size_insert_None.
    + rewrite dom_insert_L. done.
Qed.

(** When every command meets a configured server, a live probe, a working
    network and a command that returns, commands run one after the other
    from an empty pool with room for at least one connection share one
    connection per server: nothing is ever closed, each server contacted has
    exactly one idle connection, and the number of connections made is the
    number of servers contacted. *)
Theorem healthy_commands_share_connections max_conns calls :
  1 ≤ max_conns →
  Forall (healthy float_truthy servers) calls →
  let st := execute_all float_truthy servers calls (init max_conns) in
  closed st = [] ∧
  dom (connections st) = list_to_set (server_name <$> calls) ∧
  (∀ srv l, connections st !! srv = Some l → length l = 1%nat) ∧
  next_conn st = size (list_to_set (server_name <$> calls) : gset string).
Proof.
  intros Hmax Hcalls.
  assert (H : ∀ st, 1 ≤ max_connections st → shared st →
    shared (execute_all float_truthy servers calls st) ∧
    dom (connections (execute_all float_truthy servers calls st)) =
      list_to_set (server_name <$> calls) ∪ dom (connections st)).
  { induction Hcalls as [|c calls Hc Hcalls IH]; intros st Hm Hs; simpl.
    - split; [done|]. set_solver.
    - destruct (shared_step c st Hm Hc Hs) as (Hs' & Hm' & Hd' & _).
      destruct (IH _ ltac:(by rewrite Hm') Hs') as [Hs'' Hd''].
      split; [done|]. rewrite Hd'', Hd'. set_solver. }
  destruct (H (init max_conns) Hmax) as [[Hc Hone Hmade] Hdom].
  { split; simpl; [done| |by rewrite map_size_empty].
    intros srv l. by rewrite lookup_empty. }
  simpl in Hdom. rewrite dom_empty_L, (right_id_L ∅ (∪)) in Hdom.
  intros st. split; [done|]. split; [done|]. split; [done|].
  unfold st. rewrite Hmade, <-Hdom. by rewrite size_dom.
Qed.

End Facts.

Definition two_commands : list call :=
  [Call "hostA" true true (Some (Metrics.Result 0 "ok" "")) 10;
   Call "hostA" true true (Some (Metrics.Result 1 "" "no such file")) 20].

Lemma healthy_commands_share_connections_witness :
  let st := execute_all Config.any_float [Config.ssh_server] two_commands (init 10) in
  closed st = [] ∧ next_conn st = 1%nat.
Proof.
  assert (Hh : Forall (healthy Config.any_float [Config.ssh_server]) two_commands).
  { repeat constructor; simpl; try (by eexists); by exists Config.ssh_server. }
  destruct (healthy_commands_share_connections Config.any_float [Config.ssh_server]
              10 two_commands ltac:(lia) Hh) as (Hc & _ & _ & Hn).
  split; [exact Hc|]. rewrite Hn. by vm_compute.
Defined.

End Executor.

(** ** More on the event hub: status, unregistration, the workers *)
Module HubFacts.

Import Hub.

(** The dictionary returned by [get_status].  The list of event types is
    in the order of the model's map, not in the insertion order of the
    Python dict; only its members are used below. *)
Record status := Status {
  connected_clients : nat;
  event_types : list string;
  subscriptions : gmap string nat;
}.

Definition get_status (h : hub) : status :=
  Status (size (clients h))
         (map_to_list (event_handlers h)).*1
         (size <$> event_handlers h).

(** The registered clients whose own subscription set has the event
    type. *)
Definition subscribers (h : hub) (event_type : string) : gmap string WebSocketClient :=
  filter (λ kv, event_type ∈ Hub.subscriptions kv.2) (clients h).

(** When the registry and the index agree, the count that [get_status]
    reports for an event type is the number of registered clients
    subscribed to it, and an event type it does not list has no
    subscriber. *)
Theorem status_counts_subscribers h event_type :
  consistent h →
  match subscriptions (get_status h) !! event_type with
  | Some n => n = size (subscribers h event_type)
  | None => subscribers h event_type = ∅
  end.
Proof.
  intros Hc. simpl. rewrite lookup_fmap.
  destruct (event_handlers h !! event_type) as [s|] eqn:Hs; simpl.
  - assert (Hdom : s = dom (subscribers h event_type)).
    { apply set_eq. intros cid. rewrite elem_of_dom. unfold subscribers. split.
      - intros Hin. destruct (Hc cid event_type) as [H _].
        destruct H as (c & Hcl & HE); [by exists s|].
        exists c. by apply map_lookup_filter_Some.
      - intros [c [Hcl HE]%map_lookup_filter_Some]. simpl in HE.
        destruct (Hc cid event_type) as [_ H].
        destruct H as (s' & Hs' & Hin); [by exists c|].
        rewrite Hs in Hs'. by injection Hs' as <-. }
    rewrite Hdom. apply size_dom.
  - apply map_empty. intros cid. apply map_lookup_filter_None. right.
    intros c Hcl HE. simpl in HE.
    destruct (Hc cid event_type) as [_ H].
    destruct H as (s' & Hs' & _); [by exists c|]. by rewrite Hs in Hs'.
Qed.

Lemma status_counts_subscribers_witness :
  let h := run [Register 1 0; Register 2 0; Subscribe "1" "cpu";
                Subscribe "2" "cpu"; Unsubscribe "2" "cpu"] (init 30) in
  subscriptions (get_status h) !! "cpu" = Some 1%nat ∧
  size (subscribers h "cpu") = 1%nat.
Proof.
  intros h.
  assert (Hf : all_fresh [Register 1 0; Register 2 0; Subscribe "1" "cpu";
                          Subscribe "2" "cpu"; Unsubscribe "2" "cpu"] (init 30))
    by (repeat split; by vm_compute).
  pose proof (status_counts_subscribers h "cpu"
                (consistent_run _ _ Hf (consistent_init 30))) as H.
  assert (H1 : subscriptions (get_status h) !! "cpu" = Some 1%nat)
    by (by vm_compute).
  rewrite H1 in H. by split.
Defined.

(** *** Event types are never forgotten *)

Lemma discard_from_dom cid E hs : dom (discard_from cid E hs) = dom hs.
Proof.
  unfold discard_from. destruct (hs !! E) as [s|] eqn:Hs; [|done].
  rewrite dom_insert_L. apply elem_of_dom_2 in Hs. set_solver.
Qed.

Lemma remove_client_dom cid h :
  dom (event_handlers (_remove_client cid h)) = dom (event_handlers h).
Proof.
  unfold _remove_client. destruct (clients h !! cid) as [c|]; [|done]. simpl.
  apply set_eq. intros E. rewrite !elem_of_dom, discard_fold_lookup.
  destruct (decide (E ∈ Hub.subscriptions c)); [|done].
  by rewrite fmap_is_Some.
Qed.

Lemma step_event_types o h :
  dom (event_handlers h) ⊆ dom (event_handlers (step o h)).
Proof.
  destruct o as [ws now|cid|cid E|cid E|E data now|cid m|cid|now]; simpl.
  - done.
  - unfold unregister_client. destruct (clients h !! cid); [|done].
    by rewrite remove_client_dom.
  - unfold subscribe. destruct (clients h !! cid); [|done]. simpl.
    rewrite dom_insert_L. destruct (event_handlers h !! E); [set_solver|].
    rewrite dom_insert_L. set_solver.
  - unfold unsubscribe. destruct (clients h !! cid); [|done]. simpl.
    by rewrite discard_from_dom.
  - by destruct (broadcast_event_spec E data now h) as (-> & _).
  - by destruct (send_to_client_frame cid m h) as [-> _].
  - by rewrite remove_client_dom.
  - unfold _check_client_health. generalize ((map_to_list (clients h)).*1).
    intros l. revert h. induction l as [|a l IH]; intros h; [done|]. simpl.
    etrans; [|apply IH]. unfold check_one.
    destruct (clients h !! a) as [c|]; [|done].
    destruct (timed_out now (ping_interval h) c); [|done].
    by rewrite remove_client_dom.
Qed.

(** No operation of the hub removes an event type from the index: once a
    client has subscribed to it, [get_status] lists it for good, with a count
    of zero when the last subscriber has gone. *)
Theorem event_types_are_kept ops h event_type :
  event_type ∈ dom (event_handlers h) →
  event_type ∈ (event_types (get_status (run ops h))).
Proof.
  intros Hin.
  assert (H : event_type ∈ dom (event_handlers (run ops h))).
  { revert h Hin. induction ops as [|o ops IH]; intros h Hin; [done|].
    simpl. apply IH. by apply step_event_types. }
  simpl. apply elem_of_dom in H as [s Hs].
  apply list_elem_of_fmap. exists (event_type, s). split; [done|].
  by apply elem_of_map_to_list.
Qed.

Lemma event_types_are_kept_witness :
  let h := run [Register 1 0; Subscribe "1" "cpu"] (init 30) in
  let h' := run [Unsubscribe "1" "cpu"; Unregister "1"] h in
  "cpu" ∈ event_types (get_status h') ∧
  subscriptions (get_status h') !! "cpu" = Some 0%nat.
Proof.
  intros h h'. split; [|by vm_compute].
  apply (event_types_are_kept [Unsubscribe "1" "cpu"; Unregister "1"] h "cpu").
  apply elem_of_dom. eexists. by vm_compute.
Defined.

(** *** Unregistration *)

(** The operation registers a transport object whose id is [cid]. *)
Definition registers (cid : string) (o : op) : Prop :=
  match o with
  | Register ws _ => pretty ws = cid
  | _ => False
  end.

Lemma step_absent o h cid :
  ¬ registers cid o →
  clients h !! cid = None → clients (step o h) !! cid = None.
Proof.
  intros Hr Hn.
  destruct o as [ws now|cid'|cid' E|cid' E|E data now|cid' m|cid'|now]; simpl.
  - simpl in Hr. by rewrite lookup_insert_ne.
  - unfold unregister_client. destruct (clients h !! cid') eqn:Hc; [|done].
    rewrite remove_client_clients. simpl.
    destruct (decide (cid' = cid)) as [->|Hne]; [by rewrite lookup_delete_eq|].
    by rewrite lookup_delete_ne, lookup_insert_ne.
  - unfold subscribe. destruct (clients h !! cid') eqn:Hc; [|done]. simpl.
    destruct (decide (cid' = cid)) as [->|Hne]; [congruence|].
    by rewrite lookup_insert_ne.
  - unfold unsubscribe. destruct (clients h !! cid') eqn:Hc; [|done]. simpl.
    destruct (decide (cid' = cid)) as [->|Hne]; [congruence|].
    by rewrite lookup_insert_ne.
  - destruct (broadcast_event_spec E data now h) as (_ & _ & ->).
    rewrite Hn. by destruct (decide _).
  - rewrite send_to_client_lookup, Hn. by destruct (decide _).
  - rewrite remove_client_clients.
    destruct (decide (cid' = cid)) as [->|Hne]; [by rewrite lookup_delete_eq|].
    by rewrite lookup_delete_ne.
  - by rewrite check_client_health_clients, Hn.
Qed.

Lemma run_absent ops h cid :
  Forall (λ o, ¬ registers cid o) ops →
  clients h !! cid = None → clients (run ops h) !! cid = None.
Proof.
  revert h. induction ops as [|o ops IH]; intros h Hf Hn; [done|].
  apply Forall_cons in Hf as [Ho Hf]. simpl. apply IH; [done|].
  by apply step_absent.
Qed.

Lemma unregister_client_clients cid h :
  clients (unregister_client cid h) = delete cid (clients h).
Proof.
  unfold unregister_client. destruct (clients h !! cid) eqn:Hc.
  - rewrite remove_client_clients. simpl. by rewrite delete_insert_eq.
  - symmetry. by apply delete_id.
Qed.

(** [unregister_client] leaves no trace of the client: it is in the
    registry no longer and in no subscriber set, every other client keeps its
    record and its subscriptions, and as long as its transport object is not
    registered again, no later operation of the hub brings it back into the
    registry or into a subscriber set. *)
Theorem unregistered_client_is_forgotten h client_id ops :
  consistent h →
  let h' := unregister_client client_id h in
  all_fresh ops h' →
  Forall (λ o, ¬ registers client_id o) ops →
  (∀ other, other ≠ client_id →
     clients h' !! other = clients h !! other ∧
     ∀ event_type, listed h' other event_type ↔ listed h other event_type) ∧
  clients (run ops h') !! client_id = None ∧
  ∀ event_type, ¬ listed (run ops h') client_id event_type.
Proof.
  intros Hc h' Hf Hr.
  assert (Hc' : consistent h') by (by apply (consistent_step (Unregister client_id))).
  assert (Hn : clients h' !! client_id = None).
  { unfold h'. by rewrite unregister_client_clients, lookup_delete_eq. }
  split; [|split].
  - intros other Hne.
    assert (Hl : clients h' !! other = clients h !! other).
    { unfold h'. by rewrite unregister_client_clients, lookup_delete_ne. }
    split; [done|]. intros E.
    destruct (Hc other E) as [H1 H2]. destruct (Hc' other E) as [H1' H2'].
    unfold listed. split.
    + intros H. apply H2. destruct (H1' H) as (c & Hcl & HE).
      exists c. by rewrite <- Hl.
    + intros H. apply H2'. destruct (H1 H) as (c & Hcl & HE).
      exists c. by rewrite Hl.
  - by apply run_absent.
  - intros E Hl.
    destruct (consistent_run ops h' Hf Hc' client_id E) as [H _].
    destruct (H Hl) as (c & Hcl & _).
    by rewrite (run_absent ops h' client_id Hr Hn) in Hcl.
Qed.

Lemma unregistered_client_is_forgotten_witness :
  let h := run [Register 1 0; Register 2 0; Subscribe "1" "cpu";
                Subscribe "2" "cpu"] (init 30) in
  let ops := [Broadcast "cpu" Py.VNone 3; Subscribe "1" "disk"; Register 3 4;
              CheckHealth 5] in
  let h'' := run ops (unregister_client "1" h) in
  clients h'' !! "1" = None ∧ ∀ event_type, ¬ listed h'' "1" event_type.
Proof.
  intros h ops h''.
  assert (Hf : all_fresh [Register 1 0; Register 2 0; Subscribe "1" "cpu";
                          Subscribe "2" "cpu"] (init 30))
    by (repeat split; by vm_compute).
  assert (Hf' : all_fresh ops (unregister_client "1" h))
    by (repeat split; by vm_compute).
  assert (Hr : Forall (λ o, ¬ registers "1" o) ops).
  { unfold ops.
    repeat (apply Forall_cons; split; [intros H; vm_compute in H; done|]).
    constructor. }
  exact (proj2 (unregistered_client_is_forgotten h "1" ops
           (consistent_run _ _ Hf (consistent_init 30)) Hf' Hr)).
Defined.

(** *** The message worker and failed writes *)

Lemma remove_client_twice cid h :
  _remove_client cid (_remove_client cid h) = _remove_client cid h.
Proof.
  unfold _remove_client at 1.
  by rewrite remove_client_clients, lookup_delete_eq.
Qed.

(** The worker of a client passes every message in front of the shutdown
    signal to the transport, also after a write has failed; when every write
    succeeds it leaves the hub as it was, and otherwise the hub afterwards is
    the one in which the client has been removed once. *)
Theorem worker_removes_client_on_failed_write outcomes client_id q h :
  let r := message_worker outcomes client_id q h in
  r.1.*1 = before_shutdown q ∧
  r.2 = (if forallb snd r.1 then h else _remove_client client_id h) ∧
  (forallb snd r.1 = false → clients r.2 !! client_id = None).
Proof.
  simpl. split; [apply message_worker_sends|].
  assert (H : ∀ outcomes h,
    (message_worker outcomes client_id q h).2 =
    if forallb snd (message_worker outcomes client_id q h).1 then h
    else _remove_client client_id h).
  { clear. induction q as [|[m|] q IH]; intros outcomes h; [done| |done].
    simpl. rewrite IH.
    destruct (default true (head outcomes)); simpl; [done|].
    rewrite remove_client_twice. by destruct (forallb _ _). }
  split; [apply H|]. intros Hf. rewrite H, Hf.
  by rewrite remove_client_clients, lookup_delete_eq.
Qed.

End HubFacts.

(** ** The two locks of the event hub

    [_client_lock] and [_handler_lock] are [threading.Lock] objects, which
    are not reentrant: [acquire] waits as long as the lock is held, also when
    the thread that asks holds it itself. *)
Module Locks.

Import Hub.

Inductive lock := _client_lock | _handler_lock.

(** The code of a method as one thread runs it: [with l:] is [Acquire l]
    before the block and [Release l] after it, [Update] is a block of
    statements on the hub that takes no lock, [Read] a branch on the hub. *)
Inductive prog :=
| Return
| Acquire (l : lock) (k : prog)
| Release (l : lock) (k : prog)
| Update (f : hub → hub) (k : prog)
| Read (k : hub → prog).

(** The holders of [_client_lock] and of [_handler_lock]. *)
Definition owners : Type := option nat * option nat.

Definition free : owners := (None, None).

Definition owner (l : lock) (os : owners) : option nat :=
  match l with
  | _client_lock => os.1
  | _handler_lock => os.2
  end.

Definition set_owner (l : lock) (o : option nat) (os : owners) : owners :=
  match l with
  | _client_lock => (o, os.2)
  | _handler_lock => (os.1, o)
  end.

Record world := World {
  the_hub : hub;
  held : owners;
  threads : list prog;
}.

(** One step of thread [i]; [None] when the thread cannot move: it has
    returned, or it waits for a lock that is held. *)
Definition step (i : nat) (w : world) : option world :=
  match threads w !! i with
  | Some (Acquire l k) =>
      match owner l (held w) with
      | None => Some (World (the_hub w) (set_owner l (Some i) (held w))
                            (<[i := k]> (threads w)))
      | Some _ => None
      end
  | Some (Release l k) =>
      Some (World (the_hub w) (set_owner l None (held w)) (<[i := k]> (threads w)))
  | Some (Update f k) =>
      Some (World (f (the_hub w)) (held w) (<[i := k]> (threads w)))
  | Some (Read k) =>
      Some (World (the_hub w) (held w) (<[i := k (the_hub w)]> (threads w)))
  | Some Return | None => None
  end.

(** The threads move in the order of the schedule; a thread that cannot
    move when its turn comes leaves the world as it is. *)
Fixpoint run (schedule : list nat) (w : world) : world :=
  match schedule with
  | [] => w
  | i :: schedule' => run schedule' (default w (step i w))
  end.

(** No thread can move. *)
Definition stuck (w : world) : Prop := ∀ i, step i w = None.

(** *** The methods *)

Definition register_client (ws : N) (now : Z) (k : prog) : prog :=
  Acquire _client_lock
    (Update (λ h, (Hub.register_client ws now h).2)
    (Release _client_lock k)).

Definition unregister_client (client_id : string) (k : prog) : prog :=
  Acquire _client_lock
    (Update (Hub.unregister_client client_id)
    (Release _client_lock k)).

Definition subscribe (client_id event_type : string) (k : prog) : prog :=
  Acquire _client_lock (Acquire _handler_lock
    (Update (Hub.subscribe client_id event_type)
    (Release _handler_lock (Release _client_lock k)))).

Definition unsubscribe (client_id event_type : string) (k : prog) : prog :=
  Acquire _client_lock (Acquire _handler_lock
    (Update (Hub.unsubscribe client_id event_type)
    (Release _handler_lock (Release _client_lock k)))).

Definition send_to_client (client_id : string) (m : message) (k : prog) : prog :=
  Acquire _client_lock
    (Update (Hub.send_to_client client_id m)
    (Release _client_lock k)).

(** [broadcast_event]: the loop calls [send_to_client] for each member of
    the subscriber set, with [_handler_lock] held. *)
Definition broadcast_event (event_type : string) (data : Py.value) (now : Z)
    (k : prog) : prog :=
  let m := Event event_type data now in
  Acquire _handler_lock
    (Read (λ h,
       match event_handlers h !! event_type with
       | Some s => foldr (λ client_id k', send_to_client client_id m k')
                         (Release _handler_lock k) (elements s)
       | None => Release _handler_lock k
       end)).

Definition _check_client_health (now : Z) (k : prog) : prog :=
  Acquire _client_lock
    (Update (Hub._check_client_health now)
    (Release _client_lock k)).

(** [self.clients[client_id].last_ping = datetime.utcnow()] *)
Definition set_last_ping (client_id : string) (now : Z) (h : hub) : hub :=
  match clients h !! client_id with
  | Some c =>
      set_clients h
        (<[client_id := Client (id c) (ws c) (subscriptions c) now (message_queue c)]>
           (clients h))
  | None => h
  end.

(** [_handle_ping]: the call of [send_to_client] is inside the block that
    holds [_client_lock]. *)
Definition _handle_ping (client_id : string) (now : Z) (k : prog) : prog :=
  Acquire _client_lock
    (Read (λ h,
       match clients h !! client_id with
       | Some _ =>
           Update (set_last_ping client_id now)
             (send_to_client client_id Pong (Release _client_lock k))
       | None => Release _client_lock k
       end)).

(** [_remove_client] as a thread runs it when it holds no lock: the test
    [client_id in self.clients], the loop over the subscriptions of the
    client, and [del self.clients[client_id]] are three steps, and another
    thread can run between them. *)
Definition discard_subscriptions (client_id : string) (h : hub) : hub :=
  match clients h !! client_id with
  | Some client =>
      Hub (clients h)
          (set_fold (discard_from client_id) (event_handlers h) (subscriptions client))
          (ping_interval h)
  | None => h
  end.

Definition delete_client (client_id : string) (h : hub) : hub :=
  set_clients h (delete client_id (clients h)).

Definition _remove_client (client_id : string) (k : prog) : prog :=
  Read (λ h,
    match clients h !! client_id with
    | Some _ =>
        Update (discard_subscriptions client_id)
          (Update (delete_client client_id) k)
    | None => k
    end).

(** [_send_to_client], run by the worker of the client: when the write
    raises, the handler calls [_remove_client], and no lock is taken. *)
Definition _send_to_client (client_id : string) (ok : bool) (k : prog) : prog :=
  if ok then k else _remove_client client_id k.

(** The method behind each operation of the sequential model. *)
Definition code (o : op) (k : prog) : prog :=
  match o with
  | Register ws now => register_client ws now k
  | Unregister client_id => unregister_client client_id k
  | Subscribe client_id event_type => subscribe client_id event_type k
  | Unsubscribe client_id event_type => unsubscribe client_id event_type k
  | Broadcast event_type data now => broadcast_event event_type data now k
  | SendTo client_id m => send_to_client client_id m k
  | WriteFailed client_id => _send_to_client client_id false k
  | CheckHealth now => _check_client_health now k
  end.

(** *** Facts *)

Lemma run_app s1 s2 w : run (s1 ++ s2) w = run s2 (run s1 w).
Proof. revert w. induction s1 as [|i s1 IH]; intros w; [done|]. apply IH. Qed.

Lemma stuck_run w schedule : stuck w → run schedule w = w.
Proof.
  intros Hs. induction schedule as [|i s IH]; [done|].
  simpl. by rewrite Hs.
Qed.

Lemma owners_restore l i os :
  owner l os = None → set_owner l None (set_owner l (Some i) os) = os.
Proof. destruct os as [a b], l; simpl; by intros ->. Qed.

Lemma owner_set_other l l' o os :
  l ≠ l' → owner l (set_owner l' o os) = owner l os.
Proof. by destruct l, l'. Qed.

(** A block [with l: f] run by thread 0 alone. *)
Lemma locked_update_alone l f k h os :
  owner l os = None →
  run [0; 0; 0]%nat (World h os [Acquire l (Update f (Release l k))]) =
  World (f h) os [k].
Proof.
  intros Ho. simpl. unfold step. simpl. rewrite Ho. simpl.
  by rewrite owners_restore.
Qed.

Lemma sends_alone m l : ∀ h k os,
  owner _client_lock os = None →
  run (replicate (3 * length l) 0%nat)
      (World h os [foldr (λ client_id k', send_to_client client_id m k') k l]) =
  World (foldl (λ h client_id, Hub.send_to_client client_id m h) h l) os [k].
Proof.
  induction l as [|a l IH]; intros h k os Ho; [done|].
  replace (3 * length (a :: l))%nat with (3 + 3 * length l)%nat by (simpl; lia).
  rewrite replicate_add, run_app.
  change (replicate 3 0%nat) with [0; 0; 0]%nat.
  cbn [foldr foldl]. unfold send_to_client at 1.
  rewrite locked_update_alone by done. by apply IH.
Qed.

Lemma broadcast_event_enters E data now h k :
  run [0; 0]%nat (World h free [broadcast_event E data now k]) =
  World h (None, Some 0%nat)
    [match event_handlers h !! E with
     | Some s => foldr (λ client_id k', send_to_client client_id (Event E data now) k')
                       (Release _handler_lock k) (elements s)
     | None => Release _handler_lock k
     end].
Proof. done. Qed.

Lemma code_alone o h k :
  ∃ n, run (replicate n 0%nat) (World h free [code o k]) =
       World (Hub.step o h) free [k].
Proof.
  destruct o as [ws now|cid|cid E|cid E|E data now|cid m|cid|now]; simpl.
  - by exists 3%nat.
  - by exists 3%nat.
  - by exists 5%nat.
  - by exists 5%nat.
  - unfold Hub.broadcast_event.
    destruct (event_handlers h !! E) as [s|] eqn:Hs.
    + exists (2 + (3 * length (elements s) + 1))%nat.
      rewrite replicate_add, run_app.
      change (replicate 2 0%nat) with [0; 0]%nat.
      rewrite broadcast_event_enters, Hs, replicate_add, run_app.
      by rewrite (sends_alone _ _ _ _ (None, Some 0%nat)).
    + exists 3%nat.
      change (replicate 3 0%nat) with ([0; 0] ++ [0])%nat.
      by rewrite run_app, broadcast_event_enters, Hs.
  - by exists 3%nat.
  - unfold _send_to_client, _remove_client, Hub._remove_client.
    destruct (clients h !! cid) as [c|] eqn:Hc.
    + exists 3%nat. simpl. unfold step. simpl. rewrite Hc. simpl.
      unfold discard_subscriptions, delete_client. by rewrite Hc.
    + exists 1%nat. simpl. unfold step. simpl. by rewrite Hc.
  - by exists 3%nat.
Qed.

(** Run by one thread while no other thread is active, the methods of the
    hub other than [_handle_ping] return, one after the other, with both
    locks free again, and leave the hub that the sequential model
    computes. *)
Theorem methods_alone_return ops h :
  ∃ n, run (replicate n 0%nat) (World h free [foldr code Return ops]) =
       World (Hub.run ops h) free [Return].
Proof.
  revert h. induction ops as [|o ops IH]; intros h.
  - by exists 0%nat.
  - destruct (code_alone o h (foldr code Return ops)) as [n Hn].
    destruct (IH (Hub.step o h)) as [n' Hn'].
    exists (n + n')%nat. rewrite replicate_add, run_app. simpl foldr.
    by rewrite Hn.
Qed.

(** *** The removal after a failed write against [subscribe] *)

(** C4, on the code.  [_send_to_client] calls [_remove_client] while the
    worker holds no lock.  A client is registered once and subscribed to
    [cpu].  Its worker has a write fail and runs the test and the loop of
    [_remove_client]; another thread then runs [subscribe] for the client
    and [disk] from beginning to end; the worker then deletes the client.
    Both methods have returned and both locks are free, the client is no
    longer in the registry, and its id is in the subscriber set of [disk]:
    the two structures disagree, although they agreed before and no transport
    was registered twice.  Run one after the other, in either order, the two
    methods leave them in agreement. *)
Theorem failed_write_races_with_subscribe :
  let ops := [Register 1 0; Subscribe "1" "cpu"] in
  let h := Hub.run ops (init 30) in
  let w := run [0; 0; 1; 1; 1; 1; 1; 0]%nat
               (World h free [_send_to_client "1" false Return;
                              subscribe "1" "disk" Return]) in
  all_fresh ops (init 30) ∧
  consistent h ∧
  threads w = [Return; Return] ∧
  held w = free ∧
  clients (the_hub w) !! "1" = None ∧
  event_handlers (the_hub w) !! "disk" = Some {["1"]} ∧
  ¬ consistent (the_hub w) ∧
  consistent (Hub.run [WriteFailed "1"; Subscribe "1" "disk"] h) ∧
  consistent (Hub.run [Subscribe "1" "disk"; WriteFailed "1"] h).
Proof.
  intros ops h w.
  assert (Hf : all_fresh ops (init 30)) by (repeat split; by vm_compute).
  assert (Hc : consistent h) by (exact (consistent_run ops _ Hf (consistent_init 30))).
  assert (Ht : threads w = [Return; Return]) by (by vm_compute).
  assert (Hh : held w = free) by (by vm_compute).
  assert (Hn : clients (the_hub w) !! "1" = None) by (by vm_compute).
  assert (Hd : event_handlers (the_hub w) !! "disk" = Some {["1"]}) by (by vm_compute).
  assert (Hbad : ¬ consistent (the_hub w)).
  { intros Hw. destruct (Hw "1" "disk") as [H _].
    destruct H as (c & Hcl & _).
    - exists {["1"]}. split; [exact Hd|]. by apply elem_of_singleton.
    - rewrite Hn in Hcl. discriminate Hcl. }
  assert (H1 : consistent (Hub.run [WriteFailed "1"; Subscribe "1" "disk"] h)).
  { apply consistent_run; [|exact Hc]. exact (conj I (conj I I)). }
  assert (H2 : consistent (Hub.run [Subscribe "1" "disk"; WriteFailed "1"] h)).
  { apply consistent_run; [|exact Hc]. exact (conj I (conj I I)). }
  exact (conj Hf (conj Hc (conj Ht (conj Hh (conj Hn (conj Hd (conj Hbad (conj H1 H2)))))))).
Qed.

(** *** A ping is never answered *)

Section Ping.

Variables (h : hub) (client_id : string) (now : Z) (c : WebSocketClient).
Hypothesis registered : clients h !! client_id = Some c.

Let reply : prog := send_to_client client_id Pong (Release _client_lock Return).

Let w0 := World h free [_handle_ping client_id now Return].
Let w1 := World h (Some 0%nat, None)
  [Read (λ h, match clients h !! client_id with
              | Some _ => Update (set_last_ping client_id now) reply
              | None => Release _client_lock Return
              end)].
Let w2 := World h (Some 0%nat, None) [Update (set_last_ping client_id now) reply].
Let w3 := World (set_last_ping client_id now h) (Some 0%nat, None) [reply].

Lemma ping_reachable schedule :
  run schedule w0 ∈ [w0; w1; w2; w3] ∧
  run schedule w1 ∈ [w1; w2; w3] ∧
  run schedule w2 ∈ [w2; w3] ∧
  run schedule w3 = w3.
Proof.
  assert (H3 : ∀ s, run s w3 = w3).
  { intros s. apply stuck_run. by intros [|i]. }
  assert (Hi : ∀ w p i, threads w = [p] → step (S i) w = None).
  { intros w p i Hw. unfold step. by rewrite Hw. }
  assert (H23 : step 0 w2 = Some w3) by done.
  assert (H12 : step 0 w1 = Some w2).
  { unfold step, w1, w2. simpl. by rewrite registered. }
  assert (H01 : step 0 w0 = Some w1) by done.
  induction schedule as [|i s (IH0 & IH1 & IH2 & _)].
  - split_and!; [set_solver..|done].
  - split_and!; [| | |apply H3]; simpl.
    + destruct i as [|i]; [rewrite H01|rewrite (Hi w0 _ i eq_refl)]; simpl;
        [set_solver|done].
    + destruct i as [|i]; [rewrite H12|rewrite (Hi w1 _ i eq_refl)]; simpl;
        [set_solver|done].
    + destruct i as [|i]; [rewrite H23|rewrite (Hi w2 _ i eq_refl)]; simpl;
        [rewrite H3; set_solver|done].
Qed.

(** When a registered client sends a ping, the thread that runs
    [_handle_ping] records the time of the ping and then waits for
    [_client_lock], which it holds itself: however the thread is scheduled,
    the method never returns, no pong is ever put on the queue of the client,
    and after three steps the lock is held for good, so that no other method
    that takes it can proceed. *)
Theorem ping_is_never_answered schedule :
  let w := run schedule (World h free [_handle_ping client_id now Return]) in
  threads w ≠ [Return] ∧
  queue_of (the_hub w) client_id = Some (message_queue c) ∧
  let w' := run [0; 0; 0]%nat (World h free [_handle_ping client_id now Return]) in
  (last_ping <$> clients (the_hub w') !! client_id) = Some now ∧
  owner _client_lock (held w') = Some 0%nat ∧
  stuck w'.
Proof.
  assert (Hq : queue_of (set_last_ping client_id now h) client_id =
               Some (message_queue c)).
  { unfold queue_of, set_last_ping. rewrite registered. simpl.
    by rewrite lookup_insert_eq. }
  assert (Hq0 : queue_of h client_id = Some (message_queue c)).
  { unfold queue_of. by rewrite registered. }
  assert (Hw' : run [0; 0; 0]%nat w0 = w3).
  { simpl. unfold step. simpl. by rewrite registered. }
  destruct (ping_reachable schedule) as (Hr & _).
  fold w0. cbv zeta. split_and!.
  - intros Hret. rewrite !elem_of_cons in Hr.
    destruct Hr as [Hr|[Hr|[Hr|[Hr|Hr]]]];
      [rewrite Hr in Hret; discriminate Hret..|by apply elem_of_nil in Hr].
  - rewrite !elem_of_cons in Hr.
    destruct Hr as [Hr|[Hr|[Hr|[Hr|Hr]]]];
      [by rewrite Hr..|by apply elem_of_nil in Hr].
  - rewrite Hw'. simpl. unfold set_last_ping. rewrite registered. simpl.
    by rewrite lookup_insert_eq.
  - by rewrite Hw'.
  - rewrite Hw'. by intros [|i].
Qed.

End Ping.

Lemma ping_is_never_answered_witness :
  let h := (Hub.register_client 7 0 (init 30)).2 in
  let w := run [0; 0; 0; 0; 0]%nat (World h free [_handle_ping "7" 9 Return]) in
  threads w ≠ [Return] ∧ queue_of (the_hub w) "7" = Some [].
Proof.
  intros h w.
  destruct (ping_is_never_answered h "7" 9 (Client "7" 7 ∅ 0 [])
              ltac:(by vm_compute) [0; 0; 0; 0; 0]%nat) as (H1 & H2 & _).
  by split.
Defined.

(** A ping from an id that is not registered returns at once. *)
Lemma ping_of_unknown_client_returns h client_id now :
  clients h !! client_id = None →
  run [0; 0; 0]%nat (World h free [_handle_ping client_id now Return]) =
  World h free [Return].
Proof. intros Hn. simpl. unfold step. simpl. by rewrite Hn. Qed.

(** *** [subscribe] against [broadcast_event] *)

(** [subscribe] takes [_client_lock] and then [_handler_lock];
    [broadcast_event] takes [_handler_lock] and then, in [send_to_client],
    [_client_lock].  When one thread subscribes a client while another
    broadcasts an event that has a subscriber, and each has taken its first
    lock, both wait for the lock the other holds: neither method returns,
    however the threads are scheduled from then on, and the hub is as it
    was. *)
Theorem subscribe_and_broadcast_can_deadlock
    h client_id event_type broadcast_type data now s schedule :
  event_handlers h !! broadcast_type = Some s →
  s ≠ ∅ →
  let w0 := World h free [subscribe client_id event_type Return;
                          broadcast_event broadcast_type data now Return] in
  let w := run [0; 1; 1]%nat w0 in
  stuck w ∧
  run schedule w = w ∧
  the_hub w = h ∧
  held w = (Some 0%nat, Some 1%nat) ∧
  Return ∉ threads w.
Proof.
  intros Hs Hne w0 w.
  assert (Hel : ∃ a l, elements s = a :: l).
  { destruct (elements s) as [|a l] eqn:He; [|by eauto].
    by apply elements_empty_inv, leibniz_equiv in He. }
  destruct Hel as (a & l & Hel).
  assert (Hw : w = World h (Some 0%nat, Some 1%nat)
    [Acquire _handler_lock
       (Update (Hub.subscribe client_id event_type)
       (Release _handler_lock (Release _client_lock Return)));
     foldr (λ cid k', send_to_client cid (Event broadcast_type data now) k')
           (Release _handler_lock Return) (a :: l)]).
  { unfold w, w0. simpl. unfold step. simpl. by rewrite Hs, Hel. }
  assert (Hstuck : stuck w).
  { rewrite Hw. by intros [|[|i]]. }
  split_and!; [done|by apply stuck_run|by rewrite Hw|by rewrite Hw|].
  rewrite Hw. simpl. unfold send_to_client.
  rewrite !elem_of_cons. intros [H|[H|H]]; [done|done|by apply elem_of_nil in H].
Qed.

Lemma subscribe_and_broadcast_can_deadlock_witness :
  let h := Hub.run [Register 1 0; Register 2 0; Subscribe "1" "cpu"] (init 30) in
  let w := run [0; 1; 1]%nat
               (World h free [subscribe "2" "disk" Return;
                              broadcast_event "cpu" Py.VNone 5 Return]) in
  run [0; 1; 1; 0]%nat w = w ∧ held w = (Some 0%nat, Some 1%nat).
Proof.
  intros h w.
  assert (H1 : event_handlers h !! "cpu" = Some {["1"]}) by (by vm_compute).
  assert (H2 : ({["1"]} : gset string) ≠ ∅).
  { apply non_empty_singleton_L. }
  destruct (subscribe_and_broadcast_can_deadlock h "2" "disk" "cpu" Py.VNone 5
              {["1"]} [0; 1; 1; 0]%nat H1 H2) as (_ & Hrun & _ & Hheld & _).
  exact (conj Hrun Hheld).
Defined.

End Locks.

(** ** More on the metrics cache *)
Module MetricsFacts.

Import Py Metrics.

(** *** The sweep and the lookup *)

Lemma cleanup_cache_lookup now s key :
  _cache (_cleanup_cache now s) !! key =
  e ← _cache s !! key; if is_fresh now e then Some e else None.
Proof.
  unfold _cleanup_cache. simpl. destruct (_cache s !! key) as [e|] eqn:Hk; simpl.
  - destruct (is_fresh now e) eqn:Hf.
    + by apply map_lookup_filter_Some.
    + apply map_lookup_filter_None. right. intros e' He'. simpl. congruence.
  - apply map_lookup_filter_None. by left.
Qed.

(** [_cleanup_cache] and [_get_from_cache] apply the same test: the sweep
    keeps exactly the entries that a lookup at the same instant serves, a
    lookup gives the same answer before and after the sweep and leaves its
    own key as the sweep does, touching no other key, and the sweep leaves the
    histories alone. *)
Theorem sweep_agrees_with_lookup now s key :
  let s' := _cleanup_cache now s in
  (∀ e, _cache s' !! key = Some e ↔
        _cache s !! key = Some e ∧ (_get_from_cache now key s).1 = Some (data e)) ∧
  (_get_from_cache now key s').1 = (_get_from_cache now key s).1 ∧
  _cache (_get_from_cache now key s).2 !! key = _cache s' !! key ∧
  (∀ other, other ≠ key →
     _cache (_get_from_cache now key s).2 !! other = _cache s !! other) ∧
  history_state s' = history_state s.
Proof.
  cbv zeta. pose proof (cleanup_cache_lookup now s key) as Hl.
  unfold _get_from_cache. rewrite Hl.
  destruct (_cache s !! key) as [e|] eqn:Hk; simpl in *.
  - destruct (is_fresh now e) eqn:Hf; simpl.
    + rewrite Hf. split_and!; try done.
      intros e'. split; [by intros [= <-]|by intros [[= <-] _]].
    + rewrite lookup_delete_eq. split_and!; try done.
      * intros e'. split; [done|by intros [_ ?]].
      * intros other Hne. by rewrite lookup_delete_ne.
  - rewrite Hk. split_and!; try done. intros e'. split; [done|by intros [? _]].
Qed.

(** *** [clear_cache] *)

(** After [clear_cache] every lookup misses, the histories and the log of
    commands are as before, and the next [get_system_metrics] issues remote
    commands whatever had been cached. *)
Theorem clear_cache_forces_refetch strip float ssh t_lookup t_cache t_history
    server_name s :
  let s' := clear_cache s in
  (∀ now key, _get_from_cache now key s' = (None, s')) ∧
  history_state s' = history_state s ∧
  ∃ tried, tried ≠ [] ∧
    executed (get_system_metrics strip float ssh t_lookup t_cache t_history
                server_name s').2 = executed s ++ tried.
Proof.
  cbv zeta. split_and!; [done..|].
  apply (get_system_metrics_miss strip float ssh t_lookup t_cache t_history
           server_name (clear_cache s)).
  unfold clear_cache. simpl. by rewrite lookup_empty.
Qed.

(** *** Store and lookup *)

(** An entry stored with [_store_in_cache] is served by a lookup under
    the same key as long as its age is within its ttl, and the lookup changes
    nothing.  The ttl of the entry is the one given, and the default of the
    service when none is given or when 0 is given: a ttl of 0 does not switch
    the cache off.  Lookups under other keys are not affected. *)
Theorem stored_entry_is_served now later key d ttl_given s :
  0 ≤ later - now →
  let s' := _store_in_cache now key d ttl_given s in
  let served := _get_from_cache later key s' = (Some d, s') in
  (∀ t, ttl_given = Some t → t ≠ 0 → later - now ≤ Clock.seconds_of t → served) ∧
  (ttl_given = None ∨ ttl_given = Some 0 →
   later - now ≤ Clock.seconds_of (cache_ttl s) → served) ∧
  (∀ other, other ≠ key →
     (_get_from_cache later other s').1 = (_get_from_cache later other s).1).
Proof.
  intros Hage. cbv zeta.
  assert (Hgo : ∀ t,
    later - now ≤ Clock.seconds_of t →
    _get_from_cache later key
      (set_cache s (<[key := Cache d now t]> (_cache s))) =
    (Some d, set_cache s (<[key := Cache d now t]> (_cache s)))).
  { intros t Ht. unfold _get_from_cache. simpl. rewrite lookup_insert_eq.
    by rewrite is_fresh_within_ttl. }
  split_and!.
  - intros t -> Hne Ht. unfold _store_in_cache.
    rewrite bool_decide_false by done. by apply Hgo.
  - intros [->| ->] Ht; unfold _store_in_cache; [|rewrite bool_decide_true by done];
      by apply Hgo.
  - intros other Hne. unfold _get_from_cache, _store_in_cache. simpl.
    rewrite lookup_insert_ne by done.
    destruct (_cache s !! other) as [e|]; [|done]. by destruct (is_fresh later e).
Qed.

Lemma stored_entry_is_served_witness :
  let s' := _store_in_cache 0 "k" [("cpu", VInt 1)] (Some 0) (init 60) in
  _get_from_cache (Clock.seconds_of 60) "k" s' = (Some [("cpu", VInt 1)], s').
Proof.
  intros s'.
  destruct (stored_entry_is_served 0 (Clock.seconds_of 60) "k" [("cpu", VInt 1)]
              (Some 0) (init 60) ltac:(by vm_compute)) as (_ & H & _).
  apply H; [by right|by vm_compute].
Defined.

(** *** The loop of [get_system_metrics] *)

Section Loop.

Variable strip : string → string.
Variable float : string → option value.
Variable ssh : string → string → option result.

(** What one command contributes to the result. *)
Definition reading (server_name : string) (mc : string * string)
    : option (string * value) :=
  r ← ssh server_name mc.2;
  if bool_decide (exit_code r = 0)
  then Some (mc.1, default (VStr (strip (output r))) (float (strip (output r))))
  else None.

Definition issued (server_name : string) (cmds : list (string * string))
    : list (string * string) :=
  (λ mc, (server_name, mc.2)) <$> cmds.

(** There is no usable entry for the server in the cache. *)
Definition misses (t_lookup : Z) (server_name : string) (s : service) : Prop :=
  match _cache s !! _get_cache_key "system" server_name "{}" with
  | Some e => is_fresh t_lookup e = false ∨ dict_truthy (data e) = false
  | None => True
  end.

Lemma dict_set_new k v (d : dict) : k ∉ d.*1 → dict_set k v d = d ++ [(k, v)].
Proof.
  induction d as [|[k' v'] d IH]; intros Hk; [done|]. simpl.
  rewrite fmap_cons, not_elem_of_cons in Hk. destruct Hk as [Hne Hk].
  rewrite decide_False by done. by rewrite IH.
Qed.

Lemma collect_all server_name cmds : ∀ metrics log,
  NoDup (metrics.*1 ++ cmds.*1) →
  Forall (λ mc, is_Some (ssh server_name mc.2)) cmds →
  collect strip float ssh server_name cmds metrics log =
  (Some (metrics ++ omap (reading server_name) cmds), log ++ issued server_name cmds).
Proof.
  induction cmds as [|[metric command] rest IH]; intros metrics log Hnd Hall.
  - simpl. by rewrite !app_nil_r.
  - apply Forall_cons in Hall as [[r Hr] Hall]. simpl in Hr.
    cbn [collect]. rewrite Hr.
    unfold issued. rewrite fmap_cons. cbn [omap list_omap]. unfold reading at 1.
    simpl. rewrite Hr. simpl.
    rewrite fmap_cons in Hnd. simpl in Hnd.
    apply NoDup_app in Hnd as (Hm & Hdis & Hc).
    apply NoDup_cons in Hc as [Hnew Hc].
    case_bool_decide.
    + rewrite dict_set_new by (intros Hin; apply (Hdis _ Hin); by left).
      rewrite IH; [|rewrite fmap_app; simpl|done].
      * by rewrite <-!app_assoc.
      * rewrite <-app_assoc. simpl. apply NoDup_app. split_and!; [done| |by apply NoDup_cons].
        done.
    + rewrite IH; [|apply NoDup_app; split_and!; [done| |done]|done].
      * by rewrite <-!app_assoc.
      * intros x Hx Hx'. apply (Hdis _ Hx). by right.
Qed.

Lemma collect_raises server_name pre c post : ∀ metrics log,
  Forall (λ mc, is_Some (ssh server_name mc.2)) pre →
  ssh server_name c.2 = None →
  collect strip float ssh server_name (pre ++ c :: post) metrics log =
  (None, log ++ issued server_name (pre ++ [c])).
Proof.
  induction pre as [|[metric command] pre IH]; intros metrics log Hall Hc.
  - destruct c as [metric command]. simpl in *. by rewrite Hc.
  - apply Forall_cons in Hall as [[r Hr] Hall]. simpl in Hr.
    cbn [collect app]. rewrite Hr. rewrite IH by done.
    unfold issued. rewrite fmap_cons. simpl. by rewrite <-app_assoc.
Qed.

Lemma get_from_cache_frame now key s :
  let s1 := (_get_from_cache now key s).2 in
  executed s1 = executed s ∧ cache_ttl s1 = cache_ttl s ∧
  history_state s1 = history_state s ∧
  ∀ k e, _cache s1 !! k = Some e → _cache s !! k = Some e.
Proof.
  unfold _get_from_cache. destruct (_cache s !! key) as [e|] eqn:Hk; [|done].
  destruct (is_fresh now e); [done|]. simpl. split_and!; [done..|].
  intros k e' [_ H]%lookup_delete_Some. done.
Qed.

Lemma misses_spec t_lookup server_name s :
  misses t_lookup server_name s →
  match (_get_from_cache t_lookup (_get_cache_key "system" server_name "{}") s).1 with
  | Some d => dict_truthy d
  | None => false
  end = false.
Proof.
  unfold misses, _get_from_cache.
  destruct (_cache s !! _get_cache_key "system" server_name "{}") as [e|]; [|done].
  destruct (is_fresh t_lookup e); [|done]. simpl. by intros [?|?].
Qed.

(** On a miss, when every command gets an answer, [get_system_metrics]
    issues the four commands once each, in the order of the table, and
    returns one entry for each command that ended with exit code 0, in that
    order: a command that fails is left out without an error.  The result is
    what the cache then holds for the server, with the default ttl. *)
Theorem system_metrics_reports_successful_commands
    t_lookup t_cache t_history server_name s :
  misses t_lookup server_name s →
  Forall (λ mc, is_Some (ssh server_name mc.2)) commands →
  let r := get_system_metrics strip float ssh t_lookup t_cache t_history
             server_name s in
  let metrics := omap (reading server_name) commands in
  r.1 = Some metrics ∧
  executed r.2 = executed s ++ issued server_name commands ∧
  _cache r.2 !! _get_cache_key "system" server_name "{}" =
    Some (Cache metrics t_cache (cache_ttl s)).
Proof.
  intros Hmiss Hall. cbv zeta.
  pose proof (misses_spec _ _ _ Hmiss) as Hm.
  destruct (get_from_cache_frame t_lookup
              (_get_cache_key "system" server_name "{}") s) as (He & Ht & _).
  unfold get_system_metrics.
  destruct (_get_from_cache t_lookup (_get_cache_key "system" server_name "{}") s)
    as [cached s1].
  cbn [fst snd] in *. rewrite Hm.
  rewrite (collect_all server_name commands [] (executed s1));
    [|by apply (bool_decide_unpack _)|done].
  rewrite app_nil_l. cbn [fst snd].
  destruct (store_in_history_frame t_history "system" server_name
    (omap (reading server_name) commands)
    (_store_in_cache t_cache (_get_cache_key "system" server_name "{}")
       (omap (reading server_name) commands) None
       (set_executed s1 (executed s1 ++ issued server_name commands))))
    as (_ & -> & ->).
  split_and!; [done|simpl; by rewrite He|].
  simpl. by rewrite lookup_insert_eq, Ht.
Qed.

(** When a command raises, the exception leaves [get_system_metrics]: the
    commands after it are not issued, no cache entry is written or changed,
    and the histories are as they were. *)
Theorem failed_command_caches_nothing
    t_lookup t_cache t_history server_name s pre c post :
  misses t_lookup server_name s →
  commands = pre ++ c :: post →
  Forall (λ mc, is_Some (ssh server_name mc.2)) pre →
  ssh server_name c.2 = None →
  let r := get_system_metrics strip float ssh t_lookup t_cache t_history
             server_name s in
  r.1 = None ∧
  executed r.2 = executed s ++ issued server_name (pre ++ [c]) ∧
  (∀ k e, _cache r.2 !! k = Some e → _cache s !! k = Some e) ∧
  history_state r.2 = history_state s.
Proof.
  intros Hmiss Hcmds Hall Hc. cbv zeta.
  pose proof (misses_spec _ _ _ Hmiss) as Hm.
  destruct (get_from_cache_frame t_lookup
              (_get_cache_key "system" server_name "{}") s) as (He & _ & Hh & Hk).
  unfold get_system_metrics.
  destruct (_get_from_cache t_lookup (_get_cache_key "system" server_name "{}") s)
    as [cached s1].
  cbn [fst snd] in *. rewrite Hm, Hcmds.
  rewrite (collect_raises server_name pre c post [] (executed s1)) by done.
  cbn [fst snd]. split_and!; [done|simpl; by rewrite He|done|done].
Qed.

End Loop.

(** A remote side on which the disk command raises. *)
Definition ssh_disk_down (server_name command : string) : option result :=
  if decide (command = "df -h / | awk 'NR==2{print $5}' | sed 's/%//g'")
  then None else Some (Result 0 "10" "").

(** A remote side on which the memory command ends with exit code 1. *)
Definition ssh_memory_failing (server_name command : string) : option result :=
  if decide (command = "top -bn1 | grep 'Cpu(s)' | awk '{print $2 + $4}'")
  then Some (Result 0 " 12.5 " "")
  else if decide (command = "uptime | awk -F'[a-z]:' '{ print $2}'")
  then Some (Result 0 "0.10, 0.20, 0.30" "")
  else if decide (command = "df -h / | awk 'NR==2{print $5}' | sed 's/%//g'")
  then Some (Result 0 "41" "")
  else Some (Result 1 "" "free: not found").

Lemma system_metrics_reports_successful_commands_witness :
  let float_none (s : string) : option value := None in
  (get_system_metrics strip_id float_none ssh_memory_failing 0 0 0 "hostA" (init 60)).1 =
  Some [("cpu", VStr " 12.5 "); ("disk", VStr "41");
        ("load", VStr "0.10, 0.20, 0.30")].
Proof.
  intros float_none.
  destruct (system_metrics_reports_successful_commands strip_id float_none
              ssh_memory_failing 0 0 0 "hostA" (init 60)) as (H & _).
  - by vm_compute.
  - unfold commands.
    repeat (apply Forall_cons; split; [vm_compute; by eexists|]). constructor.
  - rewrite H. by vm_compute.
Defined.

Lemma failed_command_caches_nothing_witness :
  let r := get_system_metrics strip_id float_any ssh_disk_down 0 0 0 "hostA" (init 60) in
  r.1 = None ∧ length (executed r.2) = 3%nat ∧ _cache r.2 = ∅.
Proof.
  intros r.
  destruct (failed_command_caches_nothing strip_id float_any ssh_disk_down 0 0 0
              "hostA" (init 60) (take 2 commands)
              ("disk", "df -h / | awk 'NR==2{print $5}' | sed 's/%//g'")
              (drop 3 commands)) as (H1 & H2 & H3 & _).
  - by vm_compute.
  - by vm_compute.
  - simpl. repeat (apply Forall_cons; split; [vm_compute; by eexists|]). constructor.
  - by vm_compute.
  - fold r in H1, H2, H3. split_and!; [done|by rewrite H2|].
    apply map_empty. intros k. destruct (_cache r.2 !! k) as [e|] eqn:Hk; [|done].
    apply H3 in Hk. simpl in Hk. by rewrite lookup_empty in Hk.
Defined.

(** *** One server's refresh and the other servers *)

Lemma list_ascii_of_string_app (a b : string) :
  Stdlib.Strings.String.list_ascii_of_string (a +:+ b) =
  Stdlib.Strings.String.list_ascii_of_string a ++
  Stdlib.Strings.String.list_ascii_of_string b.
Proof.
  induction a as [|c a IH]; [done|].
  change (String c a +:+ b) with (String c (a +:+ b)). simpl. by rewrite IH.
Qed.

Lemma append_inv_tail (a b t : string) : a +:+ t = b +:+ t → a = b.
Proof.
  intros H. apply (f_equal Stdlib.Strings.String.list_ascii_of_string) in H.
  rewrite !list_ascii_of_string_app in H. apply app_inv_tail in H.
  apply (f_equal Stdlib.Strings.String.string_of_list_ascii) in H.
  by rewrite !Stdlib.Strings.String.string_of_list_ascii_of_string in H.
Qed.

Lemma cache_key_inj metric_type a b :
  _get_cache_key metric_type a "{}" = _get_cache_key metric_type b "{}" → a = b.
Proof.
  unfold _get_cache_key. intros H.
  apply (inj (String.app metric_type)), (inj (String.app ":")) in H.
  by apply append_inv_tail in H.
Qed.

Lemma history_key_inj metric_type a b :
  history_key metric_type a = history_key metric_type b → a = b.
Proof.
  unfold history_key. intros H.
  by apply (inj (String.app metric_type)), (inj (String.app ":")) in H.
Qed.

Lemma wf_history_state s s' : history_state s = history_state s' → wf s → wf s'.
Proof.
  unfold history_state. intros [= Hh Hl Hn Hm] [Hb Hi]. split.
  - intros k r. rewrite <-Hh, <-Hn. apply Hb.
  - intros k1 k2 r. rewrite <-Hh. apply Hi.
Qed.

Lemma series_history_state s s' key :
  history_state s = history_state s' → series s key = series s' key.
Proof.
  unfold history_state, series, contents. by intros [= -> -> _ _].
Qed.

Section Frame.

Variable strip : string → string.
Variable float : string → option value.
Variable ssh : string → string → option result.

Lemma get_system_metrics_frame t_lookup t_cache t_history server_name s :
  wf s →
  let r := get_system_metrics strip float ssh t_lookup t_cache t_history
             server_name s in
  wf r.2 ∧
  (∀ key, key ≠ history_key "system" server_name → series r.2 key = series s key) ∧
  (∀ k, k ≠ _get_cache_key "system" server_name "{}" →
        _cache r.2 !! k = _cache s !! k).
Proof.
  intros Hwf. cbv zeta. unfold get_system_metrics.
  set (ck := _get_cache_key "system" server_name "{}").
  assert (H1 : history_state (_get_from_cache t_lookup ck s).2 = history_state s ∧
               ∀ k, k ≠ ck → _cache (_get_from_cache t_lookup ck s).2 !! k = _cache s !! k).
  { unfold _get_from_cache. destruct (_cache s !! ck) as [e|]; [|done].
    destruct (is_fresh t_lookup e); [done|]. split; [done|].
    intros k Hk. simpl. by rewrite lookup_delete_ne. }
  destruct (_get_from_cache t_lookup ck s) as [cached s1].
  cbn [fst snd] in H1. destruct H1 as [Hh Hc].
  assert (Hframe : wf s1 ∧ (∀ key, series s1 key = series s key)).
  { split; [by apply (wf_history_state s)|].
    intros key. by apply series_history_state. }
  destruct (match cached with Some d => dict_truthy d | None => false end).
  { by split_and!; [apply Hframe|intros; apply Hframe|]. }
  destruct (collect strip float ssh server_name commands [] (executed s1))
    as [[metrics|] log]; cbn [fst snd].
  - set (s3 := _store_in_cache t_cache ck metrics None (set_executed s1 log)).
    assert (Hh3 : history_state s1 = history_state s3) by done.
    destruct (store_in_history_spec t_history "system" server_name metrics s3)
      as (Hwf4 & _ & Hser); [by apply (wf_history_state s1), Hframe|].
    destruct (store_in_history_frame t_history "system" server_name metrics s3)
      as (_ & Hc4 & _).
    split_and!; [done| |].
    + intros key Hkey. rewrite Hser, decide_False by done.
      rewrite <-(series_history_state s1 s3) by done. apply Hframe.
    + intros k Hk. rewrite Hc4. unfold s3. simpl.
      rewrite lookup_insert_ne by done. by apply Hc.
  - split_and!.
    + by apply (wf_history_state s1), Hframe.
    + intros key _. rewrite <-(series_history_state s1) by done. apply Hframe.
    + intros k Hk. simpl. by apply Hc.
Qed.

(** A call of [get_system_metrics] for one server leaves what is cached
    for every other server, and the history of every other server, as they
    were: results are never mixed between servers. *)
Theorem servers_do_not_share_entries
    t_lookup t_cache t_history server_name other s :
  wf s →
  other ≠ server_name →
  let r := get_system_metrics strip float ssh t_lookup t_cache t_history
             server_name s in
  _cache r.2 !! _get_cache_key "system" other "{}" =
    _cache s !! _get_cache_key "system" other "{}" ∧
  series r.2 (history_key "system" other) = series s (history_key "system" other).
Proof.
  intros Hwf Hne r.
  destruct (get_system_metrics_frame t_lookup t_cache t_history server_name s Hwf)
    as (_ & Hser & Hc).
  split.
  - apply Hc. intros H. by apply cache_key_inj in H.
  - apply Hser. intros H. by apply history_key_inj in H.
Qed.

End Frame.

Lemma servers_do_not_share_entries_witness :
  let s := (system_metrics_at ssh_up 0 (init 60)).2 in
  let r := get_system_metrics strip_id float_any ssh_failing 5 5 5 "hostB" s in
  (data <$> _cache r.2 !! _get_cache_key "system" "hostA" "{}") =
    Some [("cpu", VFloat "10"); ("memory", VFloat "10");
          ("disk", VFloat "10"); ("load", VFloat "10")] ∧
  length (series r.2 (history_key "system" "hostA")) = 1%nat.
Proof.
  intros s r.
  assert (Hwf : wf s).
  { by apply (get_system_metrics_frame strip_id float_any ssh_up 0 0 0 "hostA"
                (init 60) (wf_init 60)). }
  destruct (servers_do_not_share_entries strip_id float_any ssh_failing 5 5 5
              "hostB" "hostA" s Hwf ltac:(done)) as [Hc Hs].
  fold r in Hc, Hs. rewrite Hc, Hs. split; by vm_compute.
Defined.

End MetricsFacts.
